(** * Balanced news feed: source selection, tiered cache and feed assembly

    A shallow embedding of the backend's source picker ([feed.js]), of its
    two-tier cache ([cache.js]), of the article provider ([newsapi.js]) and
    of the [/feed] and [/article] request handlers ([index.js]), with the
    properties their documentation states and further properties of the
    code.

    Conventions of the embedding.
    - A JavaScript number is a [number]: a finite value is the rational it
      denotes (arithmetic is exact: no rounding, no overflow), next to
      [NaN] and the two infinities.  The result of [Math.sqrt] is kept as a
      [root], the number under the square root, and compared through it.
      What depends on the rounding of doubles, or on Unicode in strings, is
      stated over [Platform], where the arithmetic of distances and the
      string functions are parameters; [Doubles] is the arithmetic of
      IEEE-754 doubles itself.
    - An exception is a [Thrown] outcome; [try]/[catch] is a [match] on it.
    - Module-level variables ([sources], [isRedisConnected], [memoryCache],
      ...) are fields of an explicit state that every function threads.
    - [Date.now()] is a parameter [now] (milliseconds), logging and metrics
      calls have no effect on results and are left out.
    - Environment overrides are unset: constants have the source's defaults. *)

From Stdlib Require Import Ascii String QArith Lqa SpecFloat.
From stdpp Require Import pretty sorting gmap strings list fin_maps.
Close Scope Q_scope.

(** ** Outcomes of calls that may throw *)

Inductive outcome (A : Type) : Type :=
  | Returned (a : A)
  | Thrown (message : string).
Arguments Returned {A} a.
Arguments Thrown {A} message.

(** ** JavaScript numbers and values *)

Inductive number : Type :=
  | Fin (q : Q)
  | PosInf
  | NegInf
  | NaN.

Inductive jsval : Type :=
  | JUndefined
  | JNull
  | JBool (b : bool)
  | JNum (n : number)
  | JStr (s : string).

(** [typeof v === 'number'] *)
Definition typeof_number (v : jsval) : bool :=
  match v with JNum _ => true | _ => false end.

Definition nneg (a : number) : number :=
  match a with
  | Fin q => Fin (- q)
  | PosInf => NegInf
  | NegInf => PosInf
  | NaN => NaN
  end.

Definition nadd (a b : number) : number :=
  match a, b with
  | NaN, _ | _, NaN => NaN
  | Fin p, Fin q => Fin (p + q)
  | PosInf, NegInf | NegInf, PosInf => NaN
  | PosInf, _ | _, PosInf => PosInf
  | NegInf, _ | _, NegInf => NegInf
  end.

Definition nsub (a b : number) : number := nadd a (nneg b).

(** [p < q] on rationals, as a boolean. *)
Definition Qltb (p q : Q) : bool := negb (Qle_bool q p).

(** Sign of a rational as a comparison with zero. *)
Definition Qsign (q : Q) : comparison := (q ?= 0)%Q.

Definition inf_of (c : comparison) : number :=
  match c with Gt => PosInf | Lt => NegInf | Eq => NaN end.

Definition nmul (a b : number) : number :=
  match a, b with
  | NaN, _ | _, NaN => NaN
  | Fin p, Fin q => Fin (p * q)
  | PosInf, Fin q | Fin q, PosInf => inf_of (Qsign q)
  | NegInf, Fin q | Fin q, NegInf => inf_of (CompOpp (Qsign q))
  | PosInf, PosInf | NegInf, NegInf => PosInf
  | PosInf, NegInf | NegInf, PosInf => NegInf
  end.

(** [Math.sqrt v], kept symbolically. *)
Inductive root : Type := Sqrt (v : number).

(** [Math.sqrt v <= r] for a finite [r]: false on [NaN] (also the square
    root of a negative number) and on infinity. *)
Definition root_leb (d : root) (r : Q) : bool :=
  match d with
  | Sqrt (Fin q) => Qle_bool 0 q && Qle_bool 0 r && Qle_bool q (r * r)
  | Sqrt _ => false
  end.

(** [a - b < 0] for two square roots: the comparator of the sort. *)
Definition root_ltb (a b : root) : bool :=
  match a, b with
  | Sqrt (Fin p), Sqrt (Fin q) =>
      Qle_bool 0 p && Qle_bool 0 q && Qltb p q
  | Sqrt (Fin p), Sqrt PosInf => Qle_bool 0 p
  | _, _ => false
  end.

(** ** Array helpers *)

(** [Array.prototype.sort] with a comparator is stable: an element moves in
    front of another only when the comparator is negative on them. *)
Section Sort.
Context {A : Type} (lt : A → A → bool).

Fixpoint sort_insert (a : A) (l : list A) : list A :=
  match l with
  | [] => [a]
  | b :: l' => if lt b a then b :: sort_insert a l' else a :: b :: l'
  end.

Fixpoint stable_sort (l : list A) : list A :=
  match l with
  | [] => []
  | a :: l' => sort_insert a (stable_sort l')
  end.
End Sort.

(** [ids.includes(s)] *)
Definition includes (ids : list string) (s : string) : bool :=
  bool_decide (s ∈ ids).

(** ** feed.js: the catalog *)

Module Feed.

Definition MIN_SOURCES_COUNT : nat := 4.
Definition MAX_SEARCH_RADIUS : Q := 2.

Record Source : Type := mkSource {
  s_id : string;
  s_name : string;
  s_x : Q;
  s_y : Q;
  s_category : string;
  s_active : bool
}.

(** A record of the parsed catalog file.  A field that is absent or of the
    wrong type is [None]; [r_active_false] says that [active] is literally
    [false]. *)
Record RawSource : Type := mkRaw {
  r_id : option string;
  r_name : option string;
  r_x : option Q;
  r_y : option Q;
  r_category : option string;
  r_active_false : bool
}.

(** The first filter of [validateSources]: required fields and coordinate
    range, then the defaults of the optional fields. *)
Definition validate_one (r : RawSource) : option Source :=
  match r_id r, r_name r, r_x r, r_y r with
  | Some i, Some n, Some px, Some py =>
      if bool_decide (i = "") || bool_decide (n = "") then None
      else if Qltb px (-1) || Qltb 1 px || Qltb py (-1) || Qltb 1 py then None
      else Some {| s_id := i; s_name := n; s_x := px; s_y := py;
                   s_category := match r_category r with
                                 | Some c => if bool_decide (c = "") then "general" else c
                                 | None => "general"
                                 end;
                   s_active := negb (r_active_false r) |}
  | _, _, _, _ => None
  end.

Definition validateSources (sourcesData : list RawSource) : outcome (list Source) :=
  let validSources :=
    filter (λ s, s_active s) (omap validate_one sourcesData) in
  if decide (length validSources < MIN_SOURCES_COUNT)
  then Thrown "Insufficient valid sources"
  else Returned validSources.

Definition getDefaultSources : list Source :=
  [ mkSource "bbc-news" "BBC News" (-0.2) 0.1 "general" true;
    mkSource "cnn" "CNN" (-0.5) 0.3 "general" true;
    mkSource "fox-news" "Fox News" 0.7 (-0.2) "general" true;
    mkSource "reuters" "Reuters" 0.1 0.4 "general" true;
    mkSource "associated-press" "Associated Press" 0.0 0.2 "general" true;
    mkSource "usa-today" "USA Today" 0.0 0.0 "general" true ].

(** [loadSources]: the catalog file cannot be read, is not JSON or is not
    an array when [file] is [None]. Returns the new value of [sources]. *)
Definition loadSources (file : option (list RawSource)) : list Source :=
  match file with
  | None => getDefaultSources
  | Some sourcesData =>
      match validateSources sourcesData with
      | Returned validatedSources => validatedSources
      | Thrown _ => getDefaultSources
      end
  end.

(** ** feed.js: nearest sources *)

(** A catalog source with the distance computed for one search. *)
Record Candidate : Type := mkCandidate {
  c_source : Source;
  c_distance : root
}.

(** [calculateDistance]: the target point is made of two numbers and the
    source has numeric coordinates, so the guard that returns [Infinity]
    never fires.  The distance is the exact one here, and so are the test of
    the radius and the comparator below; [Doubles] has the computed ones. *)
Definition calculateDistance (ax ay : number) (pointB : Source) : root :=
  let dx := nsub ax (Fin (s_x pointB)) in
  let dy := nsub ay (Fin (s_y pointB)) in
  Sqrt (nadd (nmul dx dx) (nmul dy dy)).

(** A category filter counts only when it is truthy (a non-empty string). *)
Definition category_rejects (categoryFilter : option string) (s : Source) : bool :=
  match categoryFilter with
  | Some c => negb (bool_decide (c = "")) && negb (bool_decide (s_category s = c))
  | None => false
  end.

(** The predicate of the first [filter] of [findClosestSources]. *)
Definition eligible (excludeIds : list string) (categoryFilter : option string)
    (s : Source) : bool :=
  if includes excludeIds (s_id s) then false
  else if category_rejects categoryFilter s then false
  else s_active s.

Definition within_radius (c : Candidate) : bool :=
  root_leb (c_distance c) MAX_SEARCH_RADIUS.

Definition closer (a b : Candidate) : bool :=
  root_ltb (c_distance a) (c_distance b).

(** The body of the [try] block of [findClosestSources]. *)
Definition findClosestSources_try (sources : list Source) (x y : jsval) (n : nat)
    (excludeIds : list string) (categoryFilter : option string)
    : outcome (list Candidate) :=
  match x, y with
  | JNum nx, JNum ny =>
      let candidateSources :=
        take n
          (stable_sort closer
             (filter (λ c, within_radius c)
                ((λ s, mkCandidate s (calculateDistance nx ny s)) <$>
                   filter (λ s, eligible excludeIds categoryFilter s) sources))) in
      Returned candidateSources
  | _, _ => Thrown "Invalid coordinates"
  end.

Definition findClosestSources (sources : list Source) (x y : jsval) (n : nat)
    (excludeIds : list string) (categoryFilter : option string) : list Candidate :=
  match findClosestSources_try sources x y n excludeIds categoryFilter with
  | Returned candidateSources => candidateSources
  | Thrown _ => []
  end.

(** ** feed.js: diversity *)

(** White space, lower case and [trim] on ASCII names; in
    [Platform.ensureSourceDiversity] the function [extractOrganization] is
    the platform's. *)
Definition is_space (c : ascii) : bool :=
  let n := nat_of_ascii c in
  bool_decide (9 ≤ n ≤ 13) || bool_decide (n = 32).

Definition lower (c : ascii) : ascii :=
  let n := nat_of_ascii c in
  if bool_decide (65 ≤ n ≤ 90) then ascii_of_nat (n + 32) else c.

Fixpoint skip_spaces (s : list ascii) : list ascii :=
  match s with
  | c :: s' => if is_space c then skip_spaces s' else s
  | [] => []
  end.

Definition corporate_suffixes : list (list ascii) :=
  list_ascii_of_string <$>
    ["news"; "media"; "network"; "corporation"; "inc"; "corp"; "llc"].

Definition articles_prefixes : list (list ascii) :=
  list_ascii_of_string <$> ["the"; "a"; "an"].

(** [s.replace(/\s+(news|media|...|llc)$/, '')]: the leftmost run of
    white space that is followed by one of the words and the end. *)
Fixpoint strip_suffix (s : list ascii) : list ascii :=
  match s with
  | [] => []
  | c :: s' =>
      if is_space c && bool_decide (skip_spaces s ∈ corporate_suffixes) then []
      else c :: strip_suffix s'
  end.

(** [word] followed by at least one white space at the start of [s]: what
    is left after the word and the whole run of white space. *)
Definition after_word (word s : list ascii) : option (list ascii) :=
  if bool_decide (take (length word) s = word) then
    match drop (length word) s with
    | c :: rest => if is_space c then Some (skip_spaces rest) else None
    | [] => None
    end
  else None.

(** [s.replace(/^(the|a|an)\s+/, '')]: the alternatives are tried in order. *)
Definition strip_prefix (s : list ascii) : list ascii :=
  default s (head (omap (λ w, after_word w s) articles_prefixes)).

Definition trim (s : list ascii) : list ascii :=
  reverse (skip_spaces (reverse (skip_spaces s))).

Definition extractOrganization (sourceName : string) : string :=
  string_of_list_ascii
    (trim (strip_prefix (strip_suffix (lower <$> list_ascii_of_string sourceName)))).

Inductive Side : Type := friendly | opposing | neutral.

(** An entry of [allSources]: a candidate with its [side] and the
    [isFallback] mark (absent, hence falsy, on friendly and opposing). *)
Record Tagged : Type := mkTagged {
  t_candidate : Candidate;
  t_side : Side;
  t_isFallback : bool
}.

Definition t_id (t : Tagged) : string := s_id (c_source (t_candidate t)).

Definition diversityKey (source : Tagged) : string :=
  let orgKey := extractOrganization (s_name (c_source (t_candidate source))) in
  let category := s_category (c_source (t_candidate source)) in
  let categoryKey := if bool_decide (category = "") then "general" else category in
  orgKey +:+ ":" +:+ categoryKey.

(** First loop of [ensureSourceDiversity]. *)
Fixpoint diversity_loop (seen : list string) (diverse : list Tagged)
    (rest : list Tagged) : list Tagged :=
  match rest with
  | [] => diverse
  | source :: rest' =>
      if negb (includes seen (diversityKey source)) || bool_decide (length diverse < 2)
      then diversity_loop (diversityKey source :: seen) (diverse ++ [source]) rest'
      else diversity_loop seen diverse rest'
  end.

(** Second loop: [total] is [sources.length]. *)
Fixpoint fill_loop (total : nat) (diverse : list Tagged) (rest : list Tagged)
    : list Tagged :=
  match rest with
  | [] => diverse
  | source :: rest' =>
      if bool_decide (total ≤ length diverse) then diverse
      else if bool_decide (t_id source ∈ t_id <$> diverse)
      then fill_loop total diverse rest'
      else fill_loop total (diverse ++ [source]) rest'
  end.

Definition ensureSourceDiversity (sources : list Tagged) : list Tagged :=
  fill_loop (length sources) (diversity_loop [] [] sources) sources.

(** ** feed.js: the picker *)

Record Options : Type := mkOptions {
  friendlyCount : nat;
  opposingCount : nat;
  categoryFilter : option string;
  ensureDiversity : bool;
  fallbackStrategy : string
}.

(** [pickSources(x, y)]: every option takes its default. *)
Definition defaultOptions : Options :=
  mkOptions 2 2 None true "fill_remaining".

Record SelectedSource : Type := mkSelected {
  sel_id : string;
  sel_name : string;
  sel_side : Side;
  sel_x : Q;
  sel_y : Q;
  sel_distance : root;
  sel_category : string;
  sel_isFallback : bool;
  sel_isEmergencyFallback : bool
}.

Definition tag (side : Side) (isFallback : bool) (c : Candidate) : Tagged :=
  mkTagged c side isFallback.

Definition finalSource (source : Tagged) : SelectedSource :=
  let s := c_source (t_candidate source) in
  mkSelected (s_id s) (s_name s) (t_side source) (s_x s) (s_y s)
    (c_distance (t_candidate source)) (s_category s) (t_isFallback source) false.

(** The body of the [try] block of [pickSources], with the value of the
    module variable [sources] it leaves. [options] is [None] for a value
    that cannot be destructured ([null]). *)
Definition pickSources_try (file : option (list RawSource)) (sources : list Source)
    (x y : jsval) (options : option Options)
    : outcome (list SelectedSource) * list Source :=
  match options with
  | None => (Thrown "Cannot destructure options", sources)
  | Some o =>
      match x, y with
      | JNum nx, JNum ny =>
          let sources := if bool_decide (length sources = 0)
                         then loadSources file else sources in
          let friendlySources :=
            findClosestSources sources (JNum nx) (JNum ny) (friendlyCount o) []
              (categoryFilter o) in
          let usedSourceIds := (λ c, s_id (c_source c)) <$> friendlySources in
          let opposingSources :=
            findClosestSources sources (JNum (nneg nx)) (JNum (nneg ny))
              (opposingCount o) usedSourceIds (categoryFilter o) in
          let allSources :=
            (tag friendly false <$> friendlySources) ++
            (tag opposing false <$> opposingSources) in
          let totalRequested := friendlyCount o + opposingCount o in
          let allSources :=
            if bool_decide (length allSources < totalRequested)
               && bool_decide (fallbackStrategy o = "fill_remaining")
            then
              let remainingCount := totalRequested - length allSources in
              let allUsedIds := t_id <$> allSources in
              let fallbackSources :=
                findClosestSources sources (JNum (Fin 0)) (JNum (Fin 0))
                  remainingCount allUsedIds (categoryFilter o) in
              allSources ++ (tag neutral true <$> fallbackSources)
            else allSources in
          let allSources :=
            if ensureDiversity o && bool_decide (1 < length allSources)
            then ensureSourceDiversity allSources else allSources in
          (Returned (finalSource <$> take totalRequested allSources), sources)
      | _, _ => (Thrown "Invalid bias coordinates", sources)
      end
  end.

Definition emergency (index : nat) (source : Source) : SelectedSource :=
  mkSelected (s_id source) (s_name source)
    (if bool_decide (index < 2) then friendly else opposing)
    (s_x source) (s_y source) (Sqrt (Fin 0)) (s_category source) true true.

Definition getEmergencyFallbackSources : list SelectedSource :=
  imap emergency (take 4 getDefaultSources).

Definition pickSources (file : option (list RawSource)) (sources : list Source)
    (x y : jsval) (options : option Options)
    : outcome (list SelectedSource) * list Source :=
  match pickSources_try file sources x y options with
  | (Returned finalSources, sources') => (Returned finalSources, sources')
  | (Thrown _, sources') => (Returned getEmergencyFallbackSources, sources')
  end.

End Feed.

(** ** feed.js on the platform's numbers and strings

    [Feed] computes distances exactly and folds case and trims white space
    on ASCII.  The source does both with the platform: its distances are
    IEEE-754 doubles, compared after rounding, and [toLowerCase], [\s] and
    [trim] follow Unicode.  Counts and ids of a selection do not depend on
    either; the order of a search and the key of the diversity pass do.
    Here the same functions take the platform's part as a parameter, so that
    what is proved of them holds of whatever the platform computes. *)

Module Platform.
Import Feed.

(** A catalog source with the distance the platform computed for it. *)
Record Measured (D : Type) : Type := mkMeasured {
  m_source : Source;
  m_distance : D
}.
Arguments mkMeasured {D} m_source m_distance.
Arguments m_source {D} m.
Arguments m_distance {D} m.

Section Numbers.
(** [D] is the type of a computed distance, [distance x y source] is
    [calculateDistance({x, y}, source)], [within d] is
    [d <= MAX_SEARCH_RADIUS] and [before a b] is [a - b < 0], the
    comparator of the sort. *)
Context {D : Type}.
Context (distance : number → number → Source → D).
Context (within : D → bool).
Context (before : D → D → bool).

(** The body of the [try] block of [findClosestSources]. *)
Definition findClosestSources_try (sources : list Source) (x y : jsval) (n : nat)
    (excludeIds : list string) (categoryFilter : option string)
    : outcome (list (Measured D)) :=
  match x, y with
  | JNum nx, JNum ny =>
      let candidateSources :=
        take n
          (stable_sort (λ a b, before (m_distance a) (m_distance b))
             (filter (λ c, within (m_distance c))
                ((λ s, mkMeasured s (distance nx ny s)) <$>
                   filter (λ s, eligible excludeIds categoryFilter s) sources))) in
      Returned candidateSources
  | _, _ => Thrown "Invalid coordinates"
  end.

Definition findClosestSources (sources : list Source) (x y : jsval) (n : nat)
    (excludeIds : list string) (categoryFilter : option string) : list (Measured D) :=
  match findClosestSources_try sources x y n excludeIds categoryFilter with
  | Returned candidateSources => candidateSources
  | Thrown _ => []
  end.
End Numbers.

Section Strings.
(** [extractOrganization] as the platform computes it. *)
Context (extractOrganization : string → string).

Definition diversityKey (source : Tagged) : string :=
  let orgKey := extractOrganization (s_name (c_source (t_candidate source))) in
  let category := s_category (c_source (t_candidate source)) in
  let categoryKey := if bool_decide (category = "") then "general" else category in
  orgKey +:+ ":" +:+ categoryKey.

(** First loop of [ensureSourceDiversity]. *)
Fixpoint diversity_loop (seen : list string) (diverse : list Tagged)
    (rest : list Tagged) : list Tagged :=
  match rest with
  | [] => diverse
  | source :: rest' =>
      if negb (includes seen (diversityKey source)) || bool_decide (length diverse < 2)
      then diversity_loop (diversityKey source :: seen) (diverse ++ [source]) rest'
      else diversity_loop seen diverse rest'
  end.

Definition ensureSourceDiversity (sources : list Tagged) : list Tagged :=
  fill_loop (length sources) (diversity_loop [] [] sources) sources.
End Strings.

End Platform.

(** ** The platform's numbers: IEEE-754 binary64

    The operations are those of the standard library's specification of
    floating-point arithmetic, at the precision and exponent range of a
    double, rounding to nearest, ties to even. *)

Module Doubles.
Import Feed.

Definition prec : Z := 53.
Definition emax : Z := 1024.

Definition double : Type := spec_float.

Definition of_Z (z : Z) : double := binary_normalize prec emax z 0 false.

(** The double nearest to a rational whose numerator and denominator are
    below [2^53]: the number that a decimal of the catalog file or of the
    query string denotes. *)
Definition of_Q (q : Q) : double :=
  SFdiv prec emax (of_Z (Qnum q)) (of_Z (Z.pos (Qden q))).

Definition of_number (n : number) : double :=
  match n with
  | Fin q => of_Q q
  | PosInf => S754_infinity false
  | NegInf => S754_infinity true
  | NaN => S754_nan
  end.

(** [calculateDistance] *)
Definition calculateDistance (ax ay : number) (pointB : Source) : double :=
  let dx := SFsub prec emax (of_number ax) (of_Q (s_x pointB)) in
  let dy := SFsub prec emax (of_number ay) (of_Q (s_y pointB)) in
  SFsqrt prec emax (SFadd prec emax (SFmul prec emax dx dx) (SFmul prec emax dy dy)).

(** [distance <= MAX_SEARCH_RADIUS] *)
Definition within_radius (d : double) : bool := SFleb d (of_Q MAX_SEARCH_RADIUS).

(** [a.distance - b.distance < 0] *)
Definition closer (a b : double) : bool :=
  SFltb (SFsub prec emax a b) (S754_zero false).

End Doubles.

(** ** cache.js: the in-memory tier *)

(** A JavaScript [Map] with string keys: the entries in insertion order,
    each key at most once. *)
Section JSMap.
Context {V : Type}.

Definition map_get (key : string) (m : list (string * V)) : option V :=
  snd <$> head (filter (λ kv, kv.1 = key) m).

(** [m.set(key, v)]: an existing key keeps its position. *)
Fixpoint map_set (key : string) (v : V) (m : list (string * V)) : list (string * V) :=
  match m with
  | [] => [(key, v)]
  | (k, w) :: m' =>
      if bool_decide (k = key) then (k, v) :: m' else (k, w) :: map_set key v m'
  end.

Definition map_delete (key : string) (m : list (string * V)) : list (string * V) :=
  filter (λ kv, kv.1 ≠ key) m.

Definition map_has (key : string) (m : list (string * V)) : bool :=
  bool_decide (key ∈ m.*1).

Definition map_keys (m : list (string * V)) : list string := m.*1.
End JSMap.

Module Cache.

Definition MAX_MEMORY_CACHE_SIZE : Z := 1000.

Record Item : Type := mkItem {
  value : string;
  expires : option Z
}.

Record MemoryCache : Type := mkMemoryCache {
  cache : list (string * Item);
  maxSize : Z
}.

(** [new MemoryCache(maxSize)] *)
Definition newMemoryCache (maxSize : Z) : MemoryCache := mkMemoryCache [] maxSize.

(** Truthiness of a number, of [item.expires] ([null] or a number). *)
Definition truthy (n : Z) : bool := negb (n =? 0)%Z.

Definition expired_before (now : Z) (item : Item) : bool :=
  match expires item with
  | Some e => truthy e && (e <? now)%Z
  | None => false
  end.

Definition expired_at (now : Z) (item : Item) : bool :=
  match expires item with
  | Some e => truthy e && (e <=? now)%Z
  | None => false
  end.

Definition size (this : MemoryCache) : nat := length (cache this).

Definition with_cache (this : MemoryCache) (c : list (string * Item)) : MemoryCache :=
  mkMemoryCache c (maxSize this).

(** [MemoryCache.get] *)
Definition mc_get (now : Z) (key : string) (this : MemoryCache)
    : MemoryCache * option string :=
  match map_get key (cache this) with
  | None => (this, None)
  | Some item =>
      if expired_before now item
      then (with_cache this (map_delete key (cache this)), None)
      else (with_cache this (map_set key item (map_delete key (cache this))),
            Some (value item))
  end.

(** [MemoryCache.set] *)
Definition mc_set (now : Z) (key value : string) (ttlSec : Z) (this : MemoryCache)
    : MemoryCache :=
  let c :=
    if bool_decide (maxSize this ≤ Z.of_nat (size this))%Z
    then match map_keys (cache this) with
         | firstKey :: _ => map_delete firstKey (cache this)
         | [] => cache this
         end
    else cache this in
  let expires := if truthy ttlSec then Some (now + ttlSec * 1000)%Z else None in
  with_cache this (map_set key (mkItem value expires) c).

(** [MemoryCache.delete] *)
Definition mc_delete (key : string) (this : MemoryCache) : MemoryCache * bool :=
  (with_cache this (map_delete key (cache this)), map_has key (cache this)).

(** [MemoryCache.clear] *)
Definition mc_clear (this : MemoryCache) : MemoryCache := with_cache this [].

(** [MemoryCache.cleanup] *)
Definition mc_cleanup (now : Z) (this : MemoryCache) : MemoryCache * nat :=
  (with_cache this (filter (λ kv, ¬ expired_at now kv.2) (cache this)),
   length (filter (λ kv, expired_at now kv.2) (cache this))).

(** ** cache.js: the Redis tier *)

(** The Redis server as this module uses it: a store of string values
    with an optional expiry time; an entry is gone once its time has passed.
    A call to the server returns or throws as its [ok] argument says. *)
Record Entry : Type := mkEntry {
  e_value : string;
  e_expireAt : option Z
}.

Definition alive (now : Z) (e : Entry) : bool :=
  match e_expireAt e with
  | Some t => (now <=? t)%Z
  | None => true
  end.

(** [GET key] *)
Definition redis_get (now : Z) (key : string) (store : gmap string Entry)
    : option string :=
  match store !! key with
  | Some e => if alive now e then Some (e_value e) else None
  | None => None
  end.

(** [SET key value EX ttlSec] *)
Definition redis_set (now : Z) (key value : string) (ttlSec : Z)
    (store : gmap string Entry) : gmap string Entry :=
  <[key := mkEntry value (Some (now + ttlSec * 1000)%Z)]> store.

(** [DEL key ...]: the store and the number of keys that were removed. *)
Definition redis_del (now : Z) (keys : list string) (store : gmap string Entry)
    : gmap string Entry * nat :=
  (foldr delete store keys,
   length (filter (λ k, is_Some (redis_get now k store)) (remove_dups keys))).

(** The module's variables and the store of the server it talks to. *)
Record State : Type := mkState {
  client : bool;
  isRedisConnected : bool;
  redis : gmap string Entry;
  memoryCache : MemoryCache
}.

Definition set_disconnected (st : State) : State :=
  mkState (client st) false (redis st) (memoryCache st).

Definition with_memory (st : State) (m : MemoryCache) : State :=
  mkState (client st) (isRedisConnected st) (redis st) m.

Definition with_redis (st : State) (r : gmap string Entry) : State :=
  mkState (client st) (isRedisConnected st) r (memoryCache st).

(** The tail of [getCache]: the memory tier. *)
Definition getCache_memory (now : Z) (key : string) (st : State)
    : State * option string :=
  let '(m, value) := mc_get now key (memoryCache st) in
  (with_memory st m, value).

(** [getCache]: [ok] tells whether [client.get] returns. *)
Definition getCache (now : Z) (ok : bool) (key : string) (st : State)
    : State * option string :=
  if isRedisConnected st && client st then
    if ok then
      match redis_get now key (redis st) with
      | Some value => (st, Some value)
      | None => getCache_memory now key st
      end
    else getCache_memory now key (set_disconnected st)
  else getCache_memory now key st.

Definition setCache_memory (now : Z) (key value : string) (ttlSec : Z) (st : State)
    : State :=
  with_memory st (mc_set now key value ttlSec (memoryCache st)).

(** [setCache] on what the server stores: [value] is a string, or [None]
    for [undefined]; [ok] tells whether [client.set] returns.
    [AnyValue.setCache] below is the function on every value. *)
Definition setCache (now : Z) (ok : bool) (key : string) (value : option string)
    (ttlSec : Z) (st : State) : State * bool :=
  match value with
  | None => (st, false)
  | Some value =>
      if bool_decide (key = "") then (st, false)
      else if isRedisConnected st && client st then
        if ok then
          (setCache_memory now key value ttlSec
             (with_redis st (redis_set now key value ttlSec (redis st))), true)
        else (setCache_memory now key value ttlSec (set_disconnected st), true)
      else (setCache_memory now key value ttlSec st, true)
  end.

(** [deleteCache]: [ok] tells whether [client.del] returns. *)
Definition deleteCache (now : Z) (ok : bool) (key : string) (st : State)
    : State * bool :=
  let '(st1, deleted) :=
    if isRedisConnected st && client st then
      if ok then
        let '(r, result) := redis_del now [key] (redis st) in
        (with_redis st r, bool_decide (0 < result))
      else (st, false)
    else (st, false) in
  let '(m, memoryDeleted) := mc_delete key (memoryCache st1) in
  (with_memory st1 m, deleted || memoryDeleted).

(** [clearExpiredCache] *)
Definition clearExpiredCache (now : Z) (st : State) : State * nat :=
  let '(m, cleaned) := mc_cleanup now (memoryCache st) in
  (with_memory st m, cleaned).

(** [pattern.replace(/\\*/g, '.*')] *)
Fixpoint replace_stars (pattern : string) : string :=
  match pattern with
  | EmptyString => EmptyString
  | String c rest =>
      if bool_decide (c = "*"%char) then String "."%char (String "*"%char (replace_stars rest))
      else String c (replace_stars rest)
  end.

Section Clear.
(** The pattern matching of the two tiers is the platform's: the glob
    matching of the Redis [KEYS] command, and the regular expressions of
    the JavaScript engine, where [new RegExp(source)] throws a
    [SyntaxError] ([None]) or gives the predicate of [regex.test]. *)
Context (redis_glob : string → string → bool).
Context (RegExp : string → option (string → bool)).

(** [KEYS pattern] *)
Definition redis_keys (now : Z) (pattern : string) (store : gmap string Entry)
    : list string :=
  filter (λ k, redis_glob pattern k ∧ is_Some (redis_get now k store))
    (map_to_list store).*1.

(** The Redis part of [clearCache]: [ok_keys] and [ok_del] tell whether
    [client.keys] and [client.del] return. A failure is logged, no more. *)
Definition clearCache_redis (now : Z) (ok_keys ok_del : bool) (pattern : string)
    (st : State) : State * nat :=
  if isRedisConnected st && client st && negb (bool_decide (pattern = "")) then
    if ok_keys then
      let keys := redis_keys now pattern (redis st) in
      if bool_decide (0 < length keys) then
        if ok_del then
          let '(r, n) := redis_del now keys (redis st) in (with_redis st r, n)
        else (st, 0)
      else (st, 0)
    else (st, 0)
  else (st, 0).

(** [clearCache]: [pattern] is [None] when the argument is left out. *)
Definition clearCache (now : Z) (ok_keys ok_del : bool) (pattern : option string)
    (st : State) : State * outcome nat :=
  let pattern := default "" pattern in
  let '(st1, cleared) := clearCache_redis now ok_keys ok_del pattern st in
  if negb (bool_decide (pattern = "")) then
    match RegExp (replace_stars pattern) with
    | None => (st1, Thrown "SyntaxError: Invalid regular expression")
    | Some test =>
        let m := memoryCache st1 in
        (with_memory st1
           (with_cache m (filter (λ kv, ¬ test kv.1) (cache m))),
         Returned (cleared + length (filter (λ kv, test kv.1) (cache m))))
    end
  else
    (with_memory st1 (mc_clear (memoryCache st1)),
     Returned (cleared + size (memoryCache st1))).
End Clear.

End Cache.

(** ** cache.js: [setCache] on every value

    [Cache.setCache] is [setCache] on what the server stores, which are
    strings.  The function itself takes any value.  What it does depends on
    the value in three places: the guard refuses [undefined], the Redis
    client stores a text, and the debug log of either tier reads
    [value.length], which throws a [TypeError] on [null]. *)

Module AnyValue.
Import Cache.

Record AnyItem : Type := mkAnyItem {
  any_value : jsval;
  any_expires : option Z
}.

Record AnyMemory : Type := mkAnyMemory {
  any_cache : list (string * AnyItem);
  any_maxSize : Z
}.

(** [MemoryCache.set] *)
Definition mc_set (now : Z) (key : string) (value : jsval) (ttlSec : Z)
    (this : AnyMemory) : AnyMemory :=
  let c :=
    if bool_decide (any_maxSize this ≤ Z.of_nat (length (any_cache this)))%Z
    then match map_keys (any_cache this) with
         | firstKey :: _ => map_delete firstKey (any_cache this)
         | [] => any_cache this
         end
    else any_cache this in
  let expires := if truthy ttlSec then Some (now + ttlSec * 1000)%Z else None in
  mkAnyMemory (map_set key (mkAnyItem value expires) c) (any_maxSize this).

Record AnyState : Type := mkAnyState {
  any_client : bool;
  any_connected : bool;
  any_redis : gmap string Entry;
  any_memory : AnyMemory
}.

Definition any_disconnected (st : AnyState) : AnyState :=
  mkAnyState (any_client st) false (any_redis st) (any_memory st).

Definition any_with_memory (st : AnyState) (m : AnyMemory) : AnyState :=
  mkAnyState (any_client st) (any_connected st) (any_redis st) m.

Definition any_with_redis (st : AnyState) (r : gmap string Entry) : AnyState :=
  mkAnyState (any_client st) (any_connected st) r (any_memory st).

(** [value.length] can be read: the read throws on [null] and [undefined]
    and gives a number or [undefined] on every other value. *)
Definition has_length (value : jsval) : bool :=
  match value with
  | JNull | JUndefined => false
  | _ => true
  end.

Definition no_length : string :=
  "TypeError: Cannot read properties of null (reading 'length')".

Section Client.
(** The text that [client.set] stores for a value that is not a string,
    when the call returns. *)
Context (redis_text : jsval → string).

Definition stored_text (value : jsval) : string :=
  match value with
  | JStr s => s
  | _ => redis_text value
  end.

(** The tail of [setCache]: the memory tier is written, then the debug log
    reads [value.length], outside of any [try]. *)
Definition setCache_memory (now : Z) (key : string) (value : jsval) (ttlSec : Z)
    (st : AnyState) : AnyState * outcome bool :=
  let st' := any_with_memory st (mc_set now key value ttlSec (any_memory st)) in
  if has_length value then (st', Returned true) else (st', Thrown no_length).

(** [setCache]: [ok] tells whether [client.set] returns.  In the [try]
    block the debug log comes before the write to the memory tier, and a
    [TypeError] of its [value.length] is caught like a failure of Redis. *)
Definition setCache (now : Z) (ok : bool) (key : string) (value : jsval)
    (ttlSec : Z) (st : AnyState) : AnyState * outcome bool :=
  match value with
  | JUndefined => (st, Returned false)
  | _ =>
      if bool_decide (key = "") then (st, Returned false)
      else if any_connected st && any_client st then
        if ok then
          let st1 :=
            any_with_redis st
              (redis_set now key (stored_text value) ttlSec (any_redis st)) in
          if has_length value
          then (any_with_memory st1 (mc_set now key value ttlSec (any_memory st1)),
                Returned true)
          else setCache_memory now key value ttlSec (any_disconnected st1)
        else setCache_memory now key value ttlSec (any_disconnected st)
      else setCache_memory now key value ttlSec st
  end.
End Client.

(** The states of [Cache] among these: every stored value is a string. *)
Definition of_item (item : Item) : AnyItem :=
  mkAnyItem (JStr (value item)) (expires item).

Definition of_memory (m : MemoryCache) : AnyMemory :=
  mkAnyMemory (prod_map id of_item <$> cache m) (maxSize m).

Definition of_state (st : State) : AnyState :=
  mkAnyState (client st) (isRedisConnected st) (redis st) (of_memory (memoryCache st)).

(** The argument of [Cache.setCache] as a value. *)
Definition of_value (value : option string) : jsval :=
  match value with
  | Some s => JStr s
  | None => JUndefined
  end.

End AnyValue.


(** ** cache.js: statistics and the health check *)

Module CacheHealth.
Import Cache.

Record Stats : Type := mkStats {
  stats_total : nat;
  stats_active : nat;
  stats_expired : nat;
  stats_maxSize : Z
}.

(** [MemoryCache.getStats]: the loop counts the entries one by one. *)
Definition mc_getStats (now : Z) (this : MemoryCache) : Stats :=
  let '(expired, active) :=
    foldl (λ '(expired, active) kv,
             if expired_at now kv.2 then (S expired, active) else (expired, S active))
          (0, 0) (cache this) in
  mkStats (size this) active expired (maxSize this).

(** The report of [checkCacheHealth]: [status] and [test.success] are
    [h_healthy] and [h_success], [redis.connected] and [redis.url] are
    [h_connected] and [h_configured], [memory] is [h_size] and [h_maxSize],
    [test.value] is [h_value], [timestamp] the instant it was taken. *)
Record Health : Type := mkHealth {
  h_healthy : bool;
  h_connected : bool;
  h_configured : bool;
  h_size : nat;
  h_maxSize : Z;
  h_success : bool;
  h_value : option string;
  h_timestamp : Z
}.

(** [checkCacheHealth]: [REDIS_URL] is the environment variable; the clock
    is read for the test key ([t_key]), in each of the three cache calls and
    for the time stamp of the report; the three [ok] tell whether the Redis
    calls return.  None of the three cache calls throws, so the [catch]
    branch is not taken. *)
Definition checkCacheHealth (REDIS_URL : option string)
    (t_key t_set t_get t_del t_report : Z) (ok_set ok_get ok_del : bool) (st : State)
    : State * Health :=
  let testKey := "health_check_" +:+ pretty t_key in
  let testValue := "test_value" in
  let '(st1, _) := setCache t_set ok_set testKey (Some testValue) 60 st in
  let '(st2, retrieved) := getCache t_get ok_get testKey st1 in
  let '(st3, _) := deleteCache t_del ok_del testKey st2 in
  let isHealthy := bool_decide (retrieved = Some testValue) in
  (st3,
   mkHealth isHealthy (isRedisConnected st3)
     (match REDIS_URL with Some url => negb (bool_decide (url = "")) | None => false end)
     (size (memoryCache st3)) MAX_MEMORY_CACHE_SIZE isHealthy retrieved t_report).

End CacheHealth.

(** ** newsapi.js: the article provider *)

Module NewsApi.

Definition ARTICLE_MAX_AGE_DAYS : Z := 7.

(** An article as NewsAPI sends it: a field that is absent or [null] is
    [None]. *)
Record RawArticle : Type := mkRawArticle {
  ra_title : option string;
  ra_description : option string;
  ra_url : option string;
  ra_urlToImage : option string;
  ra_publishedAt : option string;
  ra_source_id : option string;
  ra_source_name : option string
}.

(** An article as [validateAndFilterArticles] hands it on. *)
Record Article : Type := mkArticle {
  a_title : string;
  a_description : string;
  a_url : string;
  a_urlToImage : option string;
  a_publishedAt : option string;
  a_source_id : string;
  a_source_name : string
}.

(** What [newsApiClient.get] comes to, retries included: it throws an error
    with [error.response?.status], [error.code], [error.message] and
    [error.response?.data?.message], or gives [response.data] with its
    [status], [message] and [articles]. *)
Inductive HttpResult : Type :=
  | Rejected (status : option nat) (code message : string) (dataMessage : option string)
  | Replied (status : string) (message : option string)
      (articles : option (list RawArticle)).

(** A value that is a non-empty string. *)
Definition truthy_string (v : option string) : option string :=
  match v with
  | Some s => if bool_decide (s = "") then None else Some s
  | None => None
  end.

Definition trimmed (s : string) : string :=
  string_of_list_ascii (Feed.trim (list_ascii_of_string s)).

(** [handleNewsApiError]: it logs, then throws in every branch. *)
Definition handleNewsApiError (status : option nat) (code message : string)
    (dataMessage : option string) : string :=
  match status with
  | Some 400 =>
      "Invalid NewsAPI request: " +:+
      default "Bad request parameters" (truthy_string dataMessage)
  | Some 401 => "Invalid NewsAPI key - please check your API configuration"
  | Some 429 =>
      "NewsAPI rate limit exceeded - please upgrade your plan or try again later"
  | Some 500 | Some 502 | Some 503 =>
      "NewsAPI service temporarily unavailable - please try again later"
  | _ =>
      if bool_decide (code = "ENOTFOUND") || bool_decide (code = "ECONNREFUSED")
      then "Cannot connect to NewsAPI - please check your internet connection"
      else if bool_decide (code = "ETIMEDOUT")
      then "NewsAPI request timeout - please try again"
      else "NewsAPI error: " +:+ message
  end.

Section Provider.
(** The platform's part: the protocol of [new URL(url)], [None] when it
    throws, and the time of [new Date(s)], [None] when it is invalid. *)
Context (url_protocol : string → option string).
Context (date_time : string → option Z).

(** [isValidUrl] *)
Definition isValidUrl (url : option string) : bool :=
  match truthy_string url with
  | Some u =>
      match url_protocol u with
      | Some protocol =>
          bool_decide (protocol = "http:") || bool_decide (protocol = "https:")
      | None => false
      end
  | None => false
  end.

(** The date check of an article: [true] when it is to be skipped. *)
Definition stale (cutoffDate : Z) (publishedAt : option string) : bool :=
  match truthy_string publishedAt with
  | Some p =>
      match date_time p with
      | Some publishedDate => (publishedDate <? cutoffDate)%Z
      | None => true
      end
  | None => false
  end.

(** One turn of the loop of [validateAndFilterArticles]. *)
Definition validate_article (cutoffDate : Z) (article : RawArticle) : option Article :=
  match truthy_string (ra_title article), truthy_string (ra_url article) with
  | Some title, Some url =>
      if negb (isValidUrl (Some url)) then None
      else if stale cutoffDate (ra_publishedAt article) then None
      else
        match truthy_string (ra_source_id article) with
        | None => None
        | Some id =>
            if bool_decide (title = "[Removed]")
               || bool_decide (ra_description article = Some "[Removed]")
            then None
            else
              Some {| a_title := trimmed title;
                      a_description :=
                        default "" (truthy_string (trimmed <$> ra_description article));
                      a_url := url;
                      a_urlToImage :=
                        if isValidUrl (ra_urlToImage article)
                        then ra_urlToImage article else None;
                      a_publishedAt := ra_publishedAt article;
                      a_source_id := id;
                      a_source_name :=
                        default id (truthy_string (ra_source_name article)) |}
        end
  | _, _ => None
  end.

Definition validateAndFilterArticles (now : Z) (articles : list RawArticle)
    (maxAge : Z) : list Article :=
  let cutoffDate := (now - maxAge * 24 * 60 * 60 * 1000)%Z in
  omap (validate_article cutoffDate) articles.

(** [getArticlesBySources(sourceIds)]: [NEWSAPI_KEY] is the environment
    variable, [http] what the request to NewsAPI comes to. *)
Definition getArticlesBySources (NEWSAPI_KEY : option string) (now : Z)
    (http : HttpResult) (sourceIds : list string) : outcome (list Article) :=
  match truthy_string NEWSAPI_KEY with
  | None => Thrown "NEWSAPI_KEY environment variable is not configured"
  | Some _ =>
      if bool_decide (length sourceIds = 0) then Returned []
      else
        match http with
        | Rejected status code message dataMessage =>
            Thrown (handleNewsApiError status code message dataMessage)
        | Replied status message articles =>
            if negb (bool_decide (status = "ok")) then
              Thrown (handleNewsApiError None ""
                        ("NewsAPI returned status: " +:+ status +:+ " - " +:+
                         default "Unknown error" (truthy_string message))
                        None)
            else
              match articles with
              | None => Returned []
              | Some articles =>
                  Returned (validateAndFilterArticles now articles ARTICLE_MAX_AGE_DAYS)
              end
        end
  end.
End Provider.

End NewsApi.

(** ** index.js: the [/feed] handler *)

Module Server.
Import Feed Cache NewsApi.

Record FeedCard : Type := mkCard {
  articleId : string;
  title : string;
  sourceId : string;
  sourceName : string;
  imageUrl : option string;
  url : string;
  publishedAt : option string;
  side : Side;
  description : string;
  isFallback : bool
}.

Definition card (art : Article) (src : SelectedSource) (isFallback : bool) : FeedCard :=
  mkCard (a_url art) (a_title art) (sel_id src) (sel_name src) (a_urlToImage art)
    (a_url art) (a_publishedAt art) (sel_side src) (a_description art) isFallback.

(** [articles.find(p)] *)
Definition find (p : Article → bool) (articles : list Article) : option Article :=
  head (filter (λ a, p a) articles).

Definition unused (usedArticles : list string) (a : Article) : bool :=
  negb (bool_decide (a_url a ∈ usedArticles)).

(** [a.source && a.source.id === src.id]: every article of the provider
    has a source. *)
Definition from_source (src : SelectedSource) (a : Article) : bool :=
  bool_decide (a_source_id a = sel_id src).

(** The loop that builds the cards, one source at a time. *)
Fixpoint build_cards (sources : list SelectedSource) (articles : list Article)
    (cards : list FeedCard) (usedArticles : list string) : list FeedCard :=
  match sources with
  | [] => cards
  | src :: rest =>
      match find (λ a, from_source src a && unused usedArticles a) articles with
      | Some art =>
          build_cards rest articles (cards ++ [card art src false])
            (a_url art :: usedArticles)
      | None =>
          match find (unused usedArticles) articles with
          | Some fallbackArticle =>
              build_cards rest articles (cards ++ [card fallbackArticle src true])
                (a_url fallbackArticle :: usedArticles)
          | None => build_cards rest articles cards usedArticles
          end
      end
  end.

(** The value of a validated query. *)
Record FeedQuery : Type := mkQuery {
  q_x : Q;
  q_y : Q;
  q_refresh : bool
}.

Definition CACHE_TTL_FEED : Z := 1800.

(** What a request meets outside the handler: the catalog file, the clock,
    whether the Redis calls of [getCache] and [setCache] return, the
    NewsAPI key and what the request to NewsAPI comes to. *)
Record Env : Type := mkEnv {
  file : option (list RawSource);
  now : Z;
  ok_get : bool;
  ok_set : bool;
  NEWSAPI_KEY : option string;
  http : HttpResult
}.

(** The state the handler works on: the cache module and the catalog. *)
Record World : Type := mkWorld {
  w_cache : Cache.State;
  w_sources : list Source
}.

Section Handler.
(** What the handler takes from the platform: number formatting, JSON (a
    [SyntaxError] of [JSON.parse] is [None]), URLs and dates. *)
Context {json : Type}.
Context (toFixed3 : Q → string).
Context (JSON_stringify : list FeedCard → string).
Context (JSON_parse : string → option json).
Context (url_protocol : string → option string).
Context (date_time : string → option Z).

Inductive Body : Type :=
  | InvalidRequest
  | CachedData (cachedData : json)
  | Cards (cards : list FeedCard)
  | FailedToFetch.

Record Response : Type := mkResponse {
  status : nat;
  body : Body
}.

Definition cacheKey (q : FeedQuery) : string :=
  "feed:" +:+ toFixed3 (q_x q) +:+ ":" +:+ toFixed3 (q_y q).

(** The cache check: skipped on [refresh]; an empty string is falsy. *)
Definition cache_check (env : Env) (q : FeedQuery) (st : Cache.State)
    : Cache.State * option string :=
  if q_refresh q then (st, None)
  else
    let '(st1, cached) := getCache (now env) (ok_get env) (cacheKey q) st in
    (st1, truthy_string cached).

(** The handler from the article request on: [sources] is not empty. *)
Definition assemble (env : Env) (q : FeedQuery) (sources : list SelectedSource)
    (st : Cache.State) : Response * Cache.State :=
  match getArticlesBySources url_protocol date_time (NEWSAPI_KEY env) (now env)
          (http env) (sel_id <$> sources) with
  | Thrown _ => (mkResponse 500 FailedToFetch, st)
  | Returned articles =>
      let cards := build_cards sources articles [] [] in
      let st' :=
        if bool_decide (0 < length cards)
        then (setCache (now env) (ok_set env) (cacheKey q)
                (Some (JSON_stringify cards)) CACHE_TTL_FEED st).1
        else st in
      (mkResponse 200 (Cards cards), st')
  end.

(** [app.get('/feed', ...)]: [validated] is the value of
    [validateFeedQuery], [None] on a validation error. *)
Definition feed (env : Env) (validated : option FeedQuery) (w : World)
    : Response * World :=
  match validated with
  | None => (mkResponse 400 InvalidRequest, w)
  | Some q =>
      match cache_check env q (w_cache w) with
      | (st1, Some cached) =>
          match JSON_parse cached with
          | Some cachedData => (mkResponse 200 (CachedData cachedData),
                                mkWorld st1 (w_sources w))
          | None => (mkResponse 500 FailedToFetch, mkWorld st1 (w_sources w))
          end
      | (st1, None) =>
          match pickSources (file env) (w_sources w) (JNum (Fin (q_x q)))
                  (JNum (Fin (q_y q))) (Some defaultOptions) with
          | (Thrown _, sources') =>
              (mkResponse 500 FailedToFetch, mkWorld st1 sources')
          | (Returned sources, sources') =>
              if bool_decide (length sources = 0)
              then (mkResponse 200 (Cards []), mkWorld st1 sources')
              else
                let '(response, st2) := assemble env q sources st1 in
                (response, mkWorld st2 sources')
          end
      end
  end.
End Handler.

End Server.

(** ** index.js: the [/article] handler *)

Module ArticleServer.
Import Cache NewsApi.

(** The value of a validated query. *)
Record ArticleQuery : Type := mkArticleQuery {
  aq_url : string;
  aq_refresh : bool
}.

Definition CACHE_TTL_ARTICLE : Z := 86400.

Section Handler.
(** What the handler takes from outside: the types of a parsed article and
    of parsed JSON, [encodeURIComponent] (it does not throw on a validated
    address), [JSON.stringify] on an article and [JSON.parse] (a
    [SyntaxError] is [None]). *)
Context {Parsed json : Type}.
Context (encodeURIComponent : string → string).
Context (JSON_stringify : Parsed → string).
Context (JSON_parse : string → option json).

(** What a request meets: the clock, whether the Redis calls of [getCache]
    and [setCache] return, and what [parseArticle] comes to for the
    address. *)
Record ArticleEnv : Type := mkArticleEnv {
  ae_now : Z;
  ae_ok_get : bool;
  ae_ok_set : bool;
  ae_parseArticle : outcome Parsed
}.

Inductive ArticleBody : Type :=
  | InvalidArticleRequest
  | CachedArticle (cachedData : json)
  | FreshArticle (article : Parsed)
  | FailedToParse.

Record ArticleResponse : Type := mkArticleResponse {
  ar_status : nat;
  ar_body : ArticleBody
}.

Definition articleKey (q : ArticleQuery) : string :=
  "article:" +:+ encodeURIComponent (aq_url q).

(** The cache check: skipped on [refresh]; an empty string is falsy. *)
Definition article_check (env : ArticleEnv) (q : ArticleQuery) (st : State)
    : State * option string :=
  if aq_refresh q then (st, None)
  else
    let '(st1, cached) := getCache (ae_now env) (ae_ok_get env) (articleKey q) st in
    (st1, truthy_string cached).

(** [app.get('/article', ...)]: [validated] is the value of
    [validateArticleQuery], [None] on a validation error. *)
Definition article (env : ArticleEnv) (validated : option ArticleQuery) (st : State)
    : ArticleResponse * State :=
  match validated with
  | None => (mkArticleResponse 400 InvalidArticleRequest, st)
  | Some q =>
      match article_check env q st with
      | (st1, Some cached) =>
          match JSON_parse cached with
          | Some cachedData => (mkArticleResponse 200 (CachedArticle cachedData), st1)
          | None => (mkArticleResponse 500 FailedToParse, st1)
          end
      | (st1, None) =>
          match ae_parseArticle env with
          | Thrown _ => (mkArticleResponse 500 FailedToParse, st1)
          | Returned article =>
              let st2 :=
                (setCache (ae_now env) (ae_ok_set env) (articleKey q)
                   (Some (JSON_stringify article)) CACHE_TTL_ARTICLE st1).1 in
              (mkArticleResponse 200 (FreshArticle article), st2)
          end
      end
  end.
End Handler.

End ArticleServer.

(** * Vocabulary of the properties *)

(** ** The source picker *)

Module FeedSpec.
Import Feed.

(** The catalog invariants that [validateSources] checks on coordinates. *)
Definition in_range (s : Source) : Prop :=
  (-1 <= s_x s <= 1)%Q ∧ (-1 <= s_y s <= 1)%Q.

(** The sources a search may return when nothing is excluded. *)
Definition pool (categoryFilter : option string) (sources : list Source) : list Source :=
  filter (λ s, eligible [] categoryFilter s) sources.

Definition activeSources (sources : list Source) : list Source :=
  filter (λ s, s_active s) sources.

Definition c_id (c : Candidate) : string := s_id (c_source c).

Definition dist2 (ax ay : Q) (s : Source) : Q :=
  ((ax - s_x s) * (ax - s_x s) + (ay - s_y s) * (ay - s_y s))%Q.

(** The three searches of [pickSources] and what it makes of them. *)
Section Picked.
Context (sources : list Source) (nx ny : number) (o : Options).

Definition friendlyOf : list Candidate :=
  findClosestSources sources (JNum nx) (JNum ny) (friendlyCount o) [] (categoryFilter o).

Definition opposingOf : list Candidate :=
  findClosestSources sources (JNum (nneg nx)) (JNum (nneg ny)) (opposingCount o)
    (c_id <$> friendlyOf) (categoryFilter o).

Definition fallbackOf : list Candidate :=
  findClosestSources sources (JNum (Fin 0)) (JNum (Fin 0))
    (friendlyCount o + opposingCount o - length (friendlyOf ++ opposingOf))
    (c_id <$> friendlyOf ++ opposingOf) (categoryFilter o).

(** [allSources] before the diversity pass. *)
Definition assembled : list Tagged :=
  (tag friendly false <$> friendlyOf) ++ (tag opposing false <$> opposingOf) ++
  (if bool_decide (length (friendlyOf ++ opposingOf) < friendlyCount o + opposingCount o)
      && bool_decide (fallbackStrategy o = "fill_remaining")
   then tag neutral true <$> fallbackOf else []).

Definition diversified : list Tagged :=
  if ensureDiversity o && bool_decide (1 < length assembled)
  then ensureSourceDiversity assembled else assembled.
End Picked.

(** A catalog file in which a record appears twice: both records pass
    [validateSources], which only logs the duplicate id. *)
Definition duplicated_file : list RawSource :=
  [ mkRaw (Some "bbc-news") (Some "BBC News") (Some 0%Q) (Some 0%Q) None false;
    mkRaw (Some "cnn") (Some "CNN") (Some 0.1%Q) (Some 0%Q) None false;
    mkRaw (Some "cnn") (Some "CNN") (Some 0.2%Q) (Some 0%Q) None false;
    mkRaw (Some "reuters") (Some "Reuters") (Some 0.3%Q) (Some 0%Q) None false ].

(** A catalog file with one record listed four times. *)
Definition repeated_file : list RawSource :=
  replicate 4 (mkRaw (Some "cnn") (Some "CNN") (Some 0.5%Q) (Some 0.5%Q) None false).

Definition ids_picked (r : outcome (list SelectedSource) * list Source) : list string :=
  match r.1 with Returned finalSources => sel_id <$> finalSources | Thrown _ => [] end.

Definition fallbacks (finalSources : list SelectedSource) : list SelectedSource :=
  filter (λ s, sel_isFallback s) finalSources.


(** *** Searches *)

(** A value that is a finite number. *)
Definition is_finite (v : jsval) : bool :=
  match v with JNum (Fin _) => true | _ => false end.

(** The candidate that a search from [(ax, ay)] makes of a source. *)
Definition mkFound (ax ay : Q) (s : Source) : Candidate :=
  mkCandidate s (calculateDistance (Fin ax) (Fin ay) s).

(** *** Searches on the platform's numbers *)

(** In the order of the comparator [a] comes no later than [b]: [b] is not
    before it. *)
Definition no_later {D : Type} (before : D → D → bool) (a b : D) : Prop :=
  before b a = false.

(** Neither is before the other. *)
Definition tied {D : Type} (before : D → D → bool) (a b : D) : bool :=
  negb (before a b) && negb (before b a).

(** The exact arithmetic of [Feed] as the platform's. *)
Definition exact_within (d : root) : bool := root_leb d MAX_SEARCH_RADIUS.

Definition to_candidate (m : Platform.Measured root) : Candidate :=
  mkCandidate (Platform.m_source m) (Platform.m_distance m).

Definition exact :=
  Platform.findClosestSources calculateDistance exact_within root_ltb.

(** The search on doubles. *)
Definition on_doubles :=
  Platform.findClosestSources Doubles.calculateDistance Doubles.within_radius
    Doubles.closer.

Definition bbc_news : Source := mkSource "bbc-news" "BBC News" (-0.2) 0.1 "general" true.
Definition reuters : Source := mkSource "reuters" "Reuters" 0.1 0.4 "general" true.

(** *** Catalogs *)

(** What [validateSources] requires of a source and what it fills in. *)
Definition valid_source (s : Source) : Prop :=
  s_id s ≠ "" ∧ s_name s ≠ "" ∧ s_category s ≠ "" ∧ s_active s = true ∧ in_range s.

(** The record of the catalog file that spells a source out. *)
Definition raw_of (s : Source) : RawSource :=
  mkRaw (Some (s_id s)) (Some (s_name s)) (Some (s_x s)) (Some (s_y s))
    (Some (s_category s)) (negb (s_active s)).

(** The catalog a call of [pickSources] works on: it is loaded when the
    module variable is still empty. *)
Definition catalog (file : option (list RawSource)) (sources : list Source)
    : list Source :=
  if bool_decide (length sources = 0) then loadSources file else sources.

(** *** Selections *)

Definition with_diversity (b : bool) (o : Options) : Options :=
  mkOptions (friendlyCount o) (opposingCount o) (categoryFilter o) b (fallbackStrategy o).

(** The entry of a selection carries the fields of the source. *)
Definition copied (s : Source) (e : SelectedSource) : Prop :=
  sel_id e = s_id s ∧ sel_name e = s_name s ∧ sel_x e = s_x s ∧ sel_y e = s_y s
  ∧ sel_category e = s_category s.

(** Four found sources of which the first and the third belong to one
    organization. *)
Definition same_owner : list Tagged :=
  tag friendly false <$>
    (mkFound 0 0 <$>
       [ mkSource "bbc-news" "BBC News" 0 0 "general" true;
         mkSource "cnn" "CNN" 0.1 0 "general" true;
         mkSource "bbc-media" "BBC Media" 0.2 0 "general" true;
         mkSource "reuters" "Reuters" 0.3 0 "general" true ]).

(** One friendly and two opposing sources, fill-in allowed. *)
Definition one_and_two : Options := mkOptions 1 2 None true "fill_remaining".

End FeedSpec.

(** ** The cache *)

Module CacheSpec.
Import Cache.

Definition keys (c : MemoryCache) : list string := map_keys (cache c).

(** The order of the cache is the iteration order of its [Map].  The first
    entry, [lru], is the one that the next eviction removes; a hit of [get]
    moves an entry to the last place, [mru], and so does a [set] of a key
    that is not there; a [set] of a key that is there leaves it in place. *)
Definition lru (c : MemoryCache) : option string := head (keys c).
Definition mru (c : MemoryCache) : option string := last (keys c).

Definition wf (c : MemoryCache) : Prop := NoDup (keys c).

Definition bounded (c : MemoryCache) : Prop := (Z.of_nat (size c) ≤ maxSize c)%Z.

(** The operations of the class, and runs of them. *)
Inductive op : Type :=
  | Get (now : Z) (key : string)
  | Put (now : Z) (key value : string) (ttlSec : Z)
  | Delete (key : string)
  | Clear
  | Cleanup (now : Z).

Definition step (c : MemoryCache) (o : op) : MemoryCache :=
  match o with
  | Get now key => (mc_get now key c).1
  | Put now key value ttlSec => mc_set now key value ttlSec c
  | Delete key => (mc_delete key c).1
  | Clear => mc_clear c
  | Cleanup now => (mc_cleanup now c).1
  end.

Definition run (ops : list op) (c : MemoryCache) : MemoryCache := foldl step c ops.

Definition puts (ws : list (Z * string * string * Z)) : list op :=
  (λ '(now, key, value, ttlSec), Put now key value ttlSec) <$> ws.

Definition put_keys (ws : list (Z * string * string * Z)) : list string :=
  (λ '(_, key, _, _), key) <$> ws.

(** The state before anything is stored, Redis not configured. *)
Definition memory_only : State :=
  mkState false false ∅ (newMemoryCache MAX_MEMORY_CACHE_SIZE).

(** Matchers for the pattern [feed:*] alone, as the platform would give. *)
Definition feed_glob (pattern key : string) : bool := String.prefix "feed:" key.
Definition feed_RegExp (source : string) : option (string → bool) :=
  Some (String.prefix "feed:").

Definition both_tiers : State :=
  mkState true true {[ "feed:0.000:0.000" := mkEntry "[]" (Some 1800000%Z) ]}
    (with_cache (newMemoryCache 3)
       [("feed:0.000:0.000", mkItem "[]" (Some 1800000%Z));
        ("article:a", mkItem "{}" None)]).


(** The key that the health check writes, reads and deletes. *)
Definition testKey (t_key : Z) : string := "health_check_" +:+ pretty t_key.


(** The memory tier is full: the next [set] evicts. *)
Definition is_full (c : MemoryCache) : bool :=
  bool_decide (maxSize c ≤ Z.of_nat (size c))%Z.

(** A memory tier of two entries that is full. *)
Definition two_of_two : State :=
  mkState false false ∅
    (with_cache (newMemoryCache 2) [("a", mkItem "1" None); ("b", mkItem "2" None)]).

(** *** Uses of a key *)

(** An operation uses a key when it is a [set] of the key or a [get] of
    the key that hits. *)
Definition uses (c : MemoryCache) (o : op) (key : string) : bool :=
  match o with
  | Put _ k _ _ => bool_decide (k = key)
  | Get now k => bool_decide (k = key) && bool_decide (is_Some (mc_get now k c).2)
  | _ => false
  end.

(** An operation places a key, at the end of the [Map], when it is a
    [get] of the key that hits, or a [set] of the key while the [Map] does
    not hold it or holds it in the first place of a full cache, from where
    the eviction removes it before it is set. *)
Definition places (c : MemoryCache) (o : op) (key : string) : bool :=
  match o with
  | Put _ k _ _ =>
      bool_decide (k = key)
      && (negb (bool_decide (key ∈ keys c))
          || is_full c && bool_decide (lru c = Some key))
  | Get now k => bool_decide (k = key) && bool_decide (is_Some (mc_get now k c).2)
  | _ => false
  end.

(** The place in a run, counted from [i], of the last operation that does
    something, [does], to the key. *)
Fixpoint last_from (does : MemoryCache → op → string → bool) (i : nat)
    (ops : list op) (c : MemoryCache) (key : string) : option nat :=
  match ops with
  | [] => None
  | o :: ops' =>
      match last_from does (S i) ops' (step c o) key with
      | Some j => Some j
      | None => if does c o key then Some i else None
      end
  end.

Definition last_use (ops : list op) (c : MemoryCache) (key : string) : option nat :=
  last_from uses 0 ops c key.

Definition last_placed (ops : list op) (c : MemoryCache) (key : string) : option nat :=
  last_from places 0 ops c key.

(** Both happened, the first before the second. *)
Definition earlier (a b : option nat) : Prop :=
  match a, b with
  | Some i, Some j => i < j
  | _, _ => False
  end.

(** Four writes to a cache of three entries, the third of which overwrites
    the first key. *)
Definition overwriting : list op :=
  [Put 0 "a" "1" 60; Put 1 "b" "2" 60; Put 2 "a" "3" 60; Put 3 "c" "4" 60].

End CacheSpec.

(** ** The [/feed] handler *)

Module ServerSpec.
Import Feed Cache NewsApi Server CacheSpec.

(** What a state holds that an earlier state did not: nothing. *)
Definition nothing_written (before after : Cache.State) : Prop :=
  redis after = redis before
  ∧ ∀ k item, map_get k (cache (memoryCache after)) = Some item →
              map_get k (cache (memoryCache before)) = Some item.

(** The ways the article provider fails: no key is configured, the request
    to NewsAPI throws, or NewsAPI answers with a status other than [ok]. *)
Definition provider_fails (env : Env) : Prop :=
  truthy_string (NEWSAPI_KEY env) = None
  ∨ match http env with
    | Rejected _ _ _ _ => True
    | Replied status _ _ => status ≠ "ok"
    end.

(** A provider that is down, and one that has an article of [cnn]. *)
Definition provider_down : HttpResult :=
  Rejected (Some 503) "" "Request failed with status code 503" None.

Definition provider_up : HttpResult :=
  Replied "ok" None
    (Some [mkRawArticle (Some "Title") (Some "Text") (Some "https://cnn.example/a")
             None None (Some "cnn") (Some "CNN")]).

Definition request (http : HttpResult) : Env :=
  mkEnv None 0 true true (Some "key") http.

(** URLs are taken to be [https] ones, dates to be at time 0. *)
Definition https_only (url : string) : option string := Some "https:".
Definition epoch (date : string) : option Z := Some 0%Z.

Definition start : World := mkWorld memory_only getDefaultSources.

Definition at_origin : FeedQuery := mkQuery 0 0 false.


(** The card shows an article of the provider's answer; it is marked as a
    fallback exactly when the article is not from the card's source. *)
Definition shows (articles : list Article) (c : FeedCard) : Prop :=
  ∃ a, a ∈ articles
       ∧ articleId c = a_url a ∧ url c = a_url a ∧ title c = a_title a
       ∧ description c = a_description a ∧ imageUrl c = a_urlToImage a
       ∧ publishedAt c = a_publishedAt a
       ∧ if isFallback c then a_source_id a ≠ sourceId c else a_source_id a = sourceId c.

(** The card stands for a source of the selection. *)
Definition stands_for (sources : list SelectedSource) (c : FeedCard) : Prop :=
  ∃ src, src ∈ sources ∧ sourceId c = sel_id src ∧ sourceName c = sel_name src
         ∧ side c = sel_side src.

(** The addresses of the articles that are not used yet. *)
Definition unused_urls (usedArticles : list string) (articles : list Article)
    : list string :=
  remove_dups (filter (λ u, u ∉ usedArticles) (a_url <$> articles)).

(** A first request at the origin while the provider is up, and the same
    request one second later. *)
Definition first_request : Env := request provider_up.

(** The platform as these two requests need it: every number is printed
    as [0.000], the cards as one fixed text, and parsing gives the text. *)
Definition answer (env : Env) (w : World) : Response * World :=
  feed (json:=string) (λ _, "0.000") (λ _, "[cards]") Some https_only epoch
    env (Some at_origin) w.

Definition first_answer : Response * World := answer first_request start.

Definition first_cards : list FeedCard :=
  match body first_answer.1 with Cards cards => cards | _ => [] end.

End ServerSpec.

(** ** The [/article] handler *)

Module ArticleSpec.
Import Cache ArticleServer CacheSpec.

(** A parsed article is its text here, and so is its JSON. *)
Definition read (env : @ArticleEnv string) (q : ArticleQuery) (st : State)
    : @ArticleResponse string string * State :=
  article id id Some env (Some q) st.

Definition story : ArticleQuery := mkArticleQuery "https://cnn.example/a" false.

Definition parsed_now : @ArticleEnv string := mkArticleEnv 0 true true (Returned "{text}").

End ArticleSpec.

(** * Properties *)

(** ** Sorting keeps the elements *)

Section SortFacts.
Context {A : Type} (lt : A → A → bool).

Lemma sort_insert_perm (a : A) (l : list A) : sort_insert lt a l ≡ₚ a :: l.
Proof.
  induction l as [|b l IH]; simpl; [done|].
  destruct (lt b a); [|done].
  rewrite IH. apply Permutation_swap.
Qed.

Lemma stable_sort_perm (l : list A) : stable_sort lt l ≡ₚ l.
Proof.
  induction l as [|a l IH]; simpl; [done|].
  by rewrite sort_insert_perm, IH.
Qed.

Lemma stable_sort_length (l : list A) : length (stable_sort lt l) = length l.
Proof. by rewrite stable_sort_perm. Qed.
End SortFacts.

(** ** Filters *)

Section FilterFacts.
Context {A : Type} (P : A → Prop) `{!∀ x, Decision (P x)}.

Lemma filter_all (l : list A) : Forall P l → filter P l = l.
Proof.
  induction 1 as [|a l Ha _ IH]; [done|].
  by rewrite filter_cons_True, IH.
Qed.

Lemma filter_none (l : list A) : Forall (λ a, ¬ P a) l → filter P l = [].
Proof.
  induction 1 as [|a l Ha _ IH]; [done|].
  by rewrite filter_cons_False.
Qed.
End FilterFacts.

Lemma NoDup_of_submseteq {A : Type} (l k : list A) : l ⊆+ k → NoDup k → NoDup l.
Proof.
  intros (l' & Hperm & Hsub)%submseteq_sublist_r Hk.
  rewrite Hperm. by apply (sublist_NoDup _ k).
Qed.

(** ** The source picker *)

Module FeedFacts.
Import Feed FeedSpec.

Lemma pool_no_filter sources : pool None sources = activeSources sources.
Proof. done. Qed.

Lemma eligible_split excl cat s :
  eligible excl cat s = negb (includes excl (s_id s)) && eligible [] cat s.
Proof.
  unfold eligible, includes.
  rewrite (bool_decide_eq_false_2 (s_id s ∈ [])) by apply not_elem_of_nil.
  by destruct (bool_decide (s_id s ∈ excl)).
Qed.

Lemma filter_eligible excl cat sources :
  filter (λ s, eligible excl cat s) sources
  = filter (λ s, s_id s ∉ excl) (pool cat sources).
Proof.
  unfold pool. rewrite list_filter_filter. apply list_filter_iff.
  intros s. rewrite eligible_split. unfold includes.
  rewrite andb_True, negb_True, bool_decide_spec. done.
Qed.

Lemma findClosestSources_eq sources nx ny n excl cat :
  findClosestSources sources (JNum nx) (JNum ny) n excl cat
  = take n (stable_sort closer
      (filter (λ c, within_radius c)
         ((λ s, mkCandidate s (calculateDistance nx ny s)) <$>
            filter (λ s, s_id s ∉ excl) (pool cat sources)))).
Proof.
  unfold findClosestSources, findClosestSources_try.
  by rewrite filter_eligible.
Qed.

Lemma found_length_le sources nx ny n excl cat :
  length (findClosestSources sources (JNum nx) (JNum ny) n excl cat) ≤ n.
Proof. rewrite findClosestSources_eq, length_take. lia. Qed.

(** What a search returns is, up to order, part of the eligible sources. *)
Lemma found_sources sources nx ny n excl cat :
  c_source <$> findClosestSources sources (JNum nx) (JNum ny) n excl cat
  ⊆+ filter (λ s, s_id s ∉ excl) (pool cat sources).
Proof.
  rewrite findClosestSources_eq.
  set (l := filter _ (pool cat sources)).
  set (mk := λ s, mkCandidate s (calculateDistance nx ny s)).
  trans (c_source <$> (mk <$> l)).
  - apply fmap_submseteq.
    trans (stable_sort closer (filter (λ c, within_radius c) (mk <$> l))).
    + apply sublist_submseteq, sublist_take.
    + rewrite stable_sort_perm. apply sublist_submseteq, sublist_filter.
  - rewrite <-list_fmap_compose. by rewrite list_fmap_id.
Qed.

Lemma found_ids sources nx ny n excl cat :
  c_id <$> findClosestSources sources (JNum nx) (JNum ny) n excl cat
  ⊆+ s_id <$> filter (λ s, s_id s ∉ excl) (pool cat sources).
Proof.
  unfold c_id. rewrite (list_fmap_compose c_source s_id).
  apply fmap_submseteq, found_sources.
Qed.

Lemma found_ids_pool sources nx ny n excl cat :
  c_id <$> findClosestSources sources (JNum nx) (JNum ny) n excl cat
  ⊆+ s_id <$> pool cat sources.
Proof.
  etrans; [apply found_ids|].
  apply fmap_submseteq, sublist_submseteq, sublist_filter.
Qed.

Lemma found_ids_fresh sources nx ny n excl cat i :
  i ∈ c_id <$> findClosestSources sources (JNum nx) (JNum ny) n excl cat →
  i ∉ excl.
Proof.
  intros Hi. eapply elem_of_submseteq in Hi; [|apply found_ids].
  apply list_elem_of_fmap in Hi as (s & -> & Hs).
  by apply list_elem_of_filter in Hs as [? _].
Qed.

(** *** Distances *)

Lemma Qle_bool_true p q : Qle_bool p q = true ↔ (p <= q)%Q.
Proof. apply Qle_bool_iff. Qed.

Lemma Qle_bool_false p q : Qle_bool p q = false ↔ (q < p)%Q.
Proof.
  split.
  - intros H. apply Qnot_le_lt. intros Hle. apply Qle_bool_iff in Hle. congruence.
  - intros H. apply not_true_is_false. intros Hle%Qle_bool_iff. lra.
Qed.

Lemma Qsq_nonneg (a : Q) : (0 <= a * a)%Q.
Proof. nra. Qed.

Lemma within_radius_finite ax ay s :
  within_radius (mkCandidate s (calculateDistance (Fin ax) (Fin ay) s)) = true
  ↔ (dist2 ax ay s <= 4)%Q.
Proof.
  unfold within_radius, calculateDistance, root_leb, MAX_SEARCH_RADIUS, dist2; simpl.
  rewrite !andb_true_iff, !Qle_bool_true. split.
  - intros [_ H]. lra.
  - intros H. repeat split; [|lra|lra].
    pose proof (Qsq_nonneg (ax + - s_x s)). pose proof (Qsq_nonneg (ay + - s_y s)).
    lra.
Qed.

(** Every source of a validated catalog is within the radius of the origin. *)
Lemma within_radius_origin s :
  in_range s →
  within_radius (mkCandidate s (calculateDistance (Fin 0) (Fin 0) s)) = true.
Proof.
  intros [[Hx1 Hx2] [Hy1 Hy2]]. apply within_radius_finite. unfold dist2. nra.
Qed.

(** A source of a validated catalog that is too far from a point of the
    square is within the radius of the mirrored point. *)
Lemma within_radius_mirror ax ay s :
  in_range s → (-1 <= ax <= 1)%Q → (-1 <= ay <= 1)%Q →
  within_radius (mkCandidate s (calculateDistance (Fin ax) (Fin ay) s)) = false →
  within_radius (mkCandidate s (calculateDistance (Fin (- ax)) (Fin (- ay)) s)) = true.
Proof.
  intros [[Hx1 Hx2] [Hy1 Hy2]] [Ha1 Ha2] [Hb1 Hb2] Hfar.
  apply within_radius_finite.
  assert (¬ (dist2 ax ay s <= 4)%Q) as Hn.
  { intros Hnear%within_radius_finite. congruence. }
  apply Qnot_le_lt in Hn. unfold dist2 in *. nra.
Qed.

(** *** Counting *)

Lemma filter_fresh_length (U : list string) (E : list Source) :
  NoDup (s_id <$> E) → NoDup U → U ⊆ s_id <$> E →
  length (filter (λ s, s_id s ∉ U) E) + length U = length E.
Proof.
  intros HE HU Hsub.
  assert (s_id <$> filter (λ s, s_id s ∈ U) E ≡ₚ U) as Hperm.
  { apply NoDup_Permutation; [|done|].
    - apply (sublist_NoDup _ (s_id <$> E)); [done|].
      apply fmap_sublist, sublist_filter.
    - intros i. rewrite list_elem_of_fmap. split.
      + intros (s & -> & Hs). by apply list_elem_of_filter in Hs as [? _].
      + intros Hi. pose proof (Hsub i Hi) as Hin.
        apply list_elem_of_fmap in Hin as (s & -> & Hs).
        exists s. split; [done|]. by apply list_elem_of_filter. }
  rewrite <-Hperm, length_fmap.
  rewrite <-(length_app (filter _ E)).
  rewrite (Permutation_app_comm (filter (λ s, s_id s ∉ U) E)).
  by rewrite (filter_app_complement (λ s, s_id s ∈ U) E).
Qed.

(** The fill-in search from the origin returns as many sources as are
    asked for, or all that are left. *)
Lemma found_origin_length sources n excl cat :
  Forall in_range (pool cat sources) →
  length (findClosestSources sources (JNum (Fin 0)) (JNum (Fin 0)) n excl cat)
  = n `min` length (filter (λ s, s_id s ∉ excl) (pool cat sources)).
Proof.
  intros Hrange. rewrite findClosestSources_eq, length_take, stable_sort_length.
  f_equal. rewrite <-(length_fmap (λ s, mkCandidate s (calculateDistance (Fin 0) (Fin 0) s))
                       (filter _ (pool cat sources))).
  f_equal. apply filter_all.
  apply Forall_fmap, Forall_forall. intros s Hs; simpl.
  apply Is_true_true, within_radius_origin.
  apply list_elem_of_filter in Hs as [_ Hs].
  by eapply Forall_forall in Hrange.
Qed.

(** *** The diversity pass *)

Lemma diversity_loop_sublist seen diverse rest :
  ∃ k, k `sublist_of` rest ∧ diversity_loop seen diverse rest = diverse ++ k.
Proof.
  revert seen diverse. induction rest as [|source rest IH]; intros seen diverse; simpl.
  - exists []. by rewrite app_nil_r.
  - destruct (negb _ || _).
    + destruct (IH (diversityKey source :: seen) (diverse ++ [source])) as (k & Hk & ->).
      exists (source :: k). split; [by constructor|]. by rewrite <-app_assoc.
    + destruct (IH seen diverse) as (k & Hk & ->).
      exists k. split; [by constructor|done].
Qed.

Lemma fill_loop_spec total diverse rest :
  ∃ k, fill_loop total diverse rest = diverse ++ k
       ∧ (∀ t, t ∈ k → t ∈ rest)
       ∧ (NoDup (t_id <$> diverse) → NoDup (t_id <$> diverse ++ k))
       ∧ (total ≤ length (diverse ++ k)
          ∨ ∀ s, s ∈ rest → t_id s ∈ t_id <$> diverse ++ k).
Proof.
  revert diverse. induction rest as [|source rest IH]; intros diverse; simpl.
  - exists []. rewrite app_nil_r. split_and!; [done|done|done|].
    right. intros s Hs. by apply elem_of_nil in Hs.
  - case_bool_decide as Hfull.
    { exists []. rewrite app_nil_r. split_and!; [done| |done|by left].
      intros t Ht. by apply elem_of_nil in Ht. }
    case_bool_decide as Hseen.
    + destruct (IH diverse) as (k & -> & Hin & Hnd & Hall).
      exists k. split_and!; [done| |done|].
      * intros t Ht. right. by apply Hin.
      * destruct Hall as [?|Hall]; [by left|right].
        intros s [->|Hs]%elem_of_cons; [|by apply Hall].
        rewrite fmap_app. apply elem_of_app. by left.
    + destruct (IH (diverse ++ [source])) as (k & -> & Hin & Hnd & Hall).
      exists (source :: k). rewrite <-!app_assoc in *. simpl in *.
      split_and!; [done| | |].
      * intros t [->|Ht]%elem_of_cons; [left|right; by apply Hin].
      * intros Hd. apply Hnd. rewrite fmap_app. simpl.
        apply NoDup_app. split_and!; [done| |apply NoDup_singleton].
        intros i Hi ->%list_elem_of_singleton. done.
      * destruct Hall as [?|Hall]; [by left|right].
        intros s [->|Hs]%elem_of_cons; [|by apply Hall].
        rewrite fmap_app. apply elem_of_app. right. simpl. left.
Qed.

Lemma ensureSourceDiversity_elem_of sources t :
  t ∈ ensureSourceDiversity sources → t ∈ sources.
Proof.
  unfold ensureSourceDiversity.
  destruct (diversity_loop_sublist [] [] sources) as (k1 & Hk1 & ->).
  destruct (fill_loop_spec (length sources) ([] ++ k1) sources) as (k2 & -> & Hin & _).
  simpl. intros [Ht|Ht]%elem_of_app; [|by apply Hin].
  by eapply elem_of_sublist.
Qed.

Lemma ensureSourceDiversity_NoDup sources :
  NoDup (t_id <$> sources) → NoDup (t_id <$> ensureSourceDiversity sources).
Proof.
  intros Hnd. unfold ensureSourceDiversity.
  destruct (diversity_loop_sublist [] [] sources) as (k1 & Hk1 & ->).
  destruct (fill_loop_spec (length sources) ([] ++ k1) sources) as (k2 & -> & _ & Hk2 & _).
  apply Hk2. simpl. apply (sublist_NoDup _ (t_id <$> sources)); [done|].
  by apply fmap_sublist.
Qed.

(** With distinct ids the pass reorders the selection, no more. *)
Lemma ensureSourceDiversity_length sources :
  NoDup (t_id <$> sources) →
  length (ensureSourceDiversity sources) = length sources.
Proof.
  intros Hnd. apply Nat.le_antisymm.
  - rewrite <-(length_fmap t_id), <-(length_fmap t_id sources).
    apply submseteq_length, NoDup_submseteq.
    + by apply ensureSourceDiversity_NoDup.
    + intros i (t & -> & Ht)%list_elem_of_fmap.
      apply list_elem_of_fmap. exists t. split; [done|].
      by apply ensureSourceDiversity_elem_of.
  - unfold ensureSourceDiversity.
    destruct (diversity_loop_sublist [] [] sources) as (k1 & Hk1 & ->).
    destruct (fill_loop_spec (length sources) ([] ++ k1) sources)
      as (k2 & -> & _ & _ & [Hfull|Hall]); [done|].
    rewrite <-(length_fmap t_id), <-(length_fmap t_id (_ ++ _)).
    apply submseteq_length, NoDup_submseteq; [done|].
    intros i (t & -> & Ht)%list_elem_of_fmap. by apply Hall.
Qed.

(** *** The three searches of [pickSources] *)

Section PickedFacts.
Context (sources : list Source) (nx ny : number) (o : Options).

Abbreviation cat := (categoryFilter o).
Abbreviation total := (friendlyCount o + opposingCount o).
Abbreviation F := (friendlyOf sources nx ny o).
Abbreviation O := (opposingOf sources nx ny o).
Abbreviation B := (fallbackOf sources nx ny o).
Abbreviation all := (assembled sources nx ny o).
Abbreviation diverse := (diversified sources nx ny o).

Lemma t_id_tag side fb (l : list Candidate) : t_id <$> (tag side fb <$> l) = c_id <$> l.
Proof. by rewrite <-list_fmap_compose. Qed.

Lemma pickSources_eq file :
  sources ≠ [] →
  pickSources file sources (JNum nx) (JNum ny) (Some o)
  = (Returned (finalSource <$> take total diverse), sources).
Proof.
  intros Hne. unfold pickSources, pickSources_try.
  assert (length sources ≠ 0) as Hlen by (destruct sources; [congruence|simpl; lia]).
  rewrite (bool_decide_eq_false_2 _ Hlen).
  unfold diversified, assembled, fallbackOf, opposingOf, friendlyOf.
  set (F0 := findClosestSources sources (JNum nx) (JNum ny) _ [] _).
  change ((λ c : Candidate, s_id (c_source c)) <$> F0) with (c_id <$> F0).
  set (O0 := findClosestSources sources (JNum (nneg nx)) _ _ _ _).
  assert (length ((tag friendly false <$> F0) ++ (tag opposing false <$> O0))
          = length (F0 ++ O0)) as -> by (by rewrite !length_app, !length_fmap).
  assert (t_id <$> (tag friendly false <$> F0) ++ (tag opposing false <$> O0)
          = c_id <$> F0 ++ O0) as -> by (by rewrite !fmap_app, !t_id_tag).
  set (B0 := findClosestSources sources (JNum (Fin 0)) _ _ _ _).
  set (short := bool_decide (length (F0 ++ O0) < _) && _).
  by assert ((if short
              then ((tag friendly false <$> F0) ++ (tag opposing false <$> O0)) ++
                   (tag neutral true <$> B0)
              else (tag friendly false <$> F0) ++ (tag opposing false <$> O0))
             = (tag friendly false <$> F0) ++ (tag opposing false <$> O0) ++
               (if short then tag neutral true <$> B0 else [])) as ->
    by (destruct short; by rewrite <-?app_assoc, ?app_nil_r).
Qed.

Hypothesis Hdistinct : NoDup (s_id <$> pool cat sources).

Lemma assembled_ids :
  t_id <$> all =
  (c_id <$> F ++ O) ++
  (if bool_decide (length (F ++ O) < total)
      && bool_decide (fallbackStrategy o = "fill_remaining")
   then c_id <$> B else []).
Proof.
  unfold assembled. rewrite !fmap_app, !t_id_tag, <-app_assoc.
  by destruct (_ && _); rewrite ?t_id_tag.
Qed.

Lemma found_NoDup ax ay n excl :
  NoDup (c_id <$> findClosestSources sources (JNum ax) (JNum ay) n excl cat).
Proof. eapply NoDup_of_submseteq; [apply found_ids_pool|done]. Qed.

Lemma used_NoDup : NoDup (c_id <$> F ++ O).
Proof.
  rewrite fmap_app. apply NoDup_app. split_and!; [apply found_NoDup| |apply found_NoDup].
  intros i Hi Hi'. by apply found_ids_fresh in Hi'.
Qed.

Lemma used_pool : c_id <$> F ++ O ⊆ s_id <$> pool cat sources.
Proof.
  intros i. rewrite fmap_app, elem_of_app.
  intros [Hi|Hi]; eapply elem_of_submseteq; eauto using found_ids_pool.
Qed.

Lemma assembled_NoDup : NoDup (t_id <$> all).
Proof.
  rewrite assembled_ids. apply NoDup_app. split_and!; [apply used_NoDup| |].
  - destruct (_ && _); [|intros ? _ ?%elem_of_nil; done].
    intros i Hi Hi'. by apply found_ids_fresh in Hi'.
  - destruct (_ && _); [apply found_NoDup|apply NoDup_nil_2].
Qed.

Lemma diversified_NoDup : NoDup (t_id <$> diverse).
Proof.
  unfold diversified. destruct (_ && _); [|apply assembled_NoDup].
  apply ensureSourceDiversity_NoDup, assembled_NoDup.
Qed.

Lemma diversified_length : length diverse = length all.
Proof.
  unfold diversified. destruct (_ && _); [|done].
  apply ensureSourceDiversity_length, assembled_NoDup.
Qed.

Lemma diversified_elem_of t : t ∈ diverse → t ∈ all.
Proof.
  unfold diversified. destruct (_ && _); [|done].
  apply ensureSourceDiversity_elem_of.
Qed.

Lemma used_length_le : length (F ++ O) ≤ total.
Proof.
  rewrite length_app.
  pose proof (found_length_le sources nx ny (friendlyCount o) [] cat).
  pose proof (found_length_le sources (nneg nx) (nneg ny) (opposingCount o)
                (c_id <$> F) cat).
  unfold friendlyOf, opposingOf. lia.
Qed.

Lemma used_length_pool : length (F ++ O) ≤ length (pool cat sources).
Proof.
  rewrite <-(length_fmap c_id), <-(length_fmap s_id (pool cat sources)).
  apply submseteq_length, NoDup_submseteq; [apply used_NoDup|apply used_pool].
Qed.

Hypothesis Hrange : Forall in_range (pool cat sources).
Hypothesis Hfill : fallbackStrategy o = "fill_remaining".

(** Friendly, opposing and fill-in sources together: as many as were
    asked for, or the whole pool. *)
Lemma assembled_length : length all = total `min` length (pool cat sources).
Proof.
  rewrite <-(length_fmap t_id), assembled_ids, length_app.
  pose proof used_length_le. pose proof used_length_pool.
  rewrite (bool_decide_eq_true_2 (fallbackStrategy o = _)) by done.
  rewrite andb_true_r. case_bool_decide as Hshort; simpl.
  - unfold fallbackOf. rewrite !length_fmap, found_origin_length by done.
    pose proof (filter_fresh_length _ _ Hdistinct used_NoDup used_pool) as Hcount.
    rewrite length_fmap in Hcount. lia.
  - rewrite length_fmap. lia.
Qed.
End PickedFacts.

(** [pickSources] on a non-empty catalog whose eligible sources have
    distinct ids and validated coordinates: it returns as many entries as
    were asked for, or one per eligible source, all with distinct ids. *)
Lemma pickSources_fills file sources nx ny o :
  sources ≠ [] →
  fallbackStrategy o = "fill_remaining" →
  NoDup (s_id <$> pool (categoryFilter o) sources) →
  Forall in_range (pool (categoryFilter o) sources) →
  ∃ finalSources,
    pickSources file sources (JNum nx) (JNum ny) (Some o) = (Returned finalSources, sources)
    ∧ length finalSources
      = (friendlyCount o + opposingCount o) `min` length (pool (categoryFilter o) sources)
    ∧ NoDup (sel_id <$> finalSources).
Proof.
  intros Hne Hfill Hdistinct Hrange. eexists. split; [by apply pickSources_eq|].
  split.
  - rewrite length_fmap, length_take, diversified_length, assembled_length by done. lia.
  - rewrite <-list_fmap_compose.
    apply (sublist_NoDup _ (t_id <$> diversified sources nx ny o)).
    + by apply diversified_NoDup.
    + apply (fmap_sublist t_id), sublist_take.
Qed.

(** *** Catalogs that [loadSources] can leave in [sources] *)

Lemma validate_one_in_range r s : validate_one r = Some s → in_range s.
Proof.
  unfold validate_one, in_range.
  destruct (r_id r), (r_name r), (r_x r) as [px|], (r_y r) as [py|]; try done.
  destruct (_ || _); [done|].
  destruct (Qltb px (-1)) eqn:H1; [done|]. destruct (Qltb 1 px) eqn:H2; [done|].
  destruct (Qltb py (-1)) eqn:H3; [done|]. destruct (Qltb 1 py) eqn:H4; [done|].
  intros [= <-]; simpl. unfold Qltb in *.
  apply negb_false_iff, Qle_bool_true in H1, H2, H3, H4. done.
Qed.

Lemma getDefaultSources_in_range : Forall in_range getDefaultSources.
Proof. repeat constructor; simpl; lra. Qed.

(** Every catalog that [loadSources] installs holds at least
    [MIN_SOURCES_COUNT] sources, all active, with validated coordinates. *)
Lemma loadSources_invariant file :
  MIN_SOURCES_COUNT ≤ length (loadSources file)
  ∧ Forall (λ s, s_active s = true) (loadSources file)
  ∧ Forall in_range (loadSources file).
Proof.
  assert (MIN_SOURCES_COUNT ≤ length getDefaultSources
          ∧ Forall (λ s, s_active s = true) getDefaultSources
          ∧ Forall in_range getDefaultSources) as Hdefault.
  { split_and!; [unfold MIN_SOURCES_COUNT; simpl; lia|by repeat constructor|].
    apply getDefaultSources_in_range. }
  destruct file as [sourcesData|]; simpl; [|done].
  unfold validateSources. case_decide as Hfew; simpl; [done|].
  split_and!; [lia| |].
  - apply Forall_forall. intros s [Hs _]%list_elem_of_filter. by apply Is_true_true.
  - apply Forall_forall. intros s [_ Hs]%list_elem_of_filter.
    apply list_elem_of_omap in Hs as (r & _ & Hr). by eapply validate_one_in_range.
Qed.

(** On every catalog that [loadSources] installs, provided its ids are
    distinct, [pickSources x y] returns 4 entries with distinct ids. *)
Lemma pickSources_loaded catalog file nx ny :
  NoDup (s_id <$> loadSources catalog) →
  ∃ finalSources,
    pickSources file (loadSources catalog) (JNum nx) (JNum ny) (Some defaultOptions)
    = (Returned finalSources, loadSources catalog)
    ∧ length finalSources = 4
    ∧ NoDup (sel_id <$> finalSources).
Proof.
  intros Hdistinct.
  destruct (loadSources_invariant catalog) as (Hmin & Hactive & Hrange).
  assert (pool None (loadSources catalog) = loadSources catalog) as Hpool.
  { rewrite pool_no_filter. apply filter_all.
    eapply Forall_impl; [exact Hactive|]. intros s Hs. by apply Is_true_true. }
  destruct (pickSources_fills file (loadSources catalog) nx ny defaultOptions)
    as (finalSources & Hpick & Hlen & Hnd).
  - intros Hnil. rewrite Hnil in Hmin. unfold MIN_SOURCES_COUNT in Hmin. simpl in Hmin. lia.
  - done.
  - change (categoryFilter defaultOptions) with (@None string). by rewrite Hpool.
  - change (categoryFilter defaultOptions) with (@None string). by rewrite Hpool.
  - exists finalSources. split_and!; [done| |done].
    change (categoryFilter defaultOptions) with (@None string) in Hlen.
    rewrite Hpool in Hlen.
    change (friendlyCount defaultOptions + opposingCount defaultOptions) with 4 in Hlen.
    unfold MIN_SOURCES_COUNT in Hmin. lia.
Qed.

(** *** Too few sources for the requested counts *)

Section Covered.
Context (sources : list Source) (ax ay : Q) (o : Options).

Let cat := categoryFilter o.
Let P := pool cat sources.

Hypothesis Hdistinct : NoDup (s_id <$> P).
Hypothesis Hrange : Forall in_range P.
Hypothesis Hx : (-1 <= ax <= 1)%Q.
Hypothesis Hy : (-1 <= ay <= 1)%Q.
Hypothesis Hfriendly : length P ≤ friendlyCount o.
Hypothesis Hopposing : length P ≤ opposingCount o.

Let F := friendlyOf sources (Fin ax) (Fin ay) o.
Let O := opposingOf sources (Fin ax) (Fin ay) o.

(** A source that the friendly search left out is too far from the bias. *)
Lemma left_out_far s :
  s ∈ P → s_id s ∉ c_id <$> F →
  within_radius (mkCandidate s (calculateDistance (Fin ax) (Fin ay) s)) = false.
Proof.
  intros Hs Hout. apply not_true_is_false. intros Hnear. apply Hout.
  unfold F, friendlyOf. rewrite findClosestSources_eq.
  rewrite (filter_all (λ s, s_id s ∉ [])) by (apply Forall_forall; intros; apply not_elem_of_nil).
  fold cat P. rewrite take_ge.
  - apply list_elem_of_fmap.
    exists (mkCandidate s (calculateDistance (Fin ax) (Fin ay) s)). split; [done|].
    rewrite stable_sort_perm. apply list_elem_of_filter. split; [by apply Is_true_true|].
    apply list_elem_of_fmap. by exists s.
  - rewrite stable_sort_length. etrans; [apply length_filter|].
    by rewrite length_fmap.
Qed.

(** With no more sources than either count, the friendly and the
    opposing search share out the whole pool. *)
Lemma used_covers : length (F ++ O) = length P.
Proof.
  pose proof (found_NoDup sources o Hdistinct
                (Fin ax) (Fin ay) (friendlyCount o) []) as HF.
  pose proof (found_ids_pool sources (Fin ax) (Fin ay) (friendlyCount o) [] cat) as HFP.
  pose proof (filter_fresh_length (c_id <$> F) P Hdistinct HF) as Hcount.
  rewrite length_fmap in Hcount. rewrite length_app, <-Hcount.
  2: { intros i Hi. by eapply elem_of_submseteq. }
  rewrite Nat.add_comm. f_equal.
  unfold O, opposingOf. rewrite findClosestSources_eq. fold cat P F. simpl.
  set (rest := filter (λ s, s_id s ∉ c_id <$> F) P).
  assert (length rest ≤ opposingCount o) as Hrest.
  { etrans; [apply length_filter|done]. }
  rewrite filter_all.
  - rewrite take_ge; rewrite stable_sort_length, length_fmap; done.
  - apply Forall_fmap, Forall_forall. intros s [Hout Hs]%list_elem_of_filter; simpl.
    apply Is_true_true, within_radius_mirror; [|done|done|by apply left_out_far].
    by eapply Forall_forall in Hrange.
Qed.

(** Nothing is left for the fill-in search. *)
Lemma nothing_to_fill : fallbackOf sources (Fin ax) (Fin ay) o = [].
Proof.
  apply nil_length_inv. unfold fallbackOf.
  rewrite found_origin_length by done. fold cat P F O.
  pose proof (filter_fresh_length (c_id <$> F ++ O) P Hdistinct
                (used_NoDup sources (Fin ax) (Fin ay) o Hdistinct)
                (used_pool sources (Fin ax) (Fin ay) o)) as Hcount.
  rewrite length_fmap, used_covers in Hcount. lia.
Qed.

Lemma assembled_no_fallback :
  Forall (λ t, t_isFallback t = false) (assembled sources (Fin ax) (Fin ay) o).
Proof.
  unfold assembled. rewrite nothing_to_fill.
  rewrite !Forall_app. split_and!.
  - by apply Forall_fmap, Forall_true.
  - by apply Forall_fmap, Forall_true.
  - destruct (_ && _); constructor.
Qed.
End Covered.

(** * The claims on the source picker *)

(** C1, as stated, fails: the catalog may hold the same id several times
    ([validateSources] only warns), and then [pickSources 0 0] returns 3
    entries for a catalog of 4 active sources, or 2 entries with the same id. *)
Lemma pickSources_duplicate_ids_counterexample :
  let bias := JNum (Fin 0) in
  (let sources := loadSources (Some duplicated_file) in
   length (activeSources sources) = 4
   ∧ ids_picked (pickSources None sources bias bias (Some defaultOptions))
     = ["bbc-news"; "cnn"; "reuters"])
  ∧ (let sources := loadSources (Some repeated_file) in
     length (activeSources sources) = 4
     ∧ ids_picked (pickSources None sources bias bias (Some defaultOptions))
       = ["cnn"; "cnn"])
  ∧ ¬ (∀ sources (x y : Q),
         (-1 <= x <= 1)%Q → (-1 <= y <= 1)%Q →
         4 ≤ length (activeSources sources) →
         ∃ finalSources,
           (pickSources None sources (JNum (Fin x)) (JNum (Fin y)) (Some defaultOptions)).1
           = Returned finalSources
           ∧ length finalSources = 4 ∧ NoDup (sel_id <$> finalSources)).
Proof.
  split_and!; [by vm_compute|by vm_compute|].
  intros Hclaim.
  destruct (Hclaim (loadSources (Some repeated_file)) 0%Q 0%Q)
    as (finalSources & Hpick & Hlen & _); [done|done|by vm_compute|].
  vm_compute in Hpick. injection Hpick as <-. done.
Qed.

(** C1, amended: for a catalog whose active sources have pairwise distinct
    ids and validated coordinates, at least 4 of them, [pickSources x y]
    returns exactly 4 entries with pairwise distinct ids. *)
Theorem pickSources_four_distinct file sources (x y : Q) :
  (-1 <= x <= 1)%Q → (-1 <= y <= 1)%Q →
  4 ≤ length (activeSources sources) →
  NoDup (s_id <$> activeSources sources) →
  Forall in_range (activeSources sources) →
  ∃ finalSources,
    pickSources file sources (JNum (Fin x)) (JNum (Fin y)) (Some defaultOptions)
    = (Returned finalSources, sources)
    ∧ length finalSources = friendlyCount defaultOptions + opposingCount defaultOptions
    ∧ length finalSources = 4
    ∧ NoDup (sel_id <$> finalSources).
Proof.
  intros _ _ Hfour Hdistinct Hrange.
  destruct (pickSources_fills file sources (Fin x) (Fin y) defaultOptions)
    as (finalSources & Hpick & Hlen & Hnd); try done.
  { intros ->. simpl in Hfour. lia. }
  exists finalSources.
  change (categoryFilter defaultOptions) with (@None string) in Hlen.
  rewrite pool_no_filter in Hlen.
  change (friendlyCount defaultOptions + opposingCount defaultOptions) with 4 in *.
  split_and!; [done|lia|lia|done].
Qed.

Lemma pickSources_four_distinct_witness :
  ∃ finalSources,
    pickSources None getDefaultSources (JNum (Fin 0.3)) (JNum (Fin (-0.4)))
      (Some defaultOptions)
    = (Returned finalSources, getDefaultSources)
    ∧ length finalSources = 2 + 2
    ∧ length finalSources = 4
    ∧ NoDup (sel_id <$> finalSources).
Proof.
  apply (pickSources_four_distinct None getDefaultSources 0.3 (-0.4)).
  - lra.
  - lra.
  - simpl. lia.
  - apply (bool_decide_unpack _). by vm_compute.
  - apply getDefaultSources_in_range.
Defined.

(** C2, as stated, fails: with the two sources [bbc-news] and [cnn] in the
    catalog, [pickSources 0 0] returns 2 entries, none of them a fallback. *)
Lemma pickSources_two_sources_counterexample :
  let sources := take 2 getDefaultSources in
  length (activeSources sources) = 2
  ∧ ∃ finalSources,
      pickSources None sources (JNum (Fin 0)) (JNum (Fin 0)) (Some defaultOptions)
      = (Returned finalSources, sources)
      ∧ sel_id <$> finalSources = ["bbc-news"; "cnn"]
      ∧ length finalSources ≠ 4
      ∧ length (fallbacks finalSources) ≠ 2.
Proof.
  split; [by vm_compute|]. eexists. split; [by vm_compute|].
  split_and!; [done|simpl; lia|by vm_compute].
Qed.

(** C2, amended: for a catalog with exactly 2 active sources, with distinct
    ids and validated coordinates, and a bias in the square,
    [pickSources x y] with [friendlyCount = 2] and [opposingCount = 2]
    returns a list of length 2 in which no entry is marked [isFallback]. *)
Theorem pickSources_two_sources file sources (x y : Q) :
  (-1 <= x <= 1)%Q → (-1 <= y <= 1)%Q →
  length (activeSources sources) = 2 →
  NoDup (s_id <$> activeSources sources) →
  Forall in_range (activeSources sources) →
  ∃ finalSources,
    pickSources file sources (JNum (Fin x)) (JNum (Fin y)) (Some defaultOptions)
    = (Returned finalSources, sources)
    ∧ length finalSources = 2
    ∧ fallbacks finalSources = [].
Proof.
  intros Hx Hy Htwo Hdistinct Hrange.
  assert (sources ≠ []) as Hne by (intros ->; simpl in Htwo; lia).
  destruct (pickSources_fills file sources (Fin x) (Fin y) defaultOptions)
    as (finalSources & Hpick & Hlen & _); try done.
  exists finalSources.
  change (categoryFilter defaultOptions) with (@None string) in Hlen.
  rewrite pool_no_filter, Htwo in Hlen.
  change (friendlyCount defaultOptions + opposingCount defaultOptions) with 4 in *.
  split_and!; [done|lia|].
  rewrite pickSources_eq in Hpick by done. injection Hpick as <-.
  apply filter_none, Forall_fmap, Forall_forall. intros t Ht; simpl.
  eapply elem_of_sublist in Ht; [|apply sublist_take].
  apply diversified_elem_of in Ht.
  assert (Forall (λ t, t_isFallback t = false)
            (assembled sources (Fin x) (Fin y) defaultOptions)) as Hno.
  { apply assembled_no_fallback; try done;
      change (categoryFilter defaultOptions) with (@None string);
      rewrite pool_no_filter, Htwo; simpl; lia. }
  rewrite Forall_forall in Hno. rewrite (Hno t Ht). by intros [].
Qed.

Lemma pickSources_two_sources_witness :
  ∃ finalSources,
    pickSources None (take 2 getDefaultSources) (JNum (Fin 0.3)) (JNum (Fin (-0.4)))
      (Some defaultOptions)
    = (Returned finalSources, take 2 getDefaultSources)
    ∧ length finalSources = 2
    ∧ fallbacks finalSources = [].
Proof.
  apply (pickSources_two_sources None (take 2 getDefaultSources) 0.3 (-0.4)).
  - lra.
  - lra.
  - reflexivity.
  - apply (bool_decide_unpack _). by vm_compute.
  - repeat constructor; simpl; lra.
Defined.

(** C4: [pickSources] returns on every input. Whenever the body of its
    [try] block throws, as it does on a coordinate that is not a number and
    on options that cannot be destructured, the result is the emergency
    list: the first 4 built-in sources, each marked [isFallback]. *)
Theorem pickSources_never_throws file sources (x y : jsval) (options : option Options) :
  (∃ finalSources sources',
     pickSources file sources x y options = (Returned finalSources, sources'))
  ∧ (∀ message sources',
       pickSources_try file sources x y options = (Thrown message, sources') →
       pickSources file sources x y options
       = (Returned getEmergencyFallbackSources, sources))
  ∧ (typeof_number x && typeof_number y = false →
     pickSources file sources x y options
     = (Returned getEmergencyFallbackSources, sources))
  ∧ (options = None →
     pickSources file sources x y options
     = (Returned getEmergencyFallbackSources, sources))
  ∧ sel_id <$> getEmergencyFallbackSources = s_id <$> take 4 getDefaultSources
  ∧ length getEmergencyFallbackSources = 4
  ∧ Forall (λ s, sel_isFallback s = true) getEmergencyFallbackSources.
Proof.
  split_and!.
  - unfold pickSources. destruct (pickSources_try _ _ _ _ _) as [[finalSources|?] sources'];
      eauto.
  - intros message sources' Htry. unfold pickSources. rewrite Htry. f_equal.
    unfold pickSources_try in Htry.
    destruct options; [|by injection Htry].
    by destruct x as [| | |nx|], y as [| | |ny|]; injection Htry.
  - intros Hnan. unfold pickSources, pickSources_try.
    destruct options; [|done].
    by destruct x as [| | |nx|], y as [| | |ny|].
  - by intros ->.
  - done.
  - done.
  - by repeat constructor.
Qed.

Lemma pickSources_never_throws_witness :
  pickSources None getDefaultSources (JStr "left") JUndefined (Some defaultOptions)
  = (Returned getEmergencyFallbackSources, getDefaultSources).
Proof.
  destruct (pickSources_never_throws None getDefaultSources (JStr "left") JUndefined
              (Some defaultOptions)) as (_ & _ & Hbad & _).
  apply Hbad. reflexivity.
Defined.


(** *** Sorting with the platform's comparator *)

Section OrderedSort.
(** The elements are sorted by a key.  On the keys that [W] holds of, the
    comparator is that of a total preorder: it is asymmetric and its
    complement is transitive. *)
Context {A K : Type} (key : A → K) (lt : K → K → bool) (W : K → Prop).
Hypothesis lt_asym : ∀ a b, W a → W b → lt a b = true → lt b a = false.
Hypothesis lt_trans :
  ∀ a b c, W a → W b → W c → lt b a = false → lt c b = false → lt c a = false.

Lemma sort_insert_sorted a l :
  W (key a) → Forall (λ b, W (key b)) l →
  StronglySorted (λ a b, no_later lt (key a) (key b)) l → StronglySorted (λ a b, no_later lt (key a) (key b)) (sort_insert (λ a b, lt (key a) (key b)) a l).
Proof.
  intros Ha Hl Hs. induction Hs as [|b l Hs IH Hb]; simpl; [repeat constructor|].
  apply Forall_cons in Hl as [Hwb Hl].
  destruct (lt (key b) (key a)) eqn:Hba.
  - constructor; [by apply IH|].
    rewrite sort_insert_perm. constructor; [|done].
    unfold no_later. by apply lt_asym.
  - constructor; [by constructor|].
    constructor; [done|].
    apply Forall_forall. intros c Hc. unfold no_later.
    apply (lt_trans (key a) (key b) (key c)); [done|done| |done|].
    + by eapply Forall_forall in Hl.
    + by eapply Forall_forall in Hb.
Qed.

Lemma stable_sort_sorted l :
  Forall (λ b, W (key b)) l → StronglySorted (λ a b, no_later lt (key a) (key b)) (stable_sort (λ a b, lt (key a) (key b)) l).
Proof.
  induction 1 as [|a l Ha Hl IH]; simpl; [constructor|].
  apply sort_insert_sorted; [done| |done]. by rewrite stable_sort_perm.
Qed.

(** The sort is stable: the elements whose keys are tied with [d] keep
    their order. *)
Lemma sort_insert_tied (d : K) a l :
  W d → W (key a) → Forall (λ b, W (key b)) l →
  filter (λ b, tied lt d (key b)) (sort_insert (λ a b, lt (key a) (key b)) a l)
  = filter (λ b, tied lt d (key b)) (a :: l).
Proof.
  intros Hd Ha Hl. induction Hl as [|b l Hb Hl IH]; simpl; [done|].
  destruct (lt (key b) (key a)) eqn:Hba; [|done].
  rewrite (filter_cons _ b), IH, !(filter_cons _ a), (filter_cons _ b).
  destruct (decide (tied lt d (key b))) as [Htb|Htb]; [|done].
  destruct (decide (tied lt d (key a))) as [Hta|Hta]; [|done].
  unfold tied in Htb, Hta.
  apply Is_true_true, andb_true_iff in Htb as [_ Hbd%negb_true_iff].
  apply Is_true_true, andb_true_iff in Hta as [Hda%negb_true_iff _].
  by rewrite (lt_trans (key a) d (key b)) in Hba.
Qed.

Lemma stable_sort_tied (d : K) l :
  W d → Forall (λ b, W (key b)) l →
  filter (λ b, tied lt d (key b)) (stable_sort (λ a b, lt (key a) (key b)) l)
  = filter (λ b, tied lt d (key b)) l.
Proof.
  intros Hd. induction 1 as [|a l Ha Hl IH]; simpl; [done|].
  rewrite sort_insert_tied, !filter_cons, IH; [done..|].
  by rewrite stable_sort_perm.
Qed.
End OrderedSort.

Section SortMap.
Context {A B : Type} (f : A → B) (lt : A → A → bool) (lt' : B → B → bool).
Hypothesis Hlt : ∀ a b, lt' (f a) (f b) = lt a b.

Lemma sort_insert_fmap a l :
  sort_insert lt' (f a) (f <$> l) = f <$> sort_insert lt a l.
Proof.
  induction l as [|b l IH]; csimpl; [done|].
  rewrite Hlt. destruct (lt b a); csimpl; [by rewrite IH|done].
Qed.

Lemma stable_sort_fmap l : stable_sort lt' (f <$> l) = f <$> stable_sort lt l.
Proof.
  induction l as [|a l IH]; csimpl; [done|].
  by rewrite IH, sort_insert_fmap.
Qed.
End SortMap.

Lemma filter_fmap {A B : Type} (f : A → B) (P : B → Prop) `{!∀ b, Decision (P b)}
    (l : list A) :
  filter P (f <$> l) = f <$> filter (λ a, P (f a)) l.
Proof.
  induction l as [|a l IH]; csimpl; [done|].
  rewrite !filter_cons. destruct (decide (P (f a))); csimpl; by rewrite IH.
Qed.

Lemma filter_sublist {A : Type} (P : A → Prop) `{!∀ a, Decision (P a)} (l k : list A) :
  l `sublist_of` k → filter P l `sublist_of` filter P k.
Proof.
  induction 1 as [|a l k _ IH|a l k _ IH]; [done| |].
  - rewrite !filter_cons. destruct (decide (P a)); [by constructor|done].
  - rewrite filter_cons. destruct (decide (P a)); [by constructor|done].
Qed.

Lemma eligible_true excl cat s :
  eligible excl cat s = true
  ↔ (s_id s ∉ excl) ∧ category_rejects cat s = false ∧ s_active s = true.
Proof.
  unfold eligible, includes. case_bool_decide as Hin.
  - split; [done|]. by intros [? _].
  - destruct (category_rejects cat s); [|tauto].
    split; [done|]. by intros (_ & ? & _).
Qed.

(** X1: [findClosestSources] returns no source when a coordinate is not a
    finite number: a value of another type makes it throw and catch, and
    with [NaN] or an infinity no distance is within the radius. *)
Theorem findClosestSources_not_finite sources (x y : jsval) n excl cat :
  is_finite x && is_finite y = false →
  findClosestSources sources x y n excl cat = [].
Proof.
  intros Hxy. unfold findClosestSources, findClosestSources_try.
  destruct x as [| | |nx|]; try done. destruct y as [| | |ny|]; try done.
  rewrite filter_none; [simpl; apply take_nil|].
  apply Forall_fmap, Forall_forall. intros s _; simpl.
  unfold within_radius, calculateDistance; simpl.
  destruct nx as [p| | |], ny as [q| | |]; simpl in *; try done; by intros [].
Qed.

Lemma findClosestSources_not_finite_witness :
  findClosestSources getDefaultSources (JNum NaN) (JNum (Fin 0)) 2 [] None = [].
Proof.
  apply (findClosestSources_not_finite getDefaultSources (JNum NaN) (JNum (Fin 0)) 2 [] None).
  reflexivity.
Defined.

(** *** Searches on the platform's numbers *)

Section Searches.
Context {D : Type}.
Context (distance : number → number → Source → D).
Context (within : D → bool).
Context (before : D → D → bool).

(** A search, read on the catalog: the eligible sources whose computed
    distance is within the radius, sorted by the comparator, cut at [n]. *)
Lemma findClosestSources_on_sources sources x y n excl cat :
  Platform.findClosestSources distance within before sources (JNum x) (JNum y) n excl cat
  = (λ s, Platform.mkMeasured s (distance x y s)) <$>
      take n (stable_sort (λ s t, before (distance x y s) (distance x y t))
                (filter (λ s, within (distance x y s))
                   (filter (λ s, eligible excl cat s) sources))).
Proof.
  unfold Platform.findClosestSources, Platform.findClosestSources_try.
  rewrite fmap_take. f_equal. rewrite filter_fmap.
  by rewrite <-(stable_sort_fmap (λ s, Platform.mkMeasured s (distance x y s))
                  (λ s t, before (distance x y s) (distance x y t))
                  (λ a b, before (Platform.m_distance a) (Platform.m_distance b))).
Qed.

Lemma measured_sources x y (l : list Source) :
  Platform.m_source <$> ((λ s, Platform.mkMeasured s (distance x y s)) <$> l) = l.
Proof. rewrite <-list_fmap_compose. apply list_fmap_id. Qed.

(** X2: what [findClosestSources] returns for two numbers: at most [n]
    candidates, each an active source of the catalog that is not excluded
    and has the category asked for, with the distance computed for it, which
    passed the test of the search radius. *)
Theorem findClosestSources_sound sources (x y : number) n excl cat :
  let found := Platform.findClosestSources distance within before sources (JNum x) (JNum y) n excl cat in
  length found ≤ n
  ∧ ∀ m, m ∈ found →
      Platform.m_source m ∈ sources
      ∧ s_active (Platform.m_source m) = true
      ∧ (s_id (Platform.m_source m) ∉ excl)
      ∧ (∀ category, cat = Some category → category ≠ "" →
           s_category (Platform.m_source m) = category)
      ∧ Platform.m_distance m = distance x y (Platform.m_source m)
      ∧ within (Platform.m_distance m) = true.
Proof.
  simpl. rewrite findClosestSources_on_sources.
  split; [rewrite length_fmap, length_take; lia|].
  intros m (s & -> & Hs)%list_elem_of_fmap.
  apply elem_of_take in Hs as (i & Hs%list_elem_of_lookup_2 & _).
  rewrite stable_sort_perm in Hs.
  apply list_elem_of_filter in Hs as [Hnear Hs].
  apply list_elem_of_filter in Hs as [Hel Hs].
  apply Is_true_true, eligible_true in Hel as (Hexcl & Hcat & Hactive).
  apply Is_true_true in Hnear.
  split_and!; simpl; try done.
  intros category -> Hne. unfold category_rejects in Hcat.
  rewrite (bool_decide_eq_false_2 _ Hne) in Hcat. simpl in Hcat.
  by apply negb_false_iff, bool_decide_eq_true in Hcat.
Qed.

(** X4: for two numbers [findClosestSources] returns [n] candidates, or
    every eligible source whose computed distance passes the test of the
    search radius when there are fewer than [n]. *)
Theorem findClosestSources_length sources (x y : number) n excl cat :
  length (Platform.findClosestSources distance within before sources (JNum x) (JNum y) n excl cat)
  = n `min` length (filter (λ s, eligible excl cat s && within (distance x y s)) sources).
Proof.
  rewrite findClosestSources_on_sources, length_fmap, length_take, stable_sort_length.
  rewrite list_filter_filter. do 2 f_equal. apply list_filter_iff.
  intros s. rewrite andb_True. tauto.
Qed.

(** Among distances that pass the test of the radius, which are numbers and
    not [NaN], the comparator [a - b < 0] is that of a total preorder. *)
Hypothesis before_asym :
  ∀ a b, within a = true → within b = true → before a b = true → before b a = false.
Hypothesis before_trans :
  ∀ a b c, within a = true → within b = true → within c = true →
           before b a = false → before c b = false → before c a = false.

(** X3: [findClosestSources] returns the nearest sources by the distances
    it computed, nearest first: in the result no source comes after one
    that the comparator puts behind it, and an eligible source whose
    distance passes the test of the radius is left out only when [n] sources
    were found of which the comparator puts none behind it. *)
Theorem findClosestSources_nearest sources (x y : number) n excl cat :
  let found := Platform.m_source <$> Platform.findClosestSources distance within before sources (JNum x) (JNum y) n excl cat in
  let dist := distance x y in
  StronglySorted (λ s t, no_later before (dist s) (dist t)) found
  ∧ ∀ s, s ∈ sources → eligible excl cat s = true → within (dist s) = true →
      s ∈ found
      ∨ (length found = n ∧ Forall (λ t, no_later before (dist t) (dist s)) found).
Proof.
  simpl. rewrite findClosestSources_on_sources, measured_sources.
  set (E := filter _ (filter _ sources)).
  set (L := stable_sort _ E).
  assert (Forall (λ s, within (distance x y s) = true) E) as HE.
  { apply Forall_forall. intros s [Hs _]%list_elem_of_filter. by apply Is_true_true. }
  assert (StronglySorted (λ s t, no_later before (distance x y s) (distance x y t))
            (take n L ++ drop n L)) as Hsorted.
  { rewrite take_drop.
    by apply (stable_sort_sorted (distance x y) before (λ d, within d = true)). }
  split; [by apply StronglySorted_app_1_l in Hsorted|].
  intros s Hs Hel Hnear.
  assert (s ∈ take n L ++ drop n L) as [Hin|Hout]%elem_of_app; [|by left|right].
  { rewrite take_drop. unfold L. rewrite stable_sort_perm.
    apply list_elem_of_filter. split; [by apply Is_true_true|].
    apply list_elem_of_filter. split; [by apply Is_true_true|done]. }
  split.
  - rewrite length_take. destruct (decide (length L ≤ n)) as [Hle|]; [|lia].
    rewrite drop_ge in Hout by done. by apply elem_of_nil in Hout.
  - apply Forall_forall. intros t Ht.
    by eapply (StronglySorted_app_1_elem_of _ _ _ t s) in Hsorted.
Qed.

(** X5: sources whose computed distances are tied, neither before the
    other, come out of [findClosestSources] in the order of the catalog: the
    sort is stable. *)
Theorem findClosestSources_stable sources (x y : number) n excl cat (d : D) :
  let found := Platform.m_source <$> Platform.findClosestSources distance within before sources (JNum x) (JNum y) n excl cat in
  within d = true →
  filter (λ s, tied before d (distance x y s)) found `sublist_of` sources.
Proof.
  simpl. intros Hd. rewrite findClosestSources_on_sources, measured_sources.
  set (E := filter _ (filter _ sources)).
  assert (Forall (λ s, within (distance x y s) = true) E) as HE.
  { apply Forall_forall. intros s [Hs _]%list_elem_of_filter. by apply Is_true_true. }
  trans (filter (λ s, tied before d (distance x y s))
           (stable_sort (λ s t, before (distance x y s) (distance x y t)) E)).
  - apply filter_sublist, sublist_take.
  - rewrite (stable_sort_tied (distance x y) before (λ d, within d = true)) by done.
    etrans; [apply sublist_filter|]. etrans; apply sublist_filter.
Qed.
End Searches.

(** The search of [Feed] is the search on exact distances. *)
Lemma findClosestSources_exact sources x y n excl cat :
  findClosestSources sources x y n excl cat
  = to_candidate <$> exact sources x y n excl cat.
Proof.
  unfold findClosestSources, findClosestSources_try, exact,
    Platform.findClosestSources, Platform.findClosestSources_try.
  destruct x as [| | |nx|]; try done. destruct y as [| | |ny|]; try done.
  rewrite fmap_take. f_equal.
  rewrite <-(stable_sort_fmap to_candidate
               (λ a b, root_ltb (Platform.m_distance a) (Platform.m_distance b)) closer)
    by done.
  f_equal. rewrite !filter_fmap, <-list_fmap_compose. done.
Qed.

Lemma root_ltb_asym a b :
  exact_within a = true → exact_within b = true →
  root_ltb a b = true → root_ltb b a = false.
Proof.
  destruct a as [[p| | |]], b as [[q| | |]]; try done. intros _ _.
  unfold root_ltb, Qltb.
  intros [[_ _]%andb_true_iff Hlt%negb_true_iff]%andb_true_iff.
  apply Qle_bool_false in Hlt.
  rewrite (proj2 (Qle_bool_true p q)), andb_false_r by lra. done.
Qed.

Lemma root_ltb_trans a b c :
  exact_within a = true → exact_within b = true → exact_within c = true →
  root_ltb b a = false → root_ltb c b = false → root_ltb c a = false.
Proof.
  destruct a as [[p| | |]], b as [[q| | |]], c as [[r| | |]]; try done.
  unfold exact_within, root_leb, root_ltb, Qltb.
  intros [[Hp%Qle_bool_true _]%andb_true_iff _]%andb_true_iff.
  intros [[Hq%Qle_bool_true _]%andb_true_iff _]%andb_true_iff.
  intros [[Hr%Qle_bool_true _]%andb_true_iff _]%andb_true_iff.
  rewrite !(proj2 (Qle_bool_true 0 _)) by done. simpl.
  intros Hqp%negb_false_iff%Qle_bool_true Hrq%negb_false_iff%Qle_bool_true.
  apply negb_false_iff, Qle_bool_true. lra.
Qed.

Lemma findClosestSources_nearest_witness :
  let found :=
    Platform.m_source <$>
      exact getDefaultSources (JNum (Fin 0.3)) (JNum (Fin (-0.4))) 2 [] None in
  let dist := calculateDistance (Fin 0.3) (Fin (-0.4)) in
  StronglySorted (λ s t, no_later root_ltb (dist s) (dist t)) found
  ∧ ∀ s, s ∈ getDefaultSources → eligible [] None s = true →
         exact_within (dist s) = true →
      s ∈ found
      ∨ (length found = 2 ∧ Forall (λ t, no_later root_ltb (dist t) (dist s)) found).
Proof.
  apply (findClosestSources_nearest calculateDistance exact_within root_ltb
           root_ltb_asym root_ltb_trans getDefaultSources (Fin 0.3) (Fin (-0.4)) 2 [] None).
Defined.

Lemma findClosestSources_stable_witness :
  let found :=
    Platform.m_source <$>
      exact getDefaultSources (JNum (Fin (-0.8))) (JNum (Fin 1)) 3 [] None in
  let dist := calculateDistance (Fin (-0.8)) (Fin 1) in
  filter (λ s, tied root_ltb (Sqrt (Fin 1.17)) (dist s)) found = [bbc_news; reuters]
  ∧ filter (λ s, tied root_ltb (Sqrt (Fin 1.17)) (dist s)) found
    `sublist_of` getDefaultSources.
Proof.
  split; [by vm_compute|].
  apply (findClosestSources_stable calculateDistance exact_within root_ltb
           root_ltb_trans getDefaultSources (Fin (-0.8)) (Fin 1) 3 [] None
           (Sqrt (Fin 1.17))).
  reflexivity.
Defined.

(** The arithmetic decides the order.  BBC News and Reuters are equally far
    from [(-0.8, 1)], and BBC News comes first in the catalog; on doubles
    the two distances round to 1.0816653826391969 and 1.0816653826391966, so
    that the search returns Reuters and leaves BBC News out.  And a source
    at [(-1, 0)] is farther than 2 from [(1, 1e-9)], but not on doubles,
    where the distance rounds to 2. *)
Lemma findClosestSources_on_doubles :
  (Doubles.calculateDistance (Fin (-0.8)) (Fin 1) bbc_news
   = S754_finite false 4871387814193452 (-52)
   ∧ Doubles.calculateDistance (Fin (-0.8)) (Fin 1) reuters
     = S754_finite false 4871387814193451 (-52)
   ∧ s_id ∘ Platform.m_source <$>
       on_doubles getDefaultSources (JNum (Fin (-0.8))) (JNum (Fin 1)) 2 [] None
     = ["cnn"; "reuters"]
   ∧ c_id <$> findClosestSources getDefaultSources (JNum (Fin (-0.8))) (JNum (Fin 1)) 2 [] None
     = ["cnn"; "bbc-news"])
  ∧ (let west := mkSource "w" "W" (-1) 0 "general" true in
     Platform.m_source <$>
       on_doubles [west] (JNum (Fin 1)) (JNum (Fin (1 # 1000000000))) 1 [] None = [west]
     ∧ findClosestSources [west] (JNum (Fin 1)) (JNum (Fin (1 # 1000000000))) 1 [] None = []).
Proof. by vm_compute. Qed.

(** *** The diversity pass, continued *)

Lemma fill_loop_full total diverse rest :
  total ≤ length diverse → fill_loop total diverse rest = diverse.
Proof. intros Hfull. destruct rest; simpl; [done|]. by rewrite bool_decide_eq_true_2. Qed.

Lemma ensureSourceDiversity_prefix a b rest :
  ∃ k, ensureSourceDiversity (a :: b :: rest) = a :: b :: k.
Proof.
  unfold ensureSourceDiversity.
  cbn [diversity_loop]. rewrite orb_true_r. cbn [app length].
  rewrite (bool_decide_eq_true_2 (1 < 2)), orb_true_r by lia.
  destruct (diversity_loop_sublist [diversityKey b; diversityKey a] [a; b] rest)
    as (k1 & _ & ->).
  destruct (fill_loop_spec (S (S (length rest))) ([a; b] ++ k1) (a :: b :: rest))
    as (k2 & -> & _).
  exists (k1 ++ k2). by rewrite <-!app_assoc.
Qed.

(** X6: on entries with distinct ids [ensureSourceDiversity] only reorders:
    its result is a permutation of what it is given. *)
Theorem ensureSourceDiversity_permutation sources :
  NoDup (t_id <$> sources) →
  ensureSourceDiversity sources ≡ₚ sources.
Proof.
  intros Hnd. apply submseteq_length_Permutation.
  - apply NoDup_submseteq.
    + eapply NoDup_fmap_1, ensureSourceDiversity_NoDup, Hnd.
    + intros t. apply ensureSourceDiversity_elem_of.
  - by rewrite ensureSourceDiversity_length.
Qed.

Lemma ensureSourceDiversity_permutation_witness :
  ensureSourceDiversity same_owner ≡ₚ same_owner
  ∧ t_id <$> ensureSourceDiversity same_owner = ["bbc-news"; "cnn"; "reuters"; "bbc-media"].
Proof.
  split; [|reflexivity].
  apply (ensureSourceDiversity_permutation same_owner).
  apply (bool_decide_unpack _). by vm_compute.
Defined.

Section Organizations.
Context (extractOrganization : string → string).

Lemma diversity_loop_keep seen diverse rest :
  NoDup (Platform.diversityKey extractOrganization <$> rest) →
  (∀ k, k ∈ Platform.diversityKey extractOrganization <$> rest → k ∉ seen) →
  Platform.diversity_loop extractOrganization seen diverse rest = diverse ++ rest.
Proof.
  revert seen diverse. induction rest as [|source rest IH]; intros seen diverse; csimpl.
  - by rewrite app_nil_r.
  - intros [Hfresh Hnd]%NoDup_cons Hseen.
    unfold includes. rewrite (bool_decide_eq_false_2 (Platform.diversityKey extractOrganization source ∈ seen)).
    + simpl. rewrite IH, <-app_assoc; [done|done|].
      intros k Hk [->|Hin]%elem_of_cons; [done|].
      eapply Hseen; [|done]. by right.
    + apply Hseen. by left.
Qed.

(** X7: [ensureSourceDiversity] leaves a selection as it is when no two
    entries share organization and category, whatever [extractOrganization]
    makes of the names. *)
Theorem ensureSourceDiversity_diverse sources :
  NoDup (Platform.diversityKey extractOrganization <$> sources) →
  Platform.ensureSourceDiversity extractOrganization sources = sources.
Proof.
  intros Hnd. unfold Platform.ensureSourceDiversity.
  rewrite diversity_loop_keep; [|done|intros k _; apply not_elem_of_nil].
  by apply fill_loop_full.
Qed.
End Organizations.

(** The diversity pass of [Feed] is the pass with its [extractOrganization]. *)
Lemma ensureSourceDiversity_ascii sources :
  ensureSourceDiversity sources = Platform.ensureSourceDiversity extractOrganization sources.
Proof. reflexivity. Qed.

Lemma ensureSourceDiversity_diverse_witness :
  let found := tag friendly false <$> (mkFound 0 0 <$> getDefaultSources) in
  Platform.ensureSourceDiversity extractOrganization found = found.
Proof.
  apply (ensureSourceDiversity_diverse extractOrganization
           (tag friendly false <$> (mkFound 0 0 <$> getDefaultSources))).
  apply (bool_decide_unpack _). by vm_compute.
Defined.

(** X8: [ensureSourceDiversity] never moves the first two entries: they are
    kept whatever their organization and category. *)
Theorem ensureSourceDiversity_first_two sources :
  take 2 (ensureSourceDiversity sources) = take 2 sources.
Proof.
  destruct sources as [|a [|b rest]]; [done|done|].
  by destruct (ensureSourceDiversity_prefix a b rest) as (k & ->).
Qed.

(** *** Catalogs, continued *)

Lemma getDefaultSources_valid : Forall valid_source getDefaultSources.
Proof. repeat constructor; simpl; try done; lra. Qed.

(** X9: whatever the catalog file holds, [loadSources] installs at least
    [MIN_SOURCES_COUNT] sources, each active, with a non-empty id, name and
    category and with coordinates in [[-1, 1]]: the records that pass
    [validateSources], or the default sources. *)
Theorem loadSources_valid file :
  MIN_SOURCES_COUNT ≤ length (loadSources file)
  ∧ Forall valid_source (loadSources file).
Proof.
  split; [apply loadSources_invariant|].
  destruct file as [sourcesData|]; simpl; [|apply getDefaultSources_valid].
  unfold validateSources. case_decide as Hfew; simpl; [apply getDefaultSources_valid|].
  apply Forall_forall. intros s [Hactive Hs]%list_elem_of_filter.
  apply list_elem_of_omap in Hs as (r & _ & Hr).
  pose proof (validate_one_in_range _ _ Hr) as Hrange.
  unfold validate_one in Hr.
  destruct (r_id r) as [i|], (r_name r) as [n|], (r_x r), (r_y r); try done.
  destruct (bool_decide (i = "")) eqn:Hi; [done|].
  destruct (bool_decide (n = "")) eqn:Hn; [done|]. simpl in Hr.
  destruct (_ || _); [done|]. injection Hr as <-.
  apply bool_decide_eq_false in Hi, Hn. unfold valid_source; simpl in *.
  split_and!; [done|done| |by apply Is_true_true|done].
  destruct (r_category r) as [c|]; [|done]. by case_bool_decide.
Qed.

Lemma validate_one_raw_of s : valid_source s → validate_one (raw_of s) = Some s.
Proof.
  intros (Hid & Hname & Hcat & Hactive & [[Hx1 Hx2] [Hy1 Hy2]]).
  unfold validate_one, raw_of; simpl.
  rewrite !bool_decide_eq_false_2 by done. simpl.
  unfold Qltb. rewrite !(proj2 (Qle_bool_true _ _)) by done. simpl.
  destruct s; simpl in *. by rewrite Hactive.
Qed.

(** X10: [validateSources] accepts a catalog of at least [MIN_SOURCES_COUNT]
    valid sources as it is, in the order of the file, and [loadSources]
    installs it. *)
Theorem validateSources_complete sources :
  MIN_SOURCES_COUNT ≤ length sources → Forall valid_source sources →
  validateSources (raw_of <$> sources) = Returned sources
  ∧ loadSources (Some (raw_of <$> sources)) = sources.
Proof.
  intros Hmin Hvalid.
  assert (omap validate_one (raw_of <$> sources) = sources) as Homap.
  { clear Hmin. induction Hvalid as [|s l Hs _ IH]; csimpl; [done|].
    rewrite validate_one_raw_of by done. csimpl. by f_equal. }
  assert (validateSources (raw_of <$> sources) = Returned sources) as Hok.
  { unfold validateSources. rewrite Homap.
    rewrite filter_all.
    - by rewrite decide_False by lia.
    - eapply Forall_impl; [exact Hvalid|].
      intros s (_ & _ & _ & Hactive & _). by apply Is_true_true. }
  split; [done|]. unfold loadSources. by rewrite Hok.
Qed.

Lemma validateSources_complete_witness :
  validateSources (raw_of <$> getDefaultSources) = Returned getDefaultSources
  ∧ loadSources (Some (raw_of <$> getDefaultSources)) = getDefaultSources.
Proof.
  apply (validateSources_complete getDefaultSources).
  - unfold MIN_SOURCES_COUNT. simpl. lia.
  - repeat constructor; simpl; try done; lra.
Defined.

(** *** The picker on the catalog it works on *)

Lemma loadSources_nonempty file : loadSources file ≠ [].
Proof.
  destruct (loadSources_invariant file) as (Hmin & _).
  intros Hnil. rewrite Hnil in Hmin. unfold MIN_SOURCES_COUNT in Hmin. simpl in Hmin. lia.
Qed.

Lemma pickSources_catalog file sources nx ny o :
  pickSources file sources (JNum nx) (JNum ny) (Some o)
  = (Returned (finalSource <$> take (friendlyCount o + opposingCount o)
                                 (diversified (catalog file sources) nx ny o)),
     catalog file sources).
Proof.
  unfold catalog. case_bool_decide as Hlen.
  - rewrite <-(pickSources_eq _ _ _ _ file) by apply loadSources_nonempty.
    apply length_zero_iff_nil in Hlen as ->.
    unfold pickSources, pickSources_try.
    rewrite (bool_decide_eq_true_2 (length (@nil Source) = 0)) by done.
    by rewrite (bool_decide_eq_false_2 (length (loadSources file) = 0))
      by (pose proof (loadSources_nonempty file); by destruct (loadSources file)).
  - apply pickSources_eq. by intros ->.
Qed.

Lemma assembled_length_le sources nx ny o :
  length (assembled sources nx ny o) ≤ friendlyCount o + opposingCount o.
Proof.
  unfold assembled. rewrite !length_app, !length_fmap.
  pose proof (used_length_le sources nx ny o) as Hused. rewrite length_app in Hused.
  destruct (_ && _); simpl; [|lia].
  rewrite length_fmap. unfold fallbackOf.
  etrans; [apply Nat.add_le_mono_l, Nat.add_le_mono_l, found_length_le|].
  rewrite length_app. lia.
Qed.

(** X11: with the [fill_remaining] strategy, on a catalog whose eligible
    sources have distinct ids and coordinates in [[-1, 1]], [pickSources]
    returns [friendlyCount + opposingCount] entries, or one per eligible
    source when there are fewer, all with distinct ids, whatever the
    numbers [x] and [y] are. *)
Theorem pickSources_count file sources nx ny o :
  let catalog := catalog file sources in
  fallbackStrategy o = "fill_remaining" →
  NoDup (s_id <$> pool (categoryFilter o) catalog) →
  Forall in_range (pool (categoryFilter o) catalog) →
  ∃ finalSources,
    pickSources file sources (JNum nx) (JNum ny) (Some o) = (Returned finalSources, catalog)
    ∧ length finalSources
      = (friendlyCount o + opposingCount o) `min` length (pool (categoryFilter o) catalog)
    ∧ NoDup (sel_id <$> finalSources).
Proof.
  simpl. intros Hfill Hdistinct Hrange. eexists. split; [apply pickSources_catalog|].
  split.
  - rewrite length_fmap, length_take, diversified_length, assembled_length by done. lia.
  - rewrite <-list_fmap_compose.
    apply (sublist_NoDup _ (t_id <$> diversified (catalog file sources) nx ny o)).
    + by apply diversified_NoDup.
    + apply (fmap_sublist t_id), sublist_take.
Qed.

Lemma pickSources_count_witness :
  ∃ finalSources,
    pickSources None [] (JNum NaN) (JNum (Fin 0.5)) (Some one_and_two)
    = (Returned finalSources, getDefaultSources)
    ∧ length finalSources = 3 `min` 6
    ∧ NoDup (sel_id <$> finalSources).
Proof.
  apply (pickSources_count None [] NaN (Fin 0.5) one_and_two).
  - reflexivity.
  - apply (bool_decide_unpack _). by vm_compute.
  - repeat constructor; simpl; lra.
Defined.

(** X12: [ensureDiversity] never changes which sources [pickSources]
    returns, only their order: on a catalog whose eligible sources have
    distinct ids the selections with and without it are permutations of
    each other. *)
Theorem pickSources_diversity_reorders file sources nx ny o :
  NoDup (s_id <$> pool (categoryFilter o) (catalog file sources)) →
  ∃ diverse plain,
    pickSources file sources (JNum nx) (JNum ny) (Some (with_diversity true o))
    = (Returned diverse, catalog file sources)
    ∧ pickSources file sources (JNum nx) (JNum ny) (Some (with_diversity false o))
      = (Returned plain, catalog file sources)
    ∧ diverse ≡ₚ plain.
Proof.
  intros Hdistinct. do 2 eexists. split_and!; [apply pickSources_catalog..|].
  set (S := catalog file sources) in *.
  change (friendlyCount (with_diversity true o)) with (friendlyCount o).
  change (friendlyCount (with_diversity false o)) with (friendlyCount o).
  change (opposingCount (with_diversity true o)) with (opposingCount o).
  change (opposingCount (with_diversity false o)) with (opposingCount o).
  pose proof (assembled_length_le S nx ny o) as Hle.
  change (diversified S nx ny (with_diversity false o)) with (assembled S nx ny o).
  change (diversified S nx ny (with_diversity true o))
    with (if bool_decide (1 < length (assembled S nx ny o))
          then ensureSourceDiversity (assembled S nx ny o) else assembled S nx ny o).
  apply fmap_Permutation.
  rewrite (take_ge (assembled S nx ny o)) by done.
  case_bool_decide; [|by rewrite take_ge].
  pose proof (assembled_NoDup S nx ny o Hdistinct) as Hnd.
  rewrite take_ge by (by rewrite ensureSourceDiversity_length).
  apply submseteq_length_Permutation; [|by rewrite ensureSourceDiversity_length].
  apply NoDup_submseteq; [|intros t; apply ensureSourceDiversity_elem_of].
  by eapply NoDup_fmap_1, ensureSourceDiversity_NoDup.
Qed.

Lemma pickSources_diversity_reorders_witness :
  ∃ diverse plain,
    pickSources None getDefaultSources (JNum (Fin 0.3)) (JNum (Fin (-0.4)))
      (Some (with_diversity true defaultOptions))
    = (Returned diverse, getDefaultSources)
    ∧ pickSources None getDefaultSources (JNum (Fin 0.3)) (JNum (Fin (-0.4)))
        (Some (with_diversity false defaultOptions))
      = (Returned plain, getDefaultSources)
    ∧ diverse ≡ₚ plain.
Proof.
  apply (pickSources_diversity_reorders None getDefaultSources (Fin 0.3) (Fin (-0.4))
           defaultOptions).
  apply (bool_decide_unpack _). by vm_compute.
Defined.

(** X13: for two numbers [pickSources] returns at most
    [friendlyCount + opposingCount] entries.  Each carries the id, the name,
    the coordinates and the category of an active source of the catalog
    that has the category asked for; the entries marked [isFallback] are
    the neutral ones, found by the fill-in search, and no entry is marked
    as an emergency fallback. *)
Theorem pickSources_sides file sources (nx ny : number) o :
  ∃ finalSources,
    pickSources file sources (JNum nx) (JNum ny) (Some o)
    = (Returned finalSources, catalog file sources)
    ∧ length finalSources ≤ friendlyCount o + opposingCount o
    ∧ Forall (λ e, sel_isEmergencyFallback e = false
                   ∧ (sel_isFallback e = true ↔ sel_side e = neutral)
                   ∧ ∃ s, s ∈ pool (categoryFilter o) (catalog file sources)
                          ∧ copied s e) finalSources.
Proof.
  eexists. split; [apply pickSources_catalog|].
  set (S := catalog file sources).
  split; [rewrite length_fmap, length_take; lia|].
  apply Forall_forall. intros e (t & -> & Ht)%list_elem_of_fmap.
  apply elem_of_take in Ht as (i & Ht%list_elem_of_lookup_2 & _).
  apply diversified_elem_of in Ht. unfold assembled in Ht.
  assert (∀ side fb ax ay n excl,
            t ∈ tag side fb <$> findClosestSources S (JNum ax) (JNum ay) n excl
                                  (categoryFilter o) →
            t_side t = side ∧ t_isFallback t = fb
            ∧ c_source (t_candidate t) ∈ pool (categoryFilter o) S) as Hfound.
  { intros side fb ax ay n excl (c & -> & Hc)%list_elem_of_fmap.
    split_and!; [done..|]. simpl.
    assert (c_source c ∈ c_source <$> findClosestSources S (JNum ax) (JNum ay) n excl
                                        (categoryFilter o)) as Hin
      by (apply list_elem_of_fmap; by exists c).
    eapply elem_of_submseteq in Hin; [|apply found_sources].
    by apply list_elem_of_filter in Hin as [_ ?]. }
  assert (∃ side fb, t_side t = side ∧ t_isFallback t = fb
                     ∧ (fb = true ↔ side = neutral)
                     ∧ c_source (t_candidate t) ∈ pool (categoryFilter o) S)
    as (side & fb & Hside & Hfb & Hiff & Hpool).
  { apply elem_of_app in Ht as [Ht|Ht]; [|apply elem_of_app in Ht as [Ht|Ht]].
    - apply Hfound in Ht as (? & ? & ?). by exists friendly, false.
    - apply Hfound in Ht as (? & ? & ?). by exists opposing, false.
    - destruct (_ && _); [|by apply elem_of_nil in Ht].
      apply Hfound in Ht as (? & ? & ?). by exists neutral, true. }
  unfold finalSource; simpl. rewrite Hside, Hfb.
  split_and!; [done|done|]. by eexists.
Qed.

End FeedFacts.

(** ** The [Map] of the memory tier *)

Section JSMapFacts.
Context {V : Type}.
Implicit Types (m : list (string * V)) (k key : string) (v : V).

Lemma map_get_nil key : map_get (V:=V) key [] = None.
Proof. done. Qed.

Lemma map_get_cons k v key m :
  map_get key ((k, v) :: m) = if decide (k = key) then Some v else map_get key m.
Proof. unfold map_get. rewrite filter_cons. simpl. by case_decide. Qed.

Lemma map_get_None key m : map_get key m = None ↔ key ∉ map_keys m.
Proof.
  unfold map_keys. induction m as [|[k v] m IH]; simpl.
  - split; [intros _; apply not_elem_of_nil|done].
  - rewrite map_get_cons, not_elem_of_cons. case_decide as Hk.
    + split; [done|]. intros [Hne _]. by subst.
    + rewrite IH. split; [by split|by intros [_ ?]].
Qed.

Lemma map_get_Some key v m : map_get key m = Some v → key ∈ map_keys m.
Proof.
  intros Hget. destruct (decide (key ∈ map_keys m)) as [|Hnot]; [done|].
  apply map_get_None in Hnot. congruence.
Qed.

Lemma map_set_keys key v m :
  map_keys (map_set key v m)
  = if decide (key ∈ map_keys m) then map_keys m else map_keys m ++ [key].
Proof.
  unfold map_keys. induction m as [|[k w] m IH]; simpl; [done|].
  case_bool_decide as Hk; simpl.
  - subst. clear IH. destruct (decide (_ ∈ _ :: _)) as [|Hin]; [done|].
    exfalso. apply Hin. left.
  - change (list_fmap _ _ fst) with (fmap (M:=list) (@fst string V)).
    rewrite IH. destruct (decide (key ∈ m.*1)) as [Hin|Hout].
    + destruct (decide (_ ∈ _ :: _)) as [|Hin']; [done|].
      exfalso. apply Hin'. by right.
    + destruct (decide (_ ∈ _ :: _)) as [Hin'|]; [|done].
      apply elem_of_cons in Hin' as [->|Hin']; done.
Qed.

Lemma map_set_fresh key v m : key ∉ map_keys m → map_set key v m = m ++ [(key, v)].
Proof.
  unfold map_keys. induction m as [|[k w] m IH]; simpl; [done|].
  rewrite not_elem_of_cons. intros [Hne Hout].
  rewrite bool_decide_eq_false_2 by done. by rewrite IH.
Qed.

Lemma map_get_set key v k m :
  map_get k (map_set key v m) = if decide (key = k) then Some v else map_get k m.
Proof.
  induction m as [|[k' w] m IH]; simpl.
  - rewrite map_get_cons. by case_decide.
  - case_bool_decide as Hk; rewrite !map_get_cons.
    + subst. by repeat case_decide.
    + rewrite IH. repeat case_decide; congruence.
Qed.

Lemma map_delete_cons key k v m :
  map_delete key ((k, v) :: m)
  = if decide (k = key) then map_delete key m else (k, v) :: map_delete key m.
Proof.
  unfold map_delete. rewrite filter_cons. simpl.
  destruct (decide (k = key)) as [->|Hne].
  - by rewrite decide_False by (by intros []).
  - by rewrite decide_True.
Qed.

Lemma map_get_delete key k m :
  map_get k (map_delete key m) = if decide (key = k) then None else map_get k m.
Proof.
  induction m as [|[k' w] m IH].
  - by case_decide.
  - rewrite map_delete_cons. destruct (decide (k' = key)) as [->|Hne].
    + rewrite IH, map_get_cons. by repeat case_decide.
    + rewrite !map_get_cons, IH. repeat case_decide; congruence.
Qed.

Lemma map_delete_keys key m : map_keys (map_delete key m) = filter (λ k, k ≠ key) (map_keys m).
Proof.
  unfold map_keys. induction m as [|[k w] m IH]; [done|].
  rewrite map_delete_cons, fmap_cons, filter_cons. simpl.
  destruct (decide (k = key)) as [->|Hne].
  - by rewrite decide_False by (by intros []).
  - by rewrite decide_True, fmap_cons, IH.
Qed.

Lemma map_delete_length key m : length (map_delete key m) ≤ length m.
Proof. apply length_filter. Qed.

Lemma map_delete_length_lt key m :
  key ∈ map_keys m → length (map_delete key m) < length m.
Proof.
  unfold map_keys. intros ([k v] & Hk & Hin)%list_elem_of_fmap. simpl in Hk. subst.
  eapply length_filter_lt; [done|]. simpl. by intros [].
Qed.

Lemma map_delete_fresh key m : key ∉ map_keys m → map_delete key m = m.
Proof.
  intros Hout. apply filter_all, Forall_forall. intros [k v] Hin; simpl; intros ->.
  apply Hout. unfold map_keys. apply list_elem_of_fmap. by exists (key, v).
Qed.

Lemma map_set_length key v m : length (map_set key v m) ≤ S (length m).
Proof.
  rewrite <-(length_fmap fst (map_set key v m)). fold (map_keys (map_set key v m)).
  rewrite map_set_keys. case_decide; unfold map_keys;
    rewrite ?length_app, !length_fmap; simpl; lia.
Qed.

Lemma map_set_NoDup key v m : NoDup (map_keys m) → NoDup (map_keys (map_set key v m)).
Proof.
  intros Hnd. rewrite map_set_keys. case_decide as Hin; [done|].
  apply NoDup_app. split_and!; [done| |apply NoDup_singleton].
  by intros k Hk ->%list_elem_of_singleton.
Qed.

Lemma map_delete_NoDup key m : NoDup (map_keys m) → NoDup (map_keys (map_delete key m)).
Proof. intros Hnd. rewrite map_delete_keys. by apply NoDup_filter. Qed.

Lemma map_delete_app key (m1 m2 : list (string * V)) :
  map_delete key (m1 ++ m2) = map_delete key m1 ++ map_delete key m2.
Proof. apply filter_app. Qed.

Lemma map_delete_last key v (m : list (string * V)) :
  key ∉ map_keys m → map_delete key (m ++ [(key, v)]) = m.
Proof.
  intros Hfresh. rewrite map_delete_app, map_delete_fresh by done.
  unfold map_delete. rewrite filter_cons_False by (simpl; tauto).
  by rewrite app_nil_r.
Qed.


Lemma map_delete_head key v (m : list (string * V)) :
  NoDup (map_keys ((key, v) :: m)) → map_delete key ((key, v) :: m) = m.
Proof.
  intros [Hfresh _]%NoDup_cons. rewrite map_delete_cons, decide_True by done.
  by apply map_delete_fresh.
Qed.

Lemma map_get_filter (P : string * V → Prop) `{!∀ kv, Decision (P kv)}
    key v (m : list (string * V)) :
  map_get key m = Some v → P (key, v) → map_get key (filter P m) = Some v.
Proof.
  induction m as [|[k w] m IH]; [done|].
  rewrite map_get_cons, filter_cons. case_decide as Hk.
  - subst k. intros [= ->] HP. by rewrite decide_True, map_get_cons, decide_True.
  - intros Hget HP. case_decide; [|by apply IH].
    rewrite map_get_cons, decide_False by done. by apply IH.
Qed.

End JSMapFacts.

(** ** The memory tier *)

Module CacheFacts.
Import Cache CacheSpec.

Lemma step_maxSize c o : maxSize (step c o) = maxSize c.
Proof.
  destruct o; simpl; try done.
  unfold mc_get. destruct (map_get _ _); [|done]. by destruct (expired_before _ _).
Qed.

Lemma run_maxSize ops c : maxSize (run ops c) = maxSize c.
Proof.
  revert c. induction ops as [|o ops IH]; intros c; simpl; [done|].
  by rewrite IH, step_maxSize.
Qed.

Lemma mc_get_cache now key c :
  cache (mc_get now key c).1
  = match map_get key (cache c) with
    | None => cache c
    | Some item =>
        if expired_before now item then map_delete key (cache c)
        else map_delete key (cache c) ++ [(key, item)]
    end.
Proof.
  unfold mc_get. destruct (map_get key (cache c)) as [item|]; [|done].
  destruct (expired_before now item); simpl; [done|].
  apply map_set_fresh. rewrite map_delete_keys.
  by intros [Hne _]%list_elem_of_filter.
Qed.

Lemma mc_set_cache now key value ttlSec c :
  cache (mc_set now key value ttlSec c)
  = map_set key (mkItem value (if truthy ttlSec then Some (now + ttlSec * 1000)%Z else None))
      (if bool_decide (maxSize c ≤ Z.of_nat (size c))%Z
       then match keys c with
            | firstKey :: _ => map_delete firstKey (cache c)
            | [] => cache c
            end
       else cache c).
Proof. done. Qed.

Lemma step_wf c o : wf c → wf (step c o).
Proof.
  unfold wf, keys. intros Hwf. destruct o as [now key|now key value ttlSec|key| |now]; simpl.
  - rewrite mc_get_cache. destruct (map_get key (cache c)) as [item|] eqn:Hget; [|done].
    destruct (expired_before now item); [by apply map_delete_NoDup|].
    rewrite <-map_set_fresh.
    + by apply map_set_NoDup, map_delete_NoDup.
    + rewrite map_delete_keys. by intros [Hne _]%list_elem_of_filter.
  - apply map_set_NoDup. case_bool_decide; [|done].
    destruct (cache c) as [|[firstKey item] rest]; [done|].
    by apply map_delete_NoDup.
  - by apply map_delete_NoDup.
  - apply NoDup_nil_2.
  - unfold map_keys. apply (sublist_NoDup _ (cache c).*1); [done|].
    apply fmap_sublist, sublist_filter.
Qed.

(** Every operation keeps the cache within [maxSize]. *)
Lemma step_bounded c o : (1 ≤ maxSize c)%Z → bounded c → bounded (step c o).
Proof.
  unfold bounded. rewrite step_maxSize. unfold size. intros Hmax Hb.
  destruct o as [now key|now key value ttlSec|key| |now]; simpl.
  - rewrite mc_get_cache. destruct (map_get key (cache c)) as [item|] eqn:Hget; [|done].
    apply map_get_Some, (map_delete_length_lt key) in Hget.
    destruct (expired_before now item); rewrite ?length_app; simpl; lia.
  - pose proof (map_set_length key
        (mkItem value (if truthy ttlSec then Some (now + ttlSec * 1000)%Z else None))) as Hset.
    case_bool_decide as Hfull.
    + unfold size in Hfull.
      destruct (cache c) as [|[firstKey item] rest] eqn:Hc; simpl in *; [lia|].
      specialize (Hset (map_delete firstKey ((firstKey, item) :: rest))).
      pose proof (map_delete_length_lt firstKey ((firstKey, item) :: rest)) as Hdel.
      simpl in Hdel. specialize (Hdel ltac:(left)). lia.
    + unfold size in Hfull. specialize (Hset (cache c)). lia.
  - pose proof (map_delete_length key (cache c)). lia.
  - lia.
  - pose proof (length_filter (λ kv : string * Item, ¬ expired_at now kv.2) (cache c)). lia.
Qed.

(** C10: starting from an empty cache with [maxSize >= 1], the number of
    stored entries is at most [maxSize] after every sequence of get, set,
    delete, clear and cleanup operations. *)
Theorem memory_cache_bounded (maxSize : Z) (ops : list op) :
  (1 ≤ maxSize)%Z →
  (Z.of_nat (size (run ops (newMemoryCache maxSize))) ≤ maxSize)%Z.
Proof.
  intros Hmax.
  assert (∀ c, (1 ≤ Cache.maxSize c)%Z → bounded c → bounded (run ops c)) as Hrun.
  { induction ops as [|o ops IH]; intros c Hc Hb; simpl; [done|].
    apply IH; [by rewrite step_maxSize|by apply step_bounded]. }
  specialize (Hrun (newMemoryCache maxSize) Hmax). unfold bounded in Hrun.
  rewrite run_maxSize in Hrun. apply Hrun. simpl. unfold size. simpl. lia.
Qed.

Lemma memory_cache_bounded_witness :
  (Z.of_nat (size (run [Put 0 "a" "1" 60; Put 1 "b" "2" 60; Get 2 "a"; Put 3 "c" "3" 0;
                        Cleanup 70000; Put 4 "d" "4" 60; Delete "a"; Clear; Put 5 "e" "5" 1]
                     (newMemoryCache 2))) ≤ 2)%Z.
Proof. apply (memory_cache_bounded 2). lia. Defined.

(** *** Recency order *)

(** A hit moves the entry behind all others and returns its value. *)
Lemma mc_get_hit now key c c' v :
  mc_get now key c = (c', Some v) →
  keys c' = filter (λ k, k ≠ key) (keys c) ++ [key]
  ∧ ∃ item, map_get key (cache c) = Some item ∧ value item = v
            ∧ expired_before now item = false
            ∧ map_get key (cache c') = Some item.
Proof.
  intros Hget. pose proof (mc_get_cache now key c) as Hc. rewrite Hget in Hc.
  unfold mc_get in Hget. destruct (map_get key (cache c)) as [item|] eqn:Hitem; [|done].
  destruct (expired_before now item) eqn:Hexp; [done|]. injection Hget as _ <-.
  simpl in Hc. unfold keys. rewrite Hc. split.
  - rewrite <-map_delete_keys. unfold map_keys. by rewrite fmap_app.
  - exists item. split_and!; [done..|].
    rewrite <-map_set_fresh, map_get_set, decide_True; [done..|].
    rewrite map_delete_keys. by intros [Hne _]%list_elem_of_filter.
Qed.

(** A set on a full cache first removes the entry at the front. *)
Lemma mc_set_full now key value ttlSec c firstKey :
  wf c → (maxSize c ≤ Z.of_nat (size c))%Z → lru c = Some firstKey →
  ∃ item rest,
    cache c = (firstKey, item) :: rest
    ∧ cache (mc_set now key value ttlSec c)
      = map_set key (mkItem value
                       (if truthy ttlSec then Some (now + ttlSec * 1000)%Z else None)) rest.
Proof.
  unfold wf, lru, keys. intros Hwf Hfull Hfirst. rewrite mc_set_cache.
  rewrite bool_decide_eq_true_2 by done. unfold keys.
  destruct (cache c) as [|[k item] rest]; [done|]. simpl in *.
  injection Hfirst as ->. exists item, rest. split; [done|].
  rewrite map_delete_cons, decide_True by done.
  rewrite map_delete_fresh; [done|]. by apply NoDup_cons in Hwf as [? _].
Qed.

(** A set that overwrites a key, in a cache with room left, keeps the order:
    the key is not moved to the end. *)
Lemma mc_set_overwrite now key value ttlSec c :
  key ∈ keys c → (Z.of_nat (size c) < maxSize c)%Z →
  keys (mc_set now key value ttlSec c) = keys c.
Proof.
  intros Hin Hroom. unfold keys. rewrite mc_set_cache, bool_decide_eq_false_2 by lia.
  by rewrite map_set_keys, decide_True.
Qed.

Lemma puts_snoc ws w : puts (ws ++ [w]) = puts ws ++ puts [w].
Proof. unfold puts. by rewrite fmap_app. Qed.

Lemma run_app ops1 ops2 c : run (ops1 ++ ops2) c = run ops2 (run ops1 c).
Proof. unfold run. by rewrite foldl_app. Qed.

(** Below capacity, new keys line up in insertion order. *)
Lemma run_puts_room ws c :
  NoDup (keys c ++ put_keys ws) →
  (Z.of_nat (size c + length ws) ≤ maxSize c)%Z →
  keys (run (puts ws) c) = keys c ++ put_keys ws.
Proof.
  revert c. induction ws as [|[[[now key] value] ttlSec] ws IH]; intros c Hnd Hroom.
  - simpl. by rewrite app_nil_r.
  - simpl in *. apply NoDup_app in Hnd as (Hc & Hfresh & Hws).
    apply NoDup_cons in Hws as [Hkey Hws].
    assert (keys (mc_set now key value ttlSec c) = keys c ++ [key]) as Hkeys.
    { unfold keys. rewrite mc_set_cache, bool_decide_eq_false_2 by lia.
      rewrite map_set_keys, decide_False; [done|].
      intros Hin. apply (Hfresh key Hin). left. }
    rewrite IH.
    + rewrite Hkeys. by rewrite <-app_assoc.
    + rewrite Hkeys, <-app_assoc. simpl.
      apply NoDup_app. split_and!; [done| |by apply NoDup_cons].
      intros k Hk. apply (Hfresh k Hk).
    + change (maxSize (mc_set now key value ttlSec c)) with (maxSize c).
      unfold size in *. rewrite <-(length_fmap fst (cache (mc_set _ _ _ _ _))).
      fold (map_keys (cache (mc_set now key value ttlSec c))).
      fold (keys (mc_set now key value ttlSec c)).
      rewrite Hkeys, length_app. unfold keys, map_keys. rewrite length_fmap. simpl. lia.
Qed.

(** After insertions of new keys only, the cache holds the most recent
    [maxSize] of all its keys, in the order they came. *)
Lemma run_puts_recent ws c :
  (1 ≤ maxSize c)%Z → bounded c → NoDup (keys c ++ put_keys ws) →
  keys (run (puts ws) c)
  = drop (length (keys c ++ put_keys ws) - Z.to_nat (maxSize c)) (keys c ++ put_keys ws).
Proof.
  revert c. induction ws as [|[[[now key] value] ttlSec] ws IH]; intros c Hmax Hb Hnd.
  - simpl. rewrite app_nil_r.
    assert (length (keys c) = size c) as Hlen by (unfold keys, map_keys; apply length_fmap).
    unfold bounded in Hb.
    by replace (length (keys c) - Z.to_nat (maxSize c)) with 0 by lia.
  - simpl in *.
    assert (length (keys c) = size c) as Hlen by (unfold keys, map_keys; apply length_fmap).
    pose proof Hnd as (Hc & Hfresh & Hws)%NoDup_app.
    assert (key ∉ keys c) as Hkey by (intros Hin; apply (Hfresh key Hin); left).
    set (c' := mc_set now key value ttlSec c).
    assert (maxSize c' = maxSize c) as Hmax' by done.
    assert (bounded c') as Hb' by (apply (step_bounded c (Put now key value ttlSec)); done).
    unfold bounded in Hb.
    destruct (decide (Z.of_nat (size c) < maxSize c)%Z) as [Hroom|Hfull].
    + assert (keys c' = keys c ++ [key]) as Hkeys.
      { unfold c', keys. rewrite mc_set_cache, bool_decide_eq_false_2 by lia.
        by rewrite map_set_keys, decide_False. }
      rewrite IH; [|lia|done|by rewrite Hkeys, <-app_assoc].
      rewrite Hkeys, Hmax', <-app_assoc. reflexivity.
    + destruct (keys c) as [|firstKey others] eqn:Hkc; [simpl in *; lia|].
      destruct (mc_set_full now key value ttlSec c firstKey) as (item & rest & Hcache & Hset);
        [unfold wf; by rewrite Hkc|lia|unfold lru; by rewrite Hkc|].
      assert (map_keys rest = others) as Hrest.
      { unfold keys in Hkc. rewrite Hcache in Hkc. simpl in Hkc. congruence. }
      assert (keys c' = others ++ [key]) as Hkeys.
      { unfold c', keys. rewrite Hset, map_set_keys, Hrest, decide_False; [done|].
        intros Hin. apply Hkey. by right. }
      rewrite IH; [|lia|done|].
      * rewrite Hkeys, Hmax', <-app_assoc. simpl in *.
        rewrite !length_app in *. simpl in *.
        replace (S (length others + S (length (put_keys ws))) - Z.to_nat (maxSize c))
          with (S (length others + S (length (put_keys ws)) - Z.to_nat (maxSize c)))
          by lia.
        done.
      * rewrite Hkeys, <-app_assoc. simpl in *.
        by apply NoDup_cons in Hnd as [_ ?].
Qed.

(** The scenario of the documentation: a key that was just read is evicted
    by [maxSize] insertions of new keys, which are all that is left. *)
Lemma read_then_flushed now key c c' v ws :
  (1 ≤ maxSize c)%Z → bounded c → wf c →
  mc_get now key c = (c', Some v) →
  NoDup (keys c' ++ put_keys ws) → Z.of_nat (length ws) = maxSize c →
  keys (run (puts ws) c') = put_keys ws ∧ key ∉ keys (run (puts ws) c').
Proof.
  intros Hmax Hb Hwf Hget Hnd Hlen.
  assert (c' = step c (Get now key)) as Hstep by (simpl; by rewrite Hget).
  assert (maxSize c' = maxSize c) as Hmax' by (rewrite Hstep; apply step_maxSize).
  assert (bounded c') as Hb' by (rewrite Hstep; by apply step_bounded).
  assert (keys (run (puts ws) c') = put_keys ws) as Hkeys.
  { rewrite run_puts_recent; [|lia|done|done].
    assert (length (put_keys ws) = length ws) as Hpk by (unfold put_keys; apply length_fmap).
    rewrite length_app, Hmax'.
    replace (length (keys c') + length (put_keys ws) - Z.to_nat (maxSize c))
      with (length (keys c')) by lia.
    by rewrite drop_app_length. }
  split; [done|]. rewrite Hkeys. intros Hin.
  apply NoDup_app in Hnd as (_ & Hfresh & _). apply (Hfresh key); [|done].
  apply mc_get_hit in Hget as [-> _]. apply elem_of_app. right. left.
Qed.

(** X28: the order of the memory tier.  A get hit moves the entry to the
    last place of the [Map]; a set on a cache that holds [maxSize] entries
    removes the first entry of the [Map] before it inserts, and then
    overwrites its key in place or appends it; [maxSize + 1] distinct keys
    inserted into an empty cache evict exactly the first of them, the others
    stay, the last one in the last place. *)
Theorem memory_cache_lru :
  (∀ now key c c' v,
     mc_get now key c = (c', Some v) →
     mru c' = Some key ∧ keys c' = filter (λ k, k ≠ key) (keys c) ++ [key])
  ∧ (∀ now key value ttlSec c firstKey,
       wf c → (1 ≤ maxSize c)%Z → Z.of_nat (size c) = maxSize c →
       lru c = Some firstKey →
       keys (mc_set now key value ttlSec c)
       = (if decide (key ∈ tail (keys c)) then tail (keys c) else tail (keys c) ++ [key])
       ∧ (key ≠ firstKey → firstKey ∉ keys (mc_set now key value ttlSec c))
       ∧ key ∈ keys (mc_set now key value ttlSec c))
  ∧ (∀ (n : nat) ws,
       1 ≤ n → length ws = S n → NoDup (put_keys ws) →
       let c := run (puts ws) (newMemoryCache (Z.of_nat n)) in
       keys c = tail (put_keys ws)
       ∧ head (put_keys ws) ≠ None
       ∧ (∀ k, head (put_keys ws) = Some k → k ∉ keys c)
       ∧ mru c = last (put_keys ws)).
Proof.
  split_and!.
  - intros now key c c' v Hget. apply mc_get_hit in Hget as [Hkeys _].
    split; [|done]. unfold mru. rewrite Hkeys. apply last_snoc.
  - intros now key value ttlSec c firstKey Hwf Hmax Hsize Hfirst.
    destruct (mc_set_full now key value ttlSec c firstKey) as (item & rest & Hc & Hset);
      [done|lia|done|].
    assert (keys c = firstKey :: map_keys rest) as Hkeys by (unfold keys; by rewrite Hc).
    assert (keys (mc_set now key value ttlSec c)
            = if decide (key ∈ map_keys rest) then map_keys rest else map_keys rest ++ [key])
      as Hkeys'.
    { unfold keys. by rewrite Hset, map_set_keys. }
    rewrite Hkeys'. rewrite Hkeys. simpl. split_and!; [done| |].
    + intros Hne Hin. unfold wf in Hwf. rewrite Hkeys in Hwf.
      apply NoDup_cons in Hwf as [Hout _].
      destruct (decide (key ∈ map_keys rest)); [done|].
      apply elem_of_app in Hin as [?|Hin%list_elem_of_singleton]; [done|congruence].
    + destruct (decide (key ∈ map_keys rest)); [done|].
      apply elem_of_app. right. left.
  - intros n ws Hn Hlen Hnd c.
    destruct ws as [|w ws _] using rev_ind; [done|].
    rewrite length_app in Hlen. simpl in Hlen.
    destruct w as [[[now key] value] ttlSec].
    assert (put_keys (ws ++ [(now, key, value, ttlSec)]) = put_keys ws ++ [key]) as Hpk.
    { unfold put_keys. by rewrite fmap_app. }
    rewrite Hpk in *. apply NoDup_app in Hnd as (Hws & Hfresh & _).
    set (c0 := run (puts ws) (newMemoryCache (Z.of_nat n))).
    assert (keys c0 = put_keys ws) as Hkeys0.
    { unfold c0. rewrite run_puts_room; [done|done|]. simpl. unfold size. simpl. lia. }
    assert (length (put_keys ws) = n) as Hlen0.
    { unfold put_keys. rewrite length_fmap. lia. }
    assert (c = mc_set now key value ttlSec c0) as ->.
    { unfold c. by rewrite puts_snoc, run_app. }
    assert (size c0 = n) as Hsize0.
    { unfold size. rewrite <-(length_fmap fst (cache c0)).
      change ((cache c0).*1) with (keys c0). by rewrite Hkeys0. }
    assert (maxSize c0 = Z.of_nat n) as Hmax0 by (unfold c0; by rewrite run_maxSize).
    destruct (put_keys ws) as [|firstKey others] eqn:Hfirst; [simpl in *; lia|].
    destruct (mc_set_full now key value ttlSec c0 firstKey) as (item & rest & Hc & Hset).
    { unfold wf. by rewrite Hkeys0. }
    { lia. }
    { unfold lru. by rewrite Hkeys0. }
    assert (map_keys rest = others) as Hrest.
    { unfold keys in Hkeys0. rewrite Hc in Hkeys0. simpl in Hkeys0. congruence. }
    assert (keys (mc_set now key value ttlSec c0) = others ++ [key]) as Hkeys.
    { unfold keys. rewrite Hset, map_set_keys, Hrest, decide_False; [done|].
      intros Hin. apply (Hfresh key); [by right|left]. }
    rewrite Hkeys. simpl. split_and!; [done|done| |].
    + intros k [= <-] Hin. apply NoDup_cons in Hws as [Hout _].
      apply elem_of_app in Hin as [?|Hin%list_elem_of_singleton]; [done|].
      subst. apply (Hfresh key); left.
    + unfold mru. rewrite Hkeys.
      change (firstKey :: others ++ [key]) with ((firstKey :: others) ++ [key]).
      by rewrite !last_snoc.
Qed.

Lemma memory_cache_lru_witness :
  (let c := with_cache (newMemoryCache 3) [("a", mkItem "1" None); ("b", mkItem "2" None)] in
   mru (mc_get 0 "a" c).1 = Some "a" ∧ keys (mc_get 0 "a" c).1 = ["b"; "a"])
  ∧ (let c := with_cache (newMemoryCache 2) [("a", mkItem "1" None); ("b", mkItem "2" None)] in
     keys (mc_set 0 "c" "3" 60 c) = ["b"; "c"])
  ∧ (let c := run (puts [(0, "a", "1", 60); (1, "b", "2", 60); (2, "c", "3", 60)]%Z)
                (newMemoryCache 2) in
     keys c = ["b"; "c"] ∧ mru c = Some "c").
Proof.
  destruct memory_cache_lru as (Hget & Hset & Hputs). split_and!.
  - set (c := with_cache (newMemoryCache 3) _).
    destruct (Hget 0%Z "a" c (mc_get 0 "a" c).1 "1") as [Hmru Hkeys]; [reflexivity|].
    split; [exact Hmru|exact Hkeys].
  - set (c := with_cache (newMemoryCache 2) _).
    destruct (Hset 0%Z "c" "3" 60%Z c "a") as (Hkeys & _ & _).
    + apply (bool_decide_unpack _). by vm_compute.
    + simpl. lia.
    + reflexivity.
    + reflexivity.
    + exact Hkeys.
  - destruct (Hputs 2 [(0, "a", "1", 60); (1, "b", "2", 60); (2, "c", "3", 60)]%Z)
      as (Hkeys & _ & _ & Hmru).
    + lia.
    + reflexivity.
    + apply (bool_decide_unpack _). by vm_compute.
    + split; [exact Hkeys|exact Hmru].
Defined.

(** *** The order of the [Map] *)

Lemma sorted_sublist {A : Type} (R : A → A → Prop) (l k : list A) :
  l `sublist_of` k → StronglySorted R k → StronglySorted R l.
Proof.
  induction 1 as [|a l k Hlk IH|a l k Hlk IH]; intros Hk; [done| |].
  - apply StronglySorted_inv in Hk as [Hk Ha]. constructor; [by apply IH|].
    eapply Forall_forall. intros b Hb. eapply Forall_forall in Ha; [done|].
    by eapply elem_of_sublist.
  - apply StronglySorted_inv in Hk as [Hk _]. by apply IH.
Qed.

Lemma sorted_ext {A : Type} (R R' : A → A → Prop) (l : list A) :
  StronglySorted R l → (∀ a b, a ∈ l → b ∈ l → R a b → R' a b) → StronglySorted R' l.
Proof.
  induction 1 as [|a l Hl IH Ha]; intros Himp; [constructor|].
  constructor.
  - apply IH. intros b b' Hb Hb'. apply Himp; by right.
  - apply Forall_forall. intros b Hb. apply Himp; [left|by right|].
    by eapply Forall_forall in Ha.
Qed.

(** What an operation does to the order: it takes keys away, or it takes
    keys away and puts one key, the one it places, at the end. *)
Lemma step_keys c o :
  wf c →
  (keys (step c o) `sublist_of` keys c ∧ ∀ k, places c o k = false)
  ∨ ∃ key l, keys (step c o) = l ++ [key] ∧ l `sublist_of` keys c ∧ (key ∉ l)
             ∧ ∀ k, places c o k = bool_decide (key = k).
Proof.
  intros Hwf. destruct o as [now key|now key value ttlSec|key| |now]; simpl.
  - destruct (mc_get now key c) as [c' [v|]] eqn:Hget; simpl.
    + right. exists key, (filter (λ k, k ≠ key) (keys c)).
      apply mc_get_hit in Hget as [-> _].
      split_and!; [done|apply sublist_filter|by intros [? _]%list_elem_of_filter|].
      intros k. apply andb_true_r.
    + left. split.
      * pose proof (mc_get_cache now key c) as Hc. rewrite Hget in Hc. simpl in Hc.
        unfold keys. rewrite Hc. unfold mc_get in Hget.
        destruct (map_get key (cache c)) as [item|]; [|done].
        destruct (expired_before now item); [|done].
        rewrite map_delete_keys. apply sublist_filter.
      * intros k. apply andb_false_r.
  - assert (keys (mc_set now key value ttlSec c)
            = let base := if is_full c then tail (keys c) else keys c in
              if decide (key ∈ base) then base else base ++ [key]) as Hkeys.
    { unfold keys at 1. rewrite mc_set_cache, map_set_keys. unfold is_full.
      case_bool_decide; [|done].
      unfold wf, keys in *. destruct (cache c) as [|[k item] rest]; [done|].
      simpl. by rewrite map_delete_head. }
    rewrite Hkeys. simpl. unfold lru.
    destruct (is_full c) eqn:Hfull; [destruct (keys c) as [|firstKey rest] eqn:Hkc|]; simpl.
    + right. exists key, [].
      split_and!; [done|done|apply not_elem_of_nil|].
      intros k. apply andb_true_r.
    + unfold wf in Hwf. rewrite Hkc in Hwf. apply NoDup_cons in Hwf as [Hout _].
      destruct (decide (key ∈ rest)) as [Hin|Hnew].
      * left. split; [by apply sublist_cons|].
        intros k. case_bool_decide as Hk; [subst k|done]. simpl.
        rewrite (bool_decide_eq_true_2 (key ∈ firstKey :: rest)) by (by right).
        rewrite bool_decide_eq_false_2; [done|]. intros [= ->]. done.
      * right. exists key, rest.
        split_and!; [done|by apply sublist_cons|done|].
        intros k. case_bool_decide as Hk; [subst k|done]. simpl.
        destruct (decide (firstKey = key)) as [->|Hne].
        -- rewrite (bool_decide_eq_true_2 (Some key = Some key)) by done.
           apply orb_true_r.
        -- rewrite (bool_decide_eq_false_2 (key ∈ firstKey :: rest)); [done|].
           intros [->|?]%elem_of_cons; done.
    + destruct (decide (key ∈ keys c)) as [Hin|Hnew].
      * left. split; [done|].
        intros k. case_bool_decide as Hk; [subst k|done]. simpl.
        by rewrite (bool_decide_eq_true_2 (key ∈ keys c)).
      * right. exists key, (keys c). split_and!; [done..|].
        intros k. case_bool_decide as Hk; [subst k|done]. simpl.
        by rewrite (bool_decide_eq_false_2 (key ∈ keys c)).
  - left. split; [|done]. unfold keys; simpl. rewrite map_delete_keys. apply sublist_filter.
  - left. split; [|done]. apply sublist_nil_l.
  - left. split; [|done]. apply fmap_sublist, sublist_filter.
Qed.

Lemma last_from_snoc does i ops o c key :
  last_from does i (ops ++ [o]) c key
  = if does (run ops c) o key then Some (i + length ops) else last_from does i ops c key.
Proof.
  revert i c. induction ops as [|o' ops IH]; intros i c; simpl.
  - rewrite Nat.add_0_r. by destruct (does c o key).
  - rewrite IH. change (run (o' :: ops) c) with (run ops (step c o')).
    destruct (does (run ops (step c o')) o key); [|done].
    by rewrite Nat.add_succ_r.
Qed.

(** In every run from an empty cache the keys are in the order in which
    they were placed last. *)
Lemma run_placed (maxSize : Z) (ops : list op) :
  let empty := newMemoryCache maxSize in
  wf (run ops empty)
  ∧ StronglySorted (λ k1 k2, earlier (last_placed ops empty k1) (last_placed ops empty k2))
      (keys (run ops empty))
  ∧ ∀ k, k ∈ keys (run ops empty) → ∃ j, last_placed ops empty k = Some j ∧ j < length ops.
Proof.
  simpl. induction ops as [|o ops (Hwf & Hsorted & Hstamp)] using rev_ind.
  { split_and!; [apply NoDup_nil_2|constructor|by intros k Hk%elem_of_nil]. }
  set (c := run ops (newMemoryCache maxSize)) in *.
  rewrite run_app. fold c. change (run [o] c) with (step c o).
  assert (∀ k, last_placed (ops ++ [o]) (newMemoryCache maxSize) k
               = if places c o k then Some (length ops)
                 else last_placed ops (newMemoryCache maxSize) k) as Hlast.
  { intros k. unfold last_placed. by rewrite last_from_snoc. }
  split; [by apply step_wf|].
  destruct (step_keys c o Hwf) as [[Hsub Hnone]|(key & l & Hkeys & Hsub & Hout & Hone)].
  - split.
    + eapply sorted_ext; [by eapply sorted_sublist|].
      intros a b _ _. by rewrite !Hlast, !Hnone.
    + intros k Hk. rewrite Hlast, Hnone, length_app. simpl.
      destruct (Hstamp k) as (j & -> & Hj); [by eapply elem_of_sublist|].
      exists j. split; [done|lia].
  - rewrite Hkeys.
    assert (∀ k, k ∈ l →
                 ∃ j, last_placed (ops ++ [o]) (newMemoryCache maxSize) k = Some j
                      ∧ last_placed ops (newMemoryCache maxSize) k = Some j
                      ∧ j < length ops) as Hold.
    { intros k Hk. rewrite Hlast, Hone, bool_decide_eq_false_2 by (by intros ->).
      destruct (Hstamp k) as (j & -> & Hj); [by eapply elem_of_sublist|]. by exists j. }
    assert (last_placed (ops ++ [o]) (newMemoryCache maxSize) key = Some (length ops)) as Hnew.
    { by rewrite Hlast, Hone, bool_decide_eq_true_2. }
    split.
    + apply StronglySorted_app_2.
      * intros k1 k2 Hk1 ->%list_elem_of_singleton.
        destruct (Hold k1 Hk1) as (j & -> & _ & Hj). by rewrite Hnew.
      * eapply sorted_ext; [by eapply sorted_sublist|].
        intros a b Ha Hb.
        destruct (Hold a Ha) as (ja & -> & -> & _).
        by destruct (Hold b Hb) as (jb & -> & -> & _).
      * repeat constructor.
    + intros k [Hk| ->%list_elem_of_singleton]%elem_of_app; rewrite length_app; simpl.
      * destruct (Hold k Hk) as (j & -> & _ & Hj). exists j. split; [done|lia].
      * exists (length ops). split; [done|lia].
Qed.

(** X30: the order of eviction.  In every run of operations from an empty
    cache the keys stand in the [Map] in the order in which they were placed
    last, where a key is placed by a [get] that hits it and by a [set] that
    does not find it (or finds it in the first place of a full cache), and
    not by a [set] that overwrites it.  So the key that a [set] of another
    key evicts from a full cache is the one placed before all others. *)
Theorem memory_cache_order (maxSize : Z) (ops : list op) :
  let empty := newMemoryCache maxSize in
  let c := run ops empty in
  StronglySorted (λ k1 k2, earlier (last_placed ops empty k1) (last_placed ops empty k2))
    (keys c)
  ∧ ∀ now key value ttlSec firstKey,
      is_full c = true → lru c = Some firstKey → key ≠ firstKey →
      (firstKey ∉ keys (mc_set now key value ttlSec c))
      ∧ ∀ k, k ∈ keys c → k ≠ firstKey →
             earlier (last_placed ops empty firstKey) (last_placed ops empty k).
Proof.
  simpl. destruct (run_placed maxSize ops) as (Hwf & Hsorted & _).
  split; [done|].
  intros now key value ttlSec firstKey Hfull Hfirst Hkey.
  set (c := run ops (newMemoryCache maxSize)) in *.
  unfold is_full in Hfull. apply bool_decide_eq_true in Hfull.
  destruct (mc_set_full now key value ttlSec c firstKey Hwf Hfull Hfirst)
    as (item & rest & Hc & Hset).
  assert (keys c = firstKey :: map_keys rest) as Hkeys by (unfold keys; by rewrite Hc).
  rewrite Hkeys in Hsorted. apply StronglySorted_inv in Hsorted as [_ Hafter].
  unfold wf in Hwf. rewrite Hkeys in Hwf. apply NoDup_cons in Hwf as [Hout _].
  split.
  - unfold keys. rewrite Hset, map_set_keys.
    destruct (decide (key ∈ map_keys rest)); [done|].
    intros [?|?%list_elem_of_singleton]%elem_of_app; done.
  - intros k Hk Hne. rewrite Hkeys in Hk.
    apply elem_of_cons in Hk as [?|Hk]; [done|].
    by eapply Forall_forall in Hafter.
Qed.

Lemma memory_cache_order_overwriting :
  last_placed overwriting (newMemoryCache 3) <$> keys (run overwriting (newMemoryCache 3))
  = [Some 0; Some 1; Some 3].
Proof. by vm_compute. Qed.

(** C5: [set] does not evict by recency of use.  After [set a], [set b],
    [set a], [set c] a cache of three entries is full and [b] is its least
    recently used key: the last use of [b] is operation 1, that of [a]
    operation 2 and that of [c] operation 3.  The overwriting [set a] left
    [a] in the first place of the [Map], so the next [set], of a new key
    [d], evicts [a] and keeps [b]. *)
Theorem memory_cache_lru_overwrite :
  let c := run overwriting (newMemoryCache 3) in
  keys c = ["a"; "b"; "c"]
  ∧ is_full c = true
  ∧ last_use overwriting (newMemoryCache 3) <$> keys c = [Some 2; Some 1; Some 3]
  ∧ keys (mc_set 4 "d" "5" 60 c) = ["b"; "c"; "d"].
Proof. by vm_compute. Qed.

(** ** The two tiers *)

Lemma mc_get_value now key c :
  (mc_get now key c).2
  = match map_get key (cache c) with
    | Some item => if expired_before now item then None else Some (value item)
    | None => None
    end.
Proof.
  unfold mc_get. destruct (map_get key (cache c)) as [item|]; [|done].
  by destruct (expired_before now item).
Qed.

Lemma getCache_memory_value now key st :
  (getCache_memory now key st).2 = (mc_get now key (memoryCache st)).2.
Proof. unfold getCache_memory. by destruct (mc_get now key (memoryCache st)). Qed.

Lemma getCache_memory_state now key st :
  (getCache_memory now key st).1 = with_memory st (mc_get now key (memoryCache st)).1.
Proof. unfold getCache_memory. by destruct (mc_get now key (memoryCache st)). Qed.

(** What [setCache] leaves in the memory tier under [key]. *)
Lemma mc_set_get now key value ttlSec c :
  map_get key (cache (mc_set now key value ttlSec c))
  = Some (mkItem value (if truthy ttlSec then Some (now + ttlSec * 1000)%Z else None)).
Proof. rewrite mc_set_cache, map_get_set. by rewrite decide_True. Qed.

(** What [setCache] does on a non-empty key and a string: one of its three
    paths, each of which writes the memory tier and returns [true]. *)
Lemma setCache_paths now ok key value ttlSec st :
  key ≠ "" →
  setCache now ok key (Some value) ttlSec st
  = (setCache_memory now key value ttlSec
       (if isRedisConnected st && client st
        then if ok then with_redis st (redis_set now key value ttlSec (redis st))
             else set_disconnected st
        else st),
     true).
Proof.
  intros Hkey. unfold setCache. rewrite bool_decide_eq_false_2 by done.
  by destruct (isRedisConnected st && client st), ok.
Qed.

Lemma setCache_memory_get now key value ttlSec st :
  map_get key (cache (memoryCache (setCache_memory now key value ttlSec st)))
  = Some (mkItem value (if truthy ttlSec then Some (now + ttlSec * 1000)%Z else None)).
Proof. apply mc_set_get. Qed.

(** X29: for a non-empty key and a string, [setCache] returns [true] and
    leaves the value in the memory tier, also when the Redis write throws;
    such a failure clears [isRedisConnected] and changes nothing else
    outside the memory tier. *)
Theorem setCache_succeeds now ok key value ttlSec st :
  key ≠ "" →
  ∃ st',
    setCache now ok key (Some value) ttlSec st = (st', true)
    ∧ memoryCache st' = mc_set now key value ttlSec (memoryCache st)
    ∧ map_get key (cache (memoryCache st'))
      = Some (mkItem value (if truthy ttlSec then Some (now + ttlSec * 1000)%Z else None))
    ∧ (isRedisConnected st = true → client st = true → ok = false →
       isRedisConnected st' = false ∧ client st' = client st ∧ redis st' = redis st).
Proof.
  intros Hkey. eexists. split; [by apply setCache_paths|].
  split_and!.
  - by destruct (isRedisConnected st && client st), ok.
  - apply setCache_memory_get.
  - intros Hconn Hclient Hok. by rewrite Hconn, Hclient, Hok.
Qed.

Lemma setCache_succeeds_witness :
  ∃ st',
    setCache 5 false "feed:0.100:0.200" (Some "[]") 1800
      (mkState true true ∅ (newMemoryCache 2)) = (st', true)
    ∧ memoryCache st' = mc_set 5 "feed:0.100:0.200" "[]" 1800 (newMemoryCache 2)
    ∧ map_get "feed:0.100:0.200" (cache (memoryCache st'))
      = Some (mkItem "[]" (if truthy 1800 then Some (5 + 1800 * 1000)%Z else None))
    ∧ (true = true → true = true → false = false →
       isRedisConnected st' = false ∧ client st' = true ∧ redis st' = ∅).
Proof.
  apply (setCache_succeeds 5 false "feed:0.100:0.200" "[]" 1800
           (mkState true true ∅ (newMemoryCache 2))).
  by vm_compute.
Defined.

(** C8: when Redis is connected, the call returns and the key is there,
    [getCache] returns the value and changes nothing: the memory tier is
    neither written nor reordered. *)
Theorem getCache_redis_hit now key value st :
  isRedisConnected st = true → client st = true →
  redis_get now key (redis st) = Some value →
  getCache now true key st = (st, Some value)
  ∧ memoryCache (getCache now true key st).1 = memoryCache st.
Proof.
  intros Hconn Hclient Hget. unfold getCache. by rewrite Hconn, Hclient, Hget.
Qed.

Lemma getCache_redis_hit_witness :
  let st := mkState true true {[ "k" := mkEntry "v" (Some 1000%Z) ]}
              (with_cache (newMemoryCache 3)
                 [("k", mkItem "old" None); ("j", mkItem "w" None)]) in
  getCache 10 true "k" st = (st, Some "v")
  ∧ memoryCache (getCache 10 true "k" st).1 = memoryCache st.
Proof.
  apply (getCache_redis_hit 10 "k" "v"); by vm_compute.
Defined.

(** C6, as stated, fails: [setCache] refuses the empty key, so the value is
    not there to get; and a [ttl] of 0 is no expiry at all in the memory
    tier, so the value is still returned after the time has passed. *)
Lemma cache_round_trip_counterexample :
  (let st1 := (setCache 0 true "" (Some "v") 60 memory_only).1 in
   (getCache 0 true "" st1).2 = None)
  ∧ (let st1 := (setCache 0 true "k" (Some "v") 0 memory_only).1 in
     (getCache 1 true "k" st1).2 = Some "v")
  ∧ ¬ (∀ now key value ttlSec st,
         let st1 := (setCache now true key (Some value) ttlSec st).1 in
         (getCache now true key st1).2 = Some value
         ∧ ∀ later, (now + ttlSec * 1000 < later)%Z →
                    (getCache later true key st1).2 = None).
Proof.
  split_and!; [by vm_compute|by vm_compute|].
  intros Hclaim. by destruct (Hclaim 0%Z "" "v" 60%Z memory_only) as [Hget _].
Qed.

(** C6, amended: for a non-empty key, a string value and [ttl > 0], at a
    clock time that is not negative, [getCache] right after [setCache]
    returns the value, and returns [null] once more than [ttl] seconds have
    passed; whether the Redis calls return or throw. *)
Theorem cache_round_trip now ok_set ok_get key value ttlSec st :
  key ≠ "" → (0 < ttlSec)%Z → (0 ≤ now)%Z →
  let st1 := (setCache now ok_set key (Some value) ttlSec st).1 in
  (getCache now ok_get key st1).2 = Some value
  ∧ ∀ later ok_later,
      (now + ttlSec * 1000 < later)%Z → (getCache later ok_later key st1).2 = None.
Proof.
  intros Hkey Httl Hnow st1.
  pose proof (setCache_paths now ok_set key value ttlSec st Hkey) as Hset.
  set (st' := setCache_memory now key value ttlSec _) in Hset.
  assert (st1 = st') as -> by (unfold st1; by rewrite Hset).
  pose proof (setCache_memory_get now key value ttlSec
                (if isRedisConnected st && client st
                 then if ok_set
                      then with_redis st (redis_set now key value ttlSec (redis st))
                      else set_disconnected st
                 else st)) as Hmem.
  fold st' in Hmem.
  assert (truthy ttlSec = true) as Httl'.
  { unfold truthy. apply negb_true_iff, Z.eqb_neq. lia. }
  rewrite Httl' in Hmem.
  assert (∀ t st2, memoryCache st2 = memoryCache st' →
            (getCache_memory t key st2).2
            = if bool_decide (now + ttlSec * 1000 < t)%Z then None else Some value)
    as Hmemory.
  { intros t st2 Hst2. rewrite getCache_memory_value, mc_get_value, Hst2, Hmem.
    unfold expired_before, truthy; simpl.
    rewrite (proj2 (Z.eqb_neq _ 0)) by lia. simpl.
    case_bool_decide as Ht.
    - by rewrite (proj2 (Z.ltb_lt _ _)) by lia.
    - by rewrite (proj2 (Z.ltb_ge _ _)) by lia. }
  assert (∀ t, redis_get t key (redis st') = None
               ∨ (redis_get t key (redis st') = Some value ∧ (t ≤ now + ttlSec * 1000)%Z)
               ∨ isRedisConnected st' && client st' = false) as Hredis.
  { intros t. unfold st'.
    destruct (isRedisConnected st && client st) eqn:Hup.
    - destruct ok_set; simpl.
      + unfold redis_get, redis_set. rewrite lookup_insert_eq. unfold alive; simpl.
        destruct (t <=? now + ttlSec * 1000)%Z eqn:Ht; [|by left].
        right; left. split; [done|]. by apply Z.leb_le.
      + right; right. done.
    - simpl. right; right. done. }
  clearbody st'. split.
  - unfold getCache. destruct (Hredis now) as [Hr|[[Hr _]|Hr]].
    + destruct (_ && _), ok_get; rewrite ?Hr, Hmemory; try done;
        by rewrite bool_decide_eq_false_2 by lia.
    + destruct (_ && _), ok_get; rewrite ?Hr, ?Hmemory; try done;
        by rewrite bool_decide_eq_false_2 by lia.
    + rewrite Hr, Hmemory by done. by rewrite bool_decide_eq_false_2 by lia.
  - intros later ok_later Hlater. unfold getCache.
    destruct (Hredis later) as [Hr|[[_ Hr]|Hr]]; [|lia|].
    + destruct (_ && _), ok_later; rewrite ?Hr, Hmemory; try done;
        by rewrite bool_decide_eq_true_2 by lia.
    + rewrite Hr, Hmemory by done. by rewrite bool_decide_eq_true_2 by lia.
Qed.

Lemma cache_round_trip_witness :
  let st1 := (setCache 100 true "feed:0.100:0.200" (Some "[1]") 1800
                (mkState true true ∅ (newMemoryCache 2))).1 in
  (getCache 100 false "feed:0.100:0.200" st1).2 = Some "[1]"
  ∧ ∀ later ok_later,
      (100 + 1800 * 1000 < later)%Z →
      (getCache later ok_later "feed:0.100:0.200" st1).2 = None.
Proof.
  apply (cache_round_trip 100 true false "feed:0.100:0.200" "[1]" 1800
           (mkState true true ∅ (newMemoryCache 2))).
  - by vm_compute.
  - lia.
  - lia.
Defined.

(** *** Clearing *)

Lemma foldr_delete_lookup (ks : list string) (store : gmap string Entry) k :
  foldr delete store ks !! k = if decide (k ∈ ks) then None else store !! k.
Proof.
  induction ks as [|k' ks IH]; [done|].
  cbn [foldr]. rewrite lookup_delete, IH.
  destruct (decide (k' = k)) as [->|Hne].
  - destruct (decide (k ∈ k :: ks)) as [|Hout]; [done|]. exfalso. apply Hout. left.
  - destruct (decide (k ∈ ks)) as [Hin|Hout].
    + destruct (decide (k ∈ k' :: ks)) as [|Hout]; [done|]. exfalso. apply Hout. by right.
    + destruct (decide (k ∈ k' :: ks)) as [Hin|]; [|done].
      apply elem_of_cons in Hin as [->|Hin]; done.
Qed.

Lemma redis_get_None_lookup now k (store : gmap string Entry) :
  store !! k = None → redis_get now k store = None.
Proof. unfold redis_get. by intros ->. Qed.

Section ClearFacts.
Context (redis_glob : string → string → bool).
Context (RegExp : string → option (string → bool)).

Lemma elem_of_redis_keys now pattern store k :
  k ∈ redis_keys redis_glob now pattern store
  ↔ redis_glob pattern k = true ∧ is_Some (redis_get now k store).
Proof.
  unfold redis_keys. rewrite list_elem_of_filter, Is_true_true. split.
  - by intros [[? ?] _].
  - intros [Hglob Hsome]. split; [done|].
    apply list_elem_of_fmap. unfold redis_get in Hsome.
    destruct (store !! k) as [e|] eqn:Hk; [|by destruct Hsome].
    exists (k, e). split; [done|]. by apply elem_of_map_to_list.
Qed.

(** The Redis part of [clearCache] leaves alone what does not match. *)
Lemma clearCache_redis_other now ok_keys ok_del pattern st k :
  redis_glob pattern k = false →
  redis (clearCache_redis redis_glob now ok_keys ok_del pattern st).1 !! k = redis st !! k.
Proof.
  intros Hglob. unfold clearCache_redis.
  destruct (_ && _ && _); [|done]. destruct ok_keys; [|done].
  case_bool_decide; [|done]. destruct ok_del; [|done]. simpl.
  rewrite foldr_delete_lookup, decide_False; [done|].
  intros [Hmatch _]%elem_of_redis_keys. congruence.
Qed.

Lemma clearCache_redis_rest now ok_keys ok_del pattern st :
  let st1 := (clearCache_redis redis_glob now ok_keys ok_del pattern st).1 in
  memoryCache st1 = memoryCache st ∧ isRedisConnected st1 = isRedisConnected st
  ∧ client st1 = client st.
Proof.
  unfold clearCache_redis.
  destruct (_ && _ && _); [|done]. destruct ok_keys; [|done].
  case_bool_decide; [|done]. by destruct ok_del.
Qed.

Lemma clearCache_redis_matching now pattern st k :
  isRedisConnected st = true → client st = true → pattern ≠ "" →
  redis_glob pattern k = true →
  redis_get now k (redis (clearCache_redis redis_glob now true true pattern st).1) = None.
Proof.
  intros Hconn Hclient Hpattern Hglob. unfold clearCache_redis.
  rewrite Hconn, Hclient, bool_decide_eq_false_2 by done. simpl.
  case_bool_decide as Hsome; simpl.
  - unfold redis_get at 1. rewrite foldr_delete_lookup.
    destruct (decide (k ∈ _)) as [|Hout]; [done|].
    fold (redis_get now k (redis st)).
    destruct (redis_get now k (redis st)) as [v|] eqn:Hget; [|done].
    exfalso. apply Hout, elem_of_redis_keys. by rewrite Hget.
  - destruct (redis_get now k (redis st)) as [v|] eqn:Hget; [|done].
    assert (k ∈ redis_keys redis_glob now pattern (redis st)) as Hin.
    { apply elem_of_redis_keys. by rewrite Hget. }
    destruct (redis_keys _ _ _ _); [by apply elem_of_nil in Hin|simpl in *; lia].
Qed.

(** C3, amended: with a pattern that gives a regular expression once each
    star is replaced by [.*], [clearCache] deletes from the memory tier
    every key the expression tests true on and keeps the others, and,
    when Redis is connected and its calls return, deletes from Redis
    every key its [KEYS] command matches with the pattern; without a
    pattern it empties the memory tier only and leaves Redis as it is. *)
Theorem clearCache_tiers now ok_keys ok_del st :
  (∀ pattern test,
     pattern ≠ "" → RegExp (replace_stars pattern) = Some test →
     ∃ st' cleared,
       clearCache redis_glob RegExp now ok_keys ok_del (Some pattern) st
       = (st', Returned cleared)
       ∧ (∀ k, test k = true → k ∉ keys (memoryCache st'))
       ∧ (∀ k, test k = false →
            map_get k (cache (memoryCache st')) = map_get k (cache (memoryCache st)))
       ∧ (isRedisConnected st = true → client st = true →
          ok_keys = true → ok_del = true →
          ∀ k, redis_glob pattern k = true → redis_get now k (redis st') = None)
       ∧ (∀ k, redis_glob pattern k = false → redis st' !! k = redis st !! k))
  ∧ (∃ st',
       clearCache redis_glob RegExp now ok_keys ok_del None st
       = (st', Returned (size (memoryCache st)))
       ∧ keys (memoryCache st') = []
       ∧ redis st' = redis st).
Proof.
  split.
  - intros pattern test Hpattern Hregex. unfold clearCache. simpl.
    destruct (clearCache_redis redis_glob now ok_keys ok_del pattern st)
      as [st1 cleared] eqn:Hredis.
    pose proof (clearCache_redis_rest now ok_keys ok_del pattern st) as (Hmem & _ & _).
    rewrite Hredis in Hmem. simpl in Hmem.
    rewrite bool_decide_eq_false_2 by done. simpl. rewrite Hregex.
    eexists _, _. split; [reflexivity|]. simpl. rewrite Hmem. split_and!.
    + intros k Hk. unfold keys, map_keys; simpl.
      intros ([k' item] & -> & Hin)%list_elem_of_fmap.
      apply list_elem_of_filter in Hin as [Hnot _]. simpl in *.
      apply Hnot. by apply Is_true_true.
    + intros k Hk. unfold map_get. f_equal. f_equal.
      rewrite list_filter_filter. apply list_filter_iff.
      intros [k' item]; simpl. split; [by intros [? _]|].
      intros ->. split; [done|]. rewrite Hk. by intros [].
    + intros Hconn Hclient -> -> k Hglob.
      pose proof (clearCache_redis_matching now pattern st k Hconn Hclient Hpattern Hglob)
        as Hgone.
      by rewrite Hredis in Hgone.
    + intros k Hglob.
      pose proof (clearCache_redis_other now ok_keys ok_del pattern st k Hglob) as Hsame.
      by rewrite Hredis in Hsame.
  - unfold clearCache, clearCache_redis. simpl.
    rewrite andb_false_r. simpl. by eexists.
Qed.
End ClearFacts.

(** C3, as stated, fails: without a pattern the Redis part of [clearCache]
    is skipped, so the key is still in Redis afterwards; and with a pattern
    nothing leaves Redis when the call to it throws. *)
Lemma clearCache_counterexample :
  (let st' := (clearCache feed_glob feed_RegExp 0 true true None both_tiers).1 in
   keys (memoryCache st') = []
   ∧ redis_get 0 "feed:0.000:0.000" (redis st') = Some "[]")
  ∧ (let st' := (clearCache feed_glob feed_RegExp 0 false true (Some "feed:*") both_tiers).1 in
     keys (memoryCache st') = ["article:a"]
     ∧ redis_get 0 "feed:0.000:0.000" (redis st') = Some "[]")
  ∧ ¬ (∀ st, redis (clearCache feed_glob feed_RegExp 0 true true None st).1 = ∅).
Proof.
  split_and!; [by vm_compute|by vm_compute|].
  intros Hclaim. specialize (Hclaim both_tiers).
  apply (f_equal (lookup "feed:0.000:0.000")) in Hclaim.
  by vm_compute in Hclaim.
Qed.

Lemma clearCache_tiers_witness :
  (∃ st' cleared,
     clearCache feed_glob feed_RegExp 0 true true (Some "feed:*") both_tiers
     = (st', Returned cleared)
     ∧ ("feed:0.000:0.000" ∉ keys (memoryCache st'))
     ∧ redis_get 0 "feed:0.000:0.000" (redis st') = None)
  ∧ (∃ st',
       clearCache feed_glob feed_RegExp 0 true true None both_tiers
       = (st', Returned 2)
       ∧ keys (memoryCache st') = []
       ∧ redis st' = redis both_tiers).
Proof.
  destruct (clearCache_tiers feed_glob feed_RegExp 0 true true both_tiers)
    as [Hpattern Hnone].
  split; [|exact Hnone].
  destruct (Hpattern "feed:*" (String.prefix "feed:")) as (st' & cleared & H1 & H2 & _ & H3 & _).
  - by vm_compute.
  - reflexivity.
  - exists st', cleared. split_and!; [exact H1|by apply H2|].
    apply H3; reflexivity.
Defined.


(** *** Between a write and the end of its time to live *)

Import CacheHealth.

Lemma setCache_then_getCache now t ok_set ok_get key value ttlSec st :
  key ≠ "" → (0 < ttlSec)%Z → (0 ≤ now)%Z → (t < now + ttlSec * 1000)%Z →
  (getCache t ok_get key (setCache now ok_set key (Some value) ttlSec st).1).2
  = Some value.
Proof.
  intros Hkey Httl Hnow Ht. rewrite setCache_paths by done. simpl.
  set (st0 := if isRedisConnected st && client st then _ else st).
  assert (∀ st2, memoryCache st2 = memoryCache (setCache_memory now key value ttlSec st0) →
            (getCache_memory t key st2).2 = Some value) as Hmemory.
  { intros st2 Hst2. rewrite getCache_memory_value, mc_get_value, Hst2, setCache_memory_get.
    unfold truthy. rewrite (proj2 (Z.eqb_neq ttlSec 0)) by lia.
    unfold expired_before; simpl. by rewrite (proj2 (Z.ltb_ge _ _)), andb_false_r by lia. }
  unfold getCache.
  destruct (isRedisConnected (setCache_memory now key value ttlSec st0)
            && client (setCache_memory now key value ttlSec st0)) eqn:Hup;
    [|by apply Hmemory].
  destruct ok_get; [|by apply Hmemory].
  destruct (redis_get t key _) as [v|] eqn:Hget; [|by apply Hmemory].
  simpl. unfold st0 in Hget, Hup.
  destruct (isRedisConnected st && client st) eqn:Hst; [|simpl in Hup; congruence].
  destruct ok_set; [|done]. simpl in Hget.
  unfold redis_get, redis_set in Hget. rewrite lookup_insert_eq in Hget.
  by destruct (alive _ _).
Qed.





(** *** Deleting *)

Lemma deleteCache_memory now ok key st :
  cache (memoryCache (deleteCache now ok key st).1)
  = map_delete key (cache (memoryCache st)).
Proof.
  unfold deleteCache.
  destruct (isRedisConnected st && client st); [destruct ok|]; simpl; try done.
Qed.



(** *** Expired entries *)

Lemma getStats_counts now (m : list (string * Item)) expired active :
  foldl (λ '(expired, active) kv,
           if expired_at now kv.2 then (S expired, active) else (expired, S active))
        (expired, active) m
  = (expired + length (filter (λ kv, expired_at now kv.2) m),
     active + length (filter (λ kv, ¬ expired_at now kv.2) m)).
Proof.
  revert expired active. induction m as [|kv m IH]; intros expired active; simpl.
  - f_equal; lia.
  - rewrite !filter_cons. destruct (expired_at now kv.2) eqn:Hkv; rewrite IH.
    + rewrite decide_True, decide_False by (by rewrite ?Hkv; try intros []).
      simpl. f_equal; lia.
    + rewrite decide_False, decide_True by (by rewrite ?Hkv; try intros []).
      simpl. f_equal; lia.
Qed.

Lemma mc_getStats_eq now c :
  mc_getStats now c
  = mkStats (size c)
      (length (filter (λ kv, ¬ expired_at now kv.2) (cache c)))
      (length (filter (λ kv, expired_at now kv.2) (cache c)))
      (maxSize c).
Proof. unfold mc_getStats. by rewrite getStats_counts. Qed.

(** X16: [getStats] counts every entry once, as active or as expired.
    [clearExpiredCache] removes the entries that [getStats] counts as
    expired at that time and returns their number; afterwards [getStats]
    reports the active entries alone, every entry that was not expired is
    still there with its value, and no entry that is left is expired. *)
Theorem clearExpiredCache_getStats now st :
  let before := mc_getStats now (memoryCache st) in
  let after := mc_getStats now (memoryCache (clearExpiredCache now st).1) in
  stats_total before = stats_active before + stats_expired before
  ∧ (clearExpiredCache now st).2 = stats_expired before
  ∧ after = mkStats (stats_active before) (stats_active before) 0 (stats_maxSize before)
  ∧ (∀ key item,
       map_get key (cache (memoryCache st)) = Some item →
       expired_at now item = false →
       map_get key (cache (memoryCache (clearExpiredCache now st).1)) = Some item)
  ∧ (∀ key item,
       map_get key (cache (memoryCache (clearExpiredCache now st).1)) = Some item →
       expired_at now item = false).
Proof.
  simpl. rewrite !mc_getStats_eq. unfold clearExpiredCache, mc_cleanup; simpl.
  set (m := cache (memoryCache st)).
  split_and!.
  - unfold size. fold m.
    rewrite <-(length_app (filter _ m)).
    rewrite (Permutation_app_comm (filter (λ kv, ¬ expired_at now kv.2) m)).
    by rewrite (filter_app_complement (λ kv, expired_at now kv.2) m).
  - done.
  - unfold size; simpl. f_equal.
    + by rewrite list_filter_filter, (list_filter_iff _ (λ kv, ¬ expired_at now kv.2))
        by (intros; tauto).
    + rewrite list_filter_filter. rewrite filter_none; [done|].
      apply Forall_forall. by intros ? _ [? ?].
  - intros key item Hget Hlive. apply map_get_filter; [done|]. simpl.
    rewrite Hlive. by intros [].
  - intros key item Hget. unfold map_get in Hget.
    destruct (filter _ (filter _ m)) as [|[k v] rest] eqn:Hf; [done|].
    injection Hget as <-.
    assert ((k, v) ∈ filter (λ kv, kv.1 = key) (filter (λ kv, ¬ expired_at now kv.2) m))
      as Hin by (rewrite Hf; left).
    apply list_elem_of_filter in Hin as [_ Hin].
    apply list_elem_of_filter in Hin as [Hlive _]. simpl in *.
    by destruct (expired_at now v).
Qed.

(** *** The health check *)

Lemma testKey_not_empty t_key : testKey t_key ≠ "".
Proof. done. Qed.

(** X17: [checkCacheHealth] reports a healthy cache, with the test value
    read back, whenever its read comes less than 60 seconds after its
    write, whether the Redis calls return or throw. *)
Theorem checkCacheHealth_healthy REDIS_URL t_key t_set t_get t_del t_report
    ok_set ok_get ok_del st :
  (0 ≤ t_set)%Z → (t_set ≤ t_get < t_set + 60 * 1000)%Z →
  let health :=
    (checkCacheHealth REDIS_URL t_key t_set t_get t_del t_report ok_set ok_get ok_del st).2 in
  h_healthy health = true ∧ h_value health = Some "test_value".
Proof.
  intros Hset [_ Hget]. simpl. unfold checkCacheHealth.
  fold (testKey t_key).
  pose proof (setCache_then_getCache t_set t_get ok_set ok_get (testKey t_key) "test_value"
                60 st (testKey_not_empty _)) as Hlive.
  destruct (setCache _ _ _ _ _ _) as [st1 ?]. simpl in Hlive.
  destruct (getCache _ _ _ _) as [st2 retrieved]. simpl in Hlive.
  destruct (deleteCache _ _ _ _) as [st3 ?]. simpl.
  rewrite Hlive by lia. done.
Qed.

Lemma checkCacheHealth_healthy_witness :
  let health :=
    (checkCacheHealth None 1700000000000 1700000000000 1700000000001 1700000000002
       1700000000003 false false false both_tiers).2 in
  h_healthy health = true ∧ h_value health = Some "test_value".
Proof.
  apply (checkCacheHealth_healthy None 1700000000000 1700000000000 1700000000001
           1700000000002 1700000000003 false false false both_tiers); lia.
Defined.

Lemma setCache_memory_tier now ok key value ttlSec st :
  key ≠ "" →
  memoryCache (setCache now ok key (Some value) ttlSec st).1
  = mc_set now key value ttlSec (memoryCache st).
Proof.
  intros Hkey. rewrite setCache_paths by done. simpl.
  by destruct (isRedisConnected st && client st), ok.
Qed.

Lemma getCache_memory_tier t ok key st :
  memoryCache (getCache t ok key st).1 = memoryCache st
  ∨ memoryCache (getCache t ok key st).1 = (mc_get t key (memoryCache st)).1.
Proof.
  unfold getCache.
  destruct (isRedisConnected st && client st); [destruct ok|];
    [destruct (redis_get t key (redis st)); [by left|]|..];
    right; by rewrite getCache_memory_state.
Qed.

(** What the memory tier holds after a [set] of a key it did not hold. *)
Lemma mc_set_fresh now key value ttlSec c :
  wf c → key ∉ keys c →
  cache (mc_set now key value ttlSec c)
  = (if is_full c then tail (cache c) else cache c)
    ++ [(key, mkItem value (if truthy ttlSec then Some (now + ttlSec * 1000)%Z else None))]
  ∧ key ∉ map_keys (if is_full c then tail (cache c) else cache c).
Proof.
  intros Hwf Hfresh. rewrite mc_set_cache. unfold is_full, keys in *.
  case_bool_decide as Hfull.
  - destruct (cache c) as [|[k v] m] eqn:Hc; simpl.
    + done.
    + assert (key ∉ map_keys m) as Hm by (intros ?; apply Hfresh; by right).
      unfold wf, keys in Hwf. rewrite Hc in Hwf.
      rewrite map_delete_head by done. by rewrite map_set_fresh.
  - by rewrite map_set_fresh.
Qed.

(** X18: [checkCacheHealth] is not free of effects on the memory tier: its
    test entry goes through [set], which evicts, so a check on a full tier
    drops the first entry of the [Map]; a tier that is not full is left as
    it was.  The test entry itself is gone afterwards. *)
Theorem checkCacheHealth_evicts REDIS_URL t_key t_set t_get t_del t_report
    ok_set ok_get ok_del st :
  wf (memoryCache st) → testKey t_key ∉ keys (memoryCache st) →
  let st' :=
    (checkCacheHealth REDIS_URL t_key t_set t_get t_del t_report ok_set ok_get ok_del st).1 in
  cache (memoryCache st')
  = if is_full (memoryCache st) then tail (cache (memoryCache st))
    else cache (memoryCache st).
Proof.
  intros Hwf Hfresh. simpl. unfold checkCacheHealth. fold (testKey t_key).
  set (key := testKey t_key) in *.
  pose proof (setCache_memory_tier t_set ok_set key "test_value" 60 st
                (testKey_not_empty _)) as Hset.
  destruct (setCache _ _ _ _ _ _) as [st1 ?]. simpl in Hset.
  pose proof (getCache_memory_tier t_get ok_get key st1) as Hget.
  destruct (getCache _ _ _ _) as [st2 retrieved]. simpl in Hget.
  pose proof (deleteCache_memory t_del ok_del key st2) as Hdel.
  destruct (deleteCache _ _ _ _) as [st3 ?]. simpl in *.
  rewrite Hdel.
  destruct (mc_set_fresh t_set key "test_value" 60 (memoryCache st) Hwf Hfresh)
    as [Hcache Hrest].
  set (rest := if is_full (memoryCache st) then _ else _) in *.
  rewrite <-Hset in Hcache.
  destruct Hget as [->| ->].
  - rewrite Hcache. by apply map_delete_last.
  - rewrite mc_get_cache, Hcache.
    destruct (map_get key _) as [item|]; [destruct (expired_before t_get item)|].
    + rewrite (map_delete_last key _ rest) by done. by apply map_delete_fresh.
    + rewrite (map_delete_last key _ rest) by done. by apply map_delete_last.
    + by apply map_delete_last.
Qed.

Lemma checkCacheHealth_evicts_witness :
  let st' := (checkCacheHealth None 5 5 6 7 8 true true true two_of_two).1 in
  cache (memoryCache st') = [("b", mkItem "2" None)].
Proof.
  apply (checkCacheHealth_evicts None 5 5 6 7 8 true true true two_of_two).
  - apply (bool_decide_unpack _). by vm_compute.
  - apply (bool_decide_unpack _). by vm_compute.
Defined.

(** *** Other keys *)

(** X19: the operations of the memory tier on one key leave the entries of
    the other keys alone: [get] and [delete] always, [set] except for the
    first entry of the [Map], which it evicts when the tier is full. *)
Theorem memory_frame now key k c :
  k ≠ key →
  map_get k (cache (mc_get now key c).1) = map_get k (cache c)
  ∧ map_get k (cache (mc_delete key c).1) = map_get k (cache c)
  ∧ ∀ value ttlSec,
      (is_full c = true → lru c ≠ Some k) →
      map_get k (cache (mc_set now key value ttlSec c)) = map_get k (cache c).
Proof.
  intros Hk. split_and!.
  - unfold mc_get. destruct (map_get key (cache c)) as [item|]; [|done].
    destruct (expired_before now item); simpl;
      by rewrite ?map_get_set, map_get_delete, ?decide_False by done.
  - simpl. by rewrite map_get_delete, decide_False by done.
  - intros value ttlSec Hlru. rewrite mc_set_cache, map_get_set, decide_False by done.
    unfold is_full, lru in Hlru. case_bool_decide; [|done].
    destruct (keys c) as [|firstKey ?]; [done|].
    rewrite map_get_delete, decide_False; [done|].
    intros ->. by apply Hlru.
Qed.

Lemma memory_frame_witness :
  let c := memoryCache two_of_two in
  map_get "b" (cache (mc_get 0 "a" c).1) = map_get "b" (cache c)
  ∧ map_get "b" (cache (mc_delete "a" c).1) = map_get "b" (cache c)
  ∧ ∀ value ttlSec,
      (is_full c = true → lru c ≠ Some "b") →
      map_get "b" (cache (mc_set 0 "a" value ttlSec c)) = map_get "b" (cache c).
Proof. apply (memory_frame 0 "a" "b" (memoryCache two_of_two)). done. Defined.

End CacheFacts.

(** ** [setCache] on every value *)

Module AnyValueFacts.
Import Cache CacheSpec AnyValue.

Lemma of_keys (m : list (string * Item)) :
  map_keys (prod_map id of_item <$> m) = map_keys m.
Proof.
  unfold map_keys. rewrite <-list_fmap_compose. apply list_fmap_ext.
  by intros _ [k item] _.
Qed.

Lemma of_delete key (m : list (string * Item)) :
  map_delete key (prod_map id of_item <$> m) = prod_map id of_item <$> map_delete key m.
Proof.
  unfold map_delete. induction m as [|[k item] m IH]; csimpl; [done|].
  rewrite !filter_cons; simpl. destruct (decide (k ≠ key)); csimpl; by rewrite IH.
Qed.

Lemma of_set key item (m : list (string * Item)) :
  map_set key (of_item item) (prod_map id of_item <$> m)
  = prod_map id of_item <$> map_set key item m.
Proof.
  induction m as [|[k w] m IH]; csimpl; [done|].
  case_bool_decide; csimpl; [done|]. by rewrite IH.
Qed.

Lemma mc_set_of_memory now key value ttlSec m :
  AnyValue.mc_set now key (JStr value) ttlSec (of_memory m)
  = of_memory (Cache.mc_set now key value ttlSec m).
Proof.
  unfold AnyValue.mc_set, Cache.mc_set, of_memory, with_cache, size; simpl.
  rewrite length_fmap, of_keys. f_equal.
  set (item := mkItem value _).
  change (mkAnyItem (JStr value) _) with (of_item item).
  case_bool_decide; [|apply of_set].
  destruct (map_keys (cache m)); [apply of_set|].
  rewrite of_delete. apply of_set.
Qed.

(** On strings, and on [undefined], [setCache] is [Cache.setCache]: it
    returns what that returns and leaves the state that that leaves. *)
Lemma setCache_of_state redis_text now ok key value ttlSec st :
  AnyValue.setCache redis_text now ok key (of_value value) ttlSec (of_state st)
  = (of_state (Cache.setCache now ok key value ttlSec st).1,
     Returned (Cache.setCache now ok key value ttlSec st).2).
Proof.
  destruct value as [value|]; [|done].
  unfold AnyValue.setCache, Cache.setCache; simpl.
  case_bool_decide; [done|].
  unfold AnyValue.setCache_memory, Cache.setCache_memory, of_state; simpl.
  destruct (isRedisConnected st && client st); [destruct ok|]; simpl;
    by rewrite mc_set_of_memory.
Qed.

Lemma any_set_get now key value ttlSec m :
  map_get key (any_cache (AnyValue.mc_set now key value ttlSec m))
  = Some (mkAnyItem value (if truthy ttlSec then Some (now + ttlSec * 1000)%Z else None)).
Proof. unfold AnyValue.mc_set; simpl. by rewrite map_get_set, decide_True. Qed.

(** For a non-empty key and every value other than [undefined] and [null]
    (a boolean, a number, a string), [setCache] returns [true] and leaves
    the value in the memory tier, also when the Redis write throws; such a
    failure clears [isRedisConnected] and leaves the Redis store as it
    was. *)
Lemma setCache_returns redis_text now ok key value ttlSec st :
  key ≠ "" → value ≠ JUndefined → value ≠ JNull →
  ∃ st',
    AnyValue.setCache redis_text now ok key value ttlSec st = (st', Returned true)
    ∧ any_memory st' = AnyValue.mc_set now key value ttlSec (any_memory st)
    ∧ map_get key (any_cache (any_memory st'))
      = Some (mkAnyItem value
                (if truthy ttlSec then Some (now + ttlSec * 1000)%Z else None))
    ∧ (any_connected st = true → any_client st = true → ok = false →
       any_connected st' = false ∧ any_redis st' = any_redis st).
Proof.
  intros Hkey Hundef Hnull.
  assert (has_length value = true) as Hlen by (by destruct value).
  assert (∃ st',
            AnyValue.setCache redis_text now ok key value ttlSec st = (st', Returned true)
            ∧ any_memory st' = AnyValue.mc_set now key value ttlSec (any_memory st)
            ∧ (any_connected st = true → any_client st = true → ok = false →
               any_connected st' = false ∧ any_redis st' = any_redis st))
    as (st' & Hset & Hmem & Hredis).
  { unfold AnyValue.setCache, AnyValue.setCache_memory.
    destruct value; try done; simpl; rewrite bool_decide_eq_false_2 by done;
      destruct (any_connected st), (any_client st), ok; simpl;
      eexists; split_and!; done. }
  exists st'. split_and!; [done|done| |done].
  rewrite Hmem. apply any_set_get.
Qed.

Lemma setCache_returns_witness :
  ∃ st',
    AnyValue.setCache (λ _, "5") 0 false "count" (JNum (Fin 5)) 60
      (mkAnyState true true ∅ (mkAnyMemory [] 2)) = (st', Returned true)
    ∧ any_memory st' = AnyValue.mc_set 0 "count" (JNum (Fin 5)) 60 (mkAnyMemory [] 2)
    ∧ map_get "count" (any_cache (any_memory st'))
      = Some (mkAnyItem (JNum (Fin 5)) (if truthy 60 then Some (0 + 60 * 1000)%Z else None))
    ∧ (true = true → true = true → false = false →
       any_connected st' = false ∧ any_redis st' = ∅).
Proof.
  apply (setCache_returns (λ _, "5") 0 false "count" (JNum (Fin 5)) 60
           (mkAnyState true true ∅ (mkAnyMemory [] 2))); done.
Defined.

(** C7: [setCache] does not return for the value [null], which is a defined
    value and passes the guard: the value is written to the memory tier, and
    then the debug log reads [value.length] and throws a [TypeError] that
    nothing catches.  With Redis connected the same read throws inside the
    [try] block first, which costs the connection flag. *)
Theorem setCache_null_throws redis_text now ok key ttlSec st :
  key ≠ "" →
  ∃ st',
    AnyValue.setCache redis_text now ok key JNull ttlSec st = (st', Thrown no_length)
    ∧ any_memory st' = AnyValue.mc_set now key JNull ttlSec (any_memory st)
    ∧ map_get key (any_cache (any_memory st'))
      = Some (mkAnyItem JNull
                (if truthy ttlSec then Some (now + ttlSec * 1000)%Z else None))
    ∧ (any_connected st = true → any_client st = true → any_connected st' = false).
Proof.
  intros Hkey.
  assert (∃ st',
            AnyValue.setCache redis_text now ok key JNull ttlSec st = (st', Thrown no_length)
            ∧ any_memory st' = AnyValue.mc_set now key JNull ttlSec (any_memory st)
            ∧ (any_connected st = true → any_client st = true → any_connected st' = false))
    as (st' & Hset & Hmem & Hflag).
  { unfold AnyValue.setCache, AnyValue.setCache_memory; simpl.
    rewrite bool_decide_eq_false_2 by done.
    destruct (any_connected st) eqn:Hconn, (any_client st) eqn:Hclient, ok; simpl;
      eexists; split_and!; try done. }
  exists st'. split_and!; [done|done| |done].
  rewrite Hmem. apply any_set_get.
Qed.

Lemma setCache_null_throws_witness :
  ∃ st',
    AnyValue.setCache (λ _, "null") 0 true "feed:0.000:0.000" JNull 1800
      (of_state memory_only) = (st', Thrown no_length)
    ∧ any_memory st'
      = AnyValue.mc_set 0 "feed:0.000:0.000" JNull 1800 (any_memory (of_state memory_only))
    ∧ map_get "feed:0.000:0.000" (any_cache (any_memory st'))
      = Some (mkAnyItem JNull (if truthy 1800 then Some (0 + 1800 * 1000)%Z else None))
    ∧ (any_connected (of_state memory_only) = true →
       any_client (of_state memory_only) = true → any_connected st' = false).
Proof.
  apply (setCache_null_throws (λ _, "null") 0 true "feed:0.000:0.000" 1800
           (of_state memory_only)).
  done.
Defined.

End AnyValueFacts.

(** ** The article provider *)

Module NewsApiFacts.
Import Feed NewsApi.

Section ProviderFacts.
Context (url_protocol : string → option string).
Context (date_time : string → option Z).

Abbreviation isValidUrl := (isValidUrl url_protocol).
Abbreviation validate_article := (validate_article url_protocol date_time).
Abbreviation validateAndFilterArticles :=
  (validateAndFilterArticles url_protocol date_time).

Lemma truthy_string_Some v s : truthy_string v = Some s → v = Some s ∧ s ≠ "".
Proof.
  destruct v as [s'|]; simpl; [|done]. case_bool_decide; [done|].
  by intros [= <-].
Qed.

Lemma validate_article_sound cutoffDate raw a :
  validate_article cutoffDate raw = Some a →
  ra_url raw = Some (a_url a)
  ∧ ra_source_id raw = Some (a_source_id a)
  ∧ isValidUrl (Some (a_url a)) = true
  ∧ a_source_id a ≠ "" ∧ a_source_name a ≠ ""
  ∧ (∀ image, a_urlToImage a = Some image → isValidUrl (Some image) = true)
  ∧ (∀ p, a_publishedAt a = Some p → p ≠ "" →
          ∃ t, date_time p = Some t ∧ (cutoffDate ≤ t)%Z).
Proof.
  unfold NewsApi.validate_article.
  destruct (truthy_string (ra_title raw)) as [title|] eqn:Htitle; [|done].
  destruct (truthy_string (ra_url raw)) as [url|] eqn:Hurl; [|done].
  destruct (isValidUrl (Some url)) eqn:Hvalid; [|done]. simpl.
  destruct (stale date_time cutoffDate (ra_publishedAt raw)) eqn:Hstale; [done|].
  destruct (truthy_string (ra_source_id raw)) as [id|] eqn:Hid; [|done].
  destruct (_ || _); [done|]. intros [= <-]; simpl.
  apply truthy_string_Some in Hurl as [Hurl _], Hid as [Hid Hid'].
  split_and!; try done.
  - destruct (truthy_string (ra_source_name raw)) as [name|] eqn:Hname; simpl; [|done].
    by apply truthy_string_Some in Hname as [_ ?].
  - intros image. destruct (isValidUrl (ra_urlToImage raw)) eqn:Himage; [|done].
    by intros <-.
  - intros p Hp Hne. unfold stale in Hstale. rewrite Hp in Hstale. simpl in Hstale.
    rewrite bool_decide_eq_false_2 in Hstale by done.
    destruct (date_time p) as [t|]; [|done]. exists t. split; [done|].
    by apply Z.ltb_ge.
Qed.

(** X20: [validateAndFilterArticles] only drops articles and keeps the
    order of the rest.  Every article it returns has an http or https
    address, a non-empty source id and source name, an image address that
    is valid when there is one, and a publication date, when it has one,
    that is a date not before the cutoff of [maxAge] days. *)
Theorem validateAndFilterArticles_sound now articles maxAge :
  let valid := validateAndFilterArticles now articles maxAge in
  length valid ≤ length articles
  ∧ a_url <$> valid `sublist_of` omap ra_url articles
  ∧ Forall (λ a,
      isValidUrl (Some (a_url a)) = true
      ∧ a_source_id a ≠ "" ∧ a_source_name a ≠ ""
      ∧ (∀ image, a_urlToImage a = Some image → isValidUrl (Some image) = true)
      ∧ (∀ p, a_publishedAt a = Some p → p ≠ "" →
           ∃ t, date_time p = Some t
                ∧ (now - maxAge * 24 * 60 * 60 * 1000 ≤ t)%Z)) valid.
Proof.
  simpl. unfold NewsApi.validateAndFilterArticles.
  set (cutoffDate := (now - maxAge * 24 * 60 * 60 * 1000)%Z).
  split_and!.
  - induction articles as [|raw articles IH]; csimpl; [done|].
    destruct (validate_article cutoffDate raw); csimpl; lia.
  - induction articles as [|raw articles IH]; csimpl; [done|].
    destruct (validate_article cutoffDate raw) as [a|] eqn:Ha; csimpl.
    + apply validate_article_sound in Ha as (-> & _). by constructor.
    + destruct (ra_url raw); [by constructor|done].
  - apply Forall_forall. intros a (raw & _ & Ha)%list_elem_of_omap.
    apply validate_article_sound in Ha as (_ & _ & ?). done.
Qed.
End ProviderFacts.

End NewsApiFacts.

(** ** The [/feed] handler *)

Module ServerFacts.
Import Feed Cache NewsApi Server FeedSpec CacheSpec ServerSpec CacheFacts.

Lemma mc_get_nothing_new now key c k item :
  map_get k (cache (mc_get now key c).1) = Some item → map_get k (cache c) = Some item.
Proof.
  unfold mc_get. destruct (map_get key (cache c)) as [found|] eqn:Hfound; [|done].
  destruct (expired_before now found); simpl.
  - rewrite map_get_delete. by case_decide.
  - rewrite map_get_set, map_get_delete. by case_decide; [intros [= <-]; subst|].
Qed.

(** A lookup writes nothing, in either tier. *)
Lemma getCache_nothing_written now ok key st :
  nothing_written st (getCache now ok key st).1.
Proof.
  assert (∀ st0, redis st0 = redis st → memoryCache st0 = memoryCache st →
                 nothing_written st (getCache_memory now key st0).1) as Hmemory.
  { intros st0 Hredis Hmem. rewrite getCache_memory_state. split; [done|].
    simpl. rewrite Hmem. apply mc_get_nothing_new. }
  unfold getCache. destruct (_ && _); [|by apply Hmemory].
  destruct ok; [|by apply Hmemory].
  destruct (redis_get now key (redis st)); [by split|by apply Hmemory].
Qed.

Section HandlerFacts.
Context {json : Type}.
Context (toFixed3 : Q → string).
Context (JSON_stringify : list FeedCard → string).
Context (JSON_parse : string → option json).
Context (url_protocol : string → option string).
Context (date_time : string → option Z).

Abbreviation feed :=
  (feed toFixed3 JSON_stringify JSON_parse url_protocol date_time).
Abbreviation cacheKey := (cacheKey toFixed3).
Abbreviation cache_check := (cache_check toFixed3).
Abbreviation getArticlesBySources := (getArticlesBySources url_protocol date_time).


Lemma cache_check_nothing_written env q st :
  nothing_written st (cache_check env q st).1.
Proof.
  unfold Server.cache_check. destruct (q_refresh q); [by split|].
  pose proof (getCache_nothing_written (now env) (ok_get env) (cacheKey q) st) as Hget.
  by destruct (getCache (now env) (ok_get env) (cacheKey q) st).
Qed.

(** A failing provider makes [getArticlesBySources] throw. *)
Lemma getArticlesBySources_throws env sourceIds :
  provider_fails env → sourceIds ≠ [] →
  ∃ message,
    getArticlesBySources (NEWSAPI_KEY env) (now env) (http env) sourceIds = Thrown message.
Proof.
  intros Hfails Hids. unfold NewsApi.getArticlesBySources.
  destruct (truthy_string (NEWSAPI_KEY env)) as [key|] eqn:Hkey; [|by eexists].
  rewrite bool_decide_eq_false_2 by (by destruct sourceIds).
  destruct Hfails as [Hnokey|Hhttp]; [congruence|].
  destruct (http env) as [status code message dataMessage|status message articles];
    [by eexists|].
  rewrite bool_decide_eq_false_2 by done. by eexists.
Qed.

(** C9: once the handler has come to the article request (the query is
    valid, the cache gave nothing, sources were picked), a failure of the
    provider makes the response a 500 error and leaves the cache with
    nothing that was not there before; when articles are returned, the card
    list is stored under the feed key with a TTL of 1800 seconds if there
    is at least one card, and the cache is left alone if there is none. *)
Theorem feed_caches_cards_only env q w st1 sources sources' :
  cache_check env q (w_cache w) = (st1, None) →
  pickSources (file env) (w_sources w) (JNum (Fin (q_x q))) (JNum (Fin (q_y q)))
    (Some defaultOptions) = (Returned sources, sources') →
  sources ≠ [] →
  (provider_fails env →
   feed env (Some q) w = (mkResponse 500 FailedToFetch, mkWorld st1 sources')
   ∧ nothing_written (w_cache w) st1)
  ∧ (∀ articles,
       getArticlesBySources (NEWSAPI_KEY env) (now env) (http env) (sel_id <$> sources)
       = Returned articles →
       let cards := build_cards sources articles [] [] in
       ∃ st2,
         feed env (Some q) w = (mkResponse 200 (Cards cards), mkWorld st2 sources')
         ∧ (cards = [] → st2 = st1)
         ∧ (cards ≠ [] →
            st2 = (setCache (now env) (ok_set env) (cacheKey q)
                     (Some (JSON_stringify cards)) 1800 st1).1
            ∧ map_get (cacheKey q) (cache (memoryCache st2))
              = Some (mkItem (JSON_stringify cards) (Some (now env + 1800 * 1000)%Z)))).
Proof.
  intros Hcheck Hpick Hsources.
  pose proof (cache_check_nothing_written env q (w_cache w)) as Hnothing.
  rewrite Hcheck in Hnothing. simpl in Hnothing.
  assert (sel_id <$> sources ≠ []) as Hids by (by destruct sources).
  unfold Server.feed. rewrite Hcheck, Hpick.
  rewrite bool_decide_eq_false_2 by (by destruct sources).
  unfold assemble. split.
  - intros Hfails.
    destruct (getArticlesBySources_throws env (sel_id <$> sources) Hfails Hids)
      as [message ->].
    done.
  - intros articles ->. set (cards := build_cards sources articles [] []).
    exists (if bool_decide (0 < length cards)
            then (setCache (now env) (ok_set env) (cacheKey q)
                    (Some (JSON_stringify cards)) CACHE_TTL_FEED st1).1
            else st1).
    split; [reflexivity|]. split.
    + by intros ->.
    + intros Hcards.
      rewrite bool_decide_eq_true_2 by (destruct cards; [done|simpl; lia]).
      split; [done|]. unfold CACHE_TTL_FEED.
      rewrite setCache_paths by done. apply setCache_memory_get.
Qed.
End HandlerFacts.

Lemma feed_caches_cards_only_witness :
  (feed (json:=string) (λ _, "0.000") (λ _, "[cards]") Some https_only epoch
     (request provider_down) (Some at_origin) start
   = (mkResponse 500 FailedToFetch, start)
   ∧ nothing_written (w_cache start) (w_cache start))
  ∧ ∃ cards st2,
      feed (json:=string) (λ _, "0.000") (λ _, "[cards]") Some https_only epoch
        (request provider_up) (Some at_origin) start
      = (mkResponse 200 (Cards cards), mkWorld st2 getDefaultSources)
      ∧ length cards = 1
      ∧ map_get "feed:0.000:0.000" (cache (memoryCache st2))
        = Some (mkItem "[cards]" (Some 1800000%Z)).
Proof.
  split.
  - edestruct (feed_caches_cards_only (json:=string) (λ _, "0.000") (λ _, "[cards]") Some
                 https_only epoch (request provider_down) at_origin start) as [Hdown _].
    + reflexivity.
    + by vm_compute.
    + done.
    + apply Hdown. right. exact I.
  - edestruct (feed_caches_cards_only (json:=string) (λ _, "0.000") (λ _, "[cards]") Some
                 https_only epoch (request provider_up) at_origin start memory_only)
      as [_ Hup].
    + reflexivity.
    + by vm_compute.
    + done.
    + edestruct Hup as (st2 & Hresponse & _ & Hstored); [reflexivity|].
      eexists _, st2. split; [exact Hresponse|]. split; [by vm_compute|].
      apply Hstored. by vm_compute.
Defined.

(** *** The cards *)

Lemma find_Some p articles a : find p articles = Some a → a ∈ articles ∧ p a = true.
Proof.
  unfold find. intros Hhead.
  assert (a ∈ filter (λ a, p a) articles) as Hin.
  { destruct (filter _ articles); [done|]. injection Hhead as ->. left. }
  apply list_elem_of_filter in Hin as [Hp Hin]. split; [done|]. by apply Is_true_true.
Qed.

Lemma find_None p articles a : find p articles = None → a ∈ articles → p a = false.
Proof.
  unfold find. intros Hhead Hin. destruct (p a) eqn:Hp; [|done].
  assert (a ∈ filter (λ a, p a) articles) as Hf.
  { apply list_elem_of_filter. split; [by apply Is_true_true|done]. }
  destruct (filter _ articles); [by apply elem_of_nil in Hf|done].
Qed.

Lemma unused_true used a : unused used a = true ↔ a_url a ∉ used.
Proof. unfold unused. by rewrite negb_true_iff, bool_decide_eq_false. Qed.

Lemma unused_urls_step u used articles a :
  a ∈ articles → a_url a = u → u ∉ used →
  length (unused_urls used articles) = S (length (unused_urls (u :: used) articles)).
Proof.
  intros Ha Hu Hfresh. unfold unused_urls.
  change (S (length ?l)) with (length (u :: l)).
  apply Permutation_length, NoDup_Permutation.
  - apply NoDup_remove_dups.
  - apply NoDup_cons. split; [|apply NoDup_remove_dups].
    rewrite elem_of_remove_dups. intros [Hn _]%list_elem_of_filter. apply Hn. by left.
  - intros x.
    rewrite elem_of_cons, !elem_of_remove_dups, !list_elem_of_filter, not_elem_of_cons.
    split.
    + intros [Hx Hin]. destruct (decide (x = u)); [by left|by right].
    + intros [->|[[_ Hx] Hin]]; [|done].
      split; [done|]. apply list_elem_of_fmap. by exists a.
Qed.

Lemma unused_urls_none used articles :
  find (unused used) articles = None → unused_urls used articles = [].
Proof.
  intros Hnone. unfold unused_urls. rewrite filter_none; [done|].
  apply Forall_forall. intros u (a & -> & Ha)%list_elem_of_fmap Hu.
  apply unused_true in Hu. by rewrite (find_None _ _ _ Hnone Ha) in Hu.
Qed.

(** The loop, from any turn on: [usedArticles] holds the addresses of the
    cards built so far. *)
Lemma build_cards_spec sources articles cards used :
  (∀ u, u ∈ used ↔ u ∈ articleId <$> cards) →
  NoDup (articleId <$> cards) →
  ∃ new,
    build_cards sources articles cards used = cards ++ new
    ∧ NoDup (articleId <$> cards ++ new)
    ∧ sourceId <$> new `sublist_of` sel_id <$> sources
    ∧ Forall (shows articles) new
    ∧ Forall (stands_for sources) new
    ∧ length new = length sources `min` length (unused_urls used articles).
Proof.
  revert cards used. induction sources as [|src sources IH]; intros cards used Hused Hnd.
  { exists []. rewrite app_nil_r. by split_and!. }
  assert (∀ (art : Article) (fb : bool), a_url art ∉ used → art ∈ articles →
            (if fb then a_source_id art ≠ sel_id src else a_source_id art = sel_id src) →
            ∃ new,
              build_cards sources articles (cards ++ [card art src fb]) (a_url art :: used)
              = cards ++ new
              ∧ NoDup (articleId <$> cards ++ new)
              ∧ sourceId <$> new `sublist_of` sel_id <$> src :: sources
              ∧ Forall (shows articles) new
              ∧ Forall (stands_for (src :: sources)) new
              ∧ length new
                = length (src :: sources) `min` length (unused_urls used articles))
    as Hstep.
  { intros art fb Hfresh Hart Hfb.
    destruct (IH (cards ++ [card art src fb]) (a_url art :: used))
      as (new & -> & Hnd' & Hsub & Hshows & Hstands & Hlen).
    - intros u. rewrite elem_of_cons, fmap_app, elem_of_app, Hused. simpl.
      rewrite list_elem_of_singleton. tauto.
    - rewrite fmap_app. apply NoDup_app. split_and!; [done| |apply NoDup_singleton].
      intros u Hu ->%list_elem_of_singleton. by apply Hused in Hu.
    - exists (card art src fb :: new). rewrite <-app_assoc in *. simpl in *.
      split_and!; [done|done|by constructor| | |].
      + constructor; [|done]. exists art. by destruct fb.
      + constructor.
        * exists src. split_and!; [left|done..].
        * eapply Forall_impl; [exact Hstands|].
          intros c (src' & ? & ?). exists src'. split; [by right|done].
      + rewrite Hlen, (unused_urls_step (a_url art) used articles art) by done. lia. }
  simpl.
  destruct (find (λ a, from_source src a && unused used a) articles) as [art|] eqn:Hown.
  - apply find_Some in Hown as [Hart [Hsrc Hfresh%unused_true]%andb_true_iff].
    apply (Hstep art false); [done|done|]. by apply bool_decide_eq_true in Hsrc.
  - destruct (find (unused used) articles) as [art|] eqn:Hany.
    + apply find_Some in Hany as [Hart Hfresh].
      apply (Hstep art true); [by apply unused_true|done|].
      pose proof (find_None _ _ _ Hown Hart) as Hnot. simpl in Hnot.
      rewrite Hfresh, andb_true_r in Hnot. by apply bool_decide_eq_false in Hnot.
    + destruct (IH cards used Hused Hnd)
        as (new & -> & Hnd' & Hsub & Hshows & Hstands & Hlen).
      exists new. split_and!; [done|done|by constructor|done| |].
      * eapply Forall_impl; [exact Hstands|].
        intros c (src' & ? & ?). exists src'. split; [by right|done].
      * rewrite Hlen, (unused_urls_none used articles Hany). simpl. lia.
Qed.

(** X21: the cards of a feed use no article twice and follow the order of
    the selected sources, at most one card per source.  Each card carries
    the id, name and side of its source and the fields of an article of the
    provider's answer; it is marked [isFallback] exactly when that article
    is not from the card's source. *)
Theorem build_cards_distinct sources articles :
  let cards := build_cards sources articles [] [] in
  NoDup (articleId <$> cards)
  ∧ sourceId <$> cards `sublist_of` sel_id <$> sources
  ∧ Forall (stands_for sources) cards
  ∧ Forall (shows articles) cards.
Proof.
  simpl. destruct (build_cards_spec sources articles [] [])
    as (new & -> & Hnd & Hsub & Hshows & Hstands & _); [done|constructor|].
  done.
Qed.

(** X22: every selected source gets a card as long as an unused article is
    left: the number of cards is the number of sources, or the number of
    distinct article addresses when that is smaller. *)
Theorem build_cards_length sources articles :
  length (build_cards sources articles [] [])
  = length sources `min` length (remove_dups (a_url <$> articles)).
Proof.
  destruct (build_cards_spec sources articles [] [])
    as (new & -> & _ & _ & _ & _ & Hlen); [done|constructor|].
  simpl. rewrite Hlen. unfold unused_urls.
  by rewrite filter_all by (apply Forall_forall; intros ? _; apply not_elem_of_nil).
Qed.

(** *** Requests that answer with cards *)

Section FreshFeeds.
Context {json : Type}.
Context (toFixed3 : Q → string).
Context (JSON_stringify : list FeedCard → string).
Context (JSON_parse : string → option json).
Context (url_protocol : string → option string).
Context (date_time : string → option Z).

Abbreviation feed :=
  (feed toFixed3 JSON_stringify JSON_parse url_protocol date_time).
Abbreviation cacheKey := (cacheKey toFixed3).

(** What a request that answers with cards has done. *)
Lemma feed_cards env q w s cards w' :
  feed env (Some q) w = (mkResponse s (Cards cards), w') →
  s = 200
  ∧ (cards = []
     ∨ ∃ st1 sources articles,
         length sources ≤ 4
         ∧ getArticlesBySources url_protocol date_time (NEWSAPI_KEY env) (now env)
             (http env) (sel_id <$> sources) = Returned articles
         ∧ cards = build_cards sources articles [] []
         ∧ w_cache w'
           = (setCache (now env) (ok_set env) (cacheKey q) (Some (JSON_stringify cards))
                CACHE_TTL_FEED st1).1).
Proof.
  unfold Server.feed.
  destruct (Server.cache_check toFixed3 env q (w_cache w)) as [st1 [cached|]].
  { destruct (JSON_parse cached); intros [=]. }
  rewrite FeedFacts.pickSources_catalog.
  set (sources := finalSource <$> _).
  assert (length sources ≤ 4) as Hfour.
  { unfold sources. rewrite length_fmap, length_take.
    change (friendlyCount defaultOptions + opposingCount defaultOptions) with 4. lia. }
  case_bool_decide as Hnone; [intros [= <- <- <-]; split; [done|by left]|].
  unfold Server.assemble.
  destruct (NewsApi.getArticlesBySources _ _ _ _ _ _) as [articles|] eqn:Hget;
    [|intros [=]].
  intros [= <- <- <-]. split; [done|]. case_bool_decide as Hcards.
  - right. exists st1, sources, articles. done.
  - left. destruct (build_cards _ _ _ _); [done|simpl in Hcards; lia].
Qed.

(** X23: a [/feed] response that carries cards has status 200 and at most
    four cards, no two of them for the same article. *)
Theorem feed_fresh_cards env q w s cards w' :
  feed env (Some q) w = (mkResponse s (Cards cards), w') →
  s = 200 ∧ length cards ≤ 4 ∧ NoDup (articleId <$> cards).
Proof.
  intros [Hs [->|(st1 & sources & articles & Hfour & _ & -> & _)]]%feed_cards.
  { split_and!; [done|simpl; lia|constructor]. }
  split; [done|].
  destruct (build_cards_spec sources articles [] [])
    as (new & -> & Hnd & _ & _ & _ & Hlen); [done|constructor|].
  simpl in *. split; [lia|done].
Qed.

(** What the provider hands to the handler has passed its validation. *)
Lemma getArticlesBySources_valid key t result sourceIds articles :
  getArticlesBySources url_protocol date_time key t result sourceIds = Returned articles →
  Forall (λ a, isValidUrl url_protocol (Some (a_url a)) = true
               ∧ a_source_id a ≠ ""
               ∧ ∀ image, a_urlToImage a = Some image →
                          isValidUrl url_protocol (Some image) = true) articles.
Proof.
  unfold getArticlesBySources.
  destruct (truthy_string key); [|done].
  case_bool_decide; [by intros [= <-]|].
  destruct result as [|status message [raws|]]; [done| |].
  - case_bool_decide; [|done]. simpl. intros [= <-].
    apply Forall_forall. intros a (raw & _ & Ha)%list_elem_of_omap.
    apply NewsApiFacts.validate_article_sound in Ha as (_ & _ & ? & ? & _ & ? & _). done.
  - case_bool_decide; [|done]. simpl. by intros [= <-].
Qed.

(** X24: every card of a [/feed] response shows an article that passed the
    provider's validation: its [articleId] is its [url], an http or https
    address, and its image address is valid when there is one. *)
Theorem feed_cards_validated env q w s cards w' :
  feed env (Some q) w = (mkResponse s (Cards cards), w') →
  Forall (λ c, articleId c = url c
               ∧ isValidUrl url_protocol (Some (url c)) = true
               ∧ ∀ image, imageUrl c = Some image →
                          isValidUrl url_protocol (Some image) = true) cards.
Proof.
  intros [_ [->|(st1 & sources & articles & _ & Hget & -> & _)]]%feed_cards.
  { constructor. }
  apply getArticlesBySources_valid in Hget.
  destruct (build_cards_spec sources articles [] [])
    as (new & -> & _ & _ & Hshows & _); [done|constructor|].
  simpl. eapply Forall_impl; [exact Hshows|].
  intros c (a & Ha & Hid & Hurl & _ & _ & Himage & _).
  eapply Forall_forall in Hget as (Hvalid & _ & Himg); [|exact Ha].
  rewrite Hid, Hurl, Himage. done.
Qed.

End FreshFeeds.

Lemma feed_fresh_cards_witness :
  200 = 200 ∧ length first_cards ≤ 4 ∧ NoDup (articleId <$> first_cards).
Proof.
  apply (feed_fresh_cards (json:=string) (λ _, "0.000") (λ _, "[cards]") Some https_only
           epoch first_request at_origin start 200 first_cards first_answer.2).
  by vm_compute.
Defined.

Lemma feed_cards_validated_witness :
  Forall (λ c, articleId c = url c
               ∧ isValidUrl https_only (Some (url c)) = true
               ∧ ∀ image, imageUrl c = Some image →
                          isValidUrl https_only (Some image) = true) first_cards.
Proof.
  apply (feed_cards_validated (json:=string) (λ _, "0.000") (λ _, "[cards]") Some
           https_only epoch first_request at_origin start 200 first_cards first_answer.2).
  by vm_compute.
Defined.


End ServerFacts.

(** ** The [/article] handler *)

Module ArticleFacts.
Import Cache NewsApi ArticleServer CacheSpec ServerSpec ArticleSpec CacheFacts ServerFacts.

Section ArticleHandlerFacts.
Context {Parsed json : Type}.
Context (encodeURIComponent : string → string).
Context (JSON_stringify : Parsed → string).
Context (JSON_parse : string → option json).

Abbreviation article := (article encodeURIComponent JSON_stringify JSON_parse).
Abbreviation articleKey := (articleKey encodeURIComponent).
Abbreviation article_check := (article_check (Parsed:=Parsed) encodeURIComponent).

Lemma articleKey_not_empty q : articleKey q ≠ "".
Proof. done. Qed.

(** X26: when the cache has nothing to offer and [parseArticle] throws,
    the [/article] handler answers 500 and has written nothing to either
    tier of the cache; when [parseArticle] returns, the handler answers 200
    with the article and has stored its JSON text under the key of the
    address for 24 hours, whatever the article is. *)
Theorem article_caches_parsed env q st st1 :
  article_check env q st = (st1, None) →
  (∀ message,
     ae_parseArticle env = Thrown message →
     article env (Some q) st = (mkArticleResponse 500 FailedToParse, st1)
     ∧ nothing_written st st1)
  ∧ (∀ parsed,
       ae_parseArticle env = Returned parsed →
       ∃ st2,
         article env (Some q) st = (mkArticleResponse 200 (FreshArticle parsed), st2)
         ∧ map_get (articleKey q) (cache (memoryCache st2))
           = Some (mkItem (JSON_stringify parsed) (Some (ae_now env + 86400 * 1000)%Z))).
Proof.
  intros Hcheck. split.
  - intros message Hparse. unfold ArticleServer.article. rewrite Hcheck, Hparse.
    split; [done|].
    revert Hcheck. unfold ArticleServer.article_check.
    destruct (aq_refresh q).
    + intros [= <-]. split; [done|]. by intros.
    + pose proof (getCache_nothing_written (ae_now env) (ae_ok_get env) (articleKey q) st)
        as Hread.
      destruct (getCache _ _ _ _) as [st' cached]. by intros [= <- _].
  - intros parsed Hparse. unfold ArticleServer.article. rewrite Hcheck, Hparse.
    eexists. split; [done|].
    rewrite setCache_paths by apply articleKey_not_empty. cbn [fst].
    by rewrite setCache_memory_get.
Qed.

End ArticleHandlerFacts.

Lemma article_caches_parsed_witness :
  (∀ message,
     ae_parseArticle parsed_now = Thrown message →
     read parsed_now story memory_only
     = (mkArticleResponse 500 FailedToParse, memory_only)
     ∧ nothing_written memory_only memory_only)
  ∧ (∀ parsed,
       ae_parseArticle parsed_now = Returned parsed →
       ∃ st2,
         read parsed_now story memory_only
         = (mkArticleResponse 200 (FreshArticle parsed), st2)
         ∧ map_get "article:https://cnn.example/a" (cache (memoryCache st2))
           = Some (mkItem parsed (Some (0 + 86400 * 1000)%Z))).
Proof.
  apply (article_caches_parsed (Parsed:=string) (json:=string) id id Some parsed_now story
           memory_only memory_only).
  reflexivity.
Defined.


End ArticleFacts.
